(** * A shallow embedding of znkr.io/diff

    The development follows the Go sources: [internal/impl/myers.go] (the
    linear-space Myers engine), [internal/impl/api.go] (the diff driver and the
    preprocessor), [internal/rvecs] (result vectors and the hunk grouper),
    [diff.go] (edits), [internal/config] (options) and
    [internal/indentheuristic].

    Go's [int] is a 64-bit integer; every index and counter of the algorithms
    stays far inside that range for inputs that fit in memory, so ints are
    modelled as [Z]. Indexing a slice outside of its length panics in Go; the
    model returns [None] there. Loops of the form [for ... ; ; d++] that the
    source leaves unbounded are given an explicit fuel; running out of fuel is
    also [None]. *)

From Stdlib Require Import ZArith Lia.
From stdpp Require Import base list gmap strings.
From Stdlib Require Import Ascii.

Local Open Scope Z_scope.

(** Sequencing of code that may panic (or, for unbounded loops, not finish). *)
Notation "'let?' x ':=' m 'in' k" := (match m with Some x => k | None => None end)
  (at level 200, x pattern, m at level 100, right associativity).

Definition MinInt : Z := - 2 ^ 63.
Definition MaxInt : Z := 2 ^ 63 - 1.

(** ** Go slices *)

(** [l[i]]; an index past the end finds no element, a negative one is
    refused before the lookup. *)
Definition sget {A} (l : list A) (i : Z) : option A :=
  if 0 <=? i then l !! Z.to_nat i else None.

(** [l[i] = a]; [None] when [i] is out of range. *)
Definition sset {A} (l : list A) (i : Z) (a : A) : option (list A) :=
  if 0 <=? i then
    match l !! Z.to_nat i with Some _ => Some (<[Z.to_nat i := a]> l) | None => None end
  else None.

Definition zlen {A} (l : list A) : Z := Z.of_nat (length l).

(** The sub-slice [l[lo:hi]]. *)
Definition slice {A} (l : list A) (lo hi : Z) : list A :=
  take (Z.to_nat (hi - lo)) (drop (Z.to_nat lo) l).

(** A zero-initialised [[]int] of length [vlen], as [make([]int, vlen)]. The
    entries are stored in a finite map; an absent key reads as 0. *)
Record varr := VArr { vlen : Z; vmap : gmap Z Z }.

Definition vmake (n : Z) : varr := VArr n ∅.

Definition vget (v : varr) (i : Z) : option Z :=
  if (0 <=? i) && (i <? vlen v) then Some (default 0 (vmap v !! i)) else None.

Definition vset (v : varr) (i a : Z) : option varr :=
  if (0 <=? i) && (i <? vlen v) then Some (VArr (vlen v) (<[i := a]> (vmap v)))
  else None.

(** ** Constants of [internal/impl/myers.go] *)

Definition minCostLimit : Z := 4096.
Definition goodDiagMinLen : Z := 20.
Definition goodDiagCostLimit : Z := 256.
Definition goodDiagMagic : Z := 4.
Definition anchoringHeuristicMinInputLen : Z := 5000.

(** The six results of [split]. *)
Record split_res := SplitRes {
  r_s0 : Z; r_s1 : Z; r_t0 : Z; r_t1 : Z; r_opt0 : bool; r_opt1 : bool }.

(** ** The Myers engine, [myers[T]] *)

Section Myers.
Context {T : Type} (eq : T -> T -> bool).

Record myers := Myers {
  m_x : list T; m_y : list T;
  m_vf : varr; m_vb : varr; m_v0 : Z;
  m_costLimit : Z;
  m_xidx : list Z; m_yidx : list Z;
  m_rx : list bool; m_ry : list bool }.

(** [eq(x[s], y[t])] *)
Definition eqat (x y : list T) (s t : Z) : option bool :=
  let? a := sget x s in let? b := sget y t in Some (eq a b).

(** [for s < smax && t < tmax && eq(x[s], y[t]) { s++; t++ }]; the fuel
    [smax - s] bounds the number of iterations. *)
Fixpoint fsnake (x y : list T) (smax tmax : Z) (fuel : nat) (s t : Z)
    : option (Z * Z) :=
  match fuel with
  | O => Some (s, t)
  | S f =>
      if (s <? smax) && (t <? tmax) then
        (let? b := eqat x y s t in
         if b then fsnake x y smax tmax f (s + 1) (t + 1) else Some (s, t))
      else Some (s, t)
  end.

(** [for s > smin && t > tmin && eq(x[s-1], y[t-1]) { s--; t-- }] *)
Fixpoint bsnake (x y : list T) (smin tmin : Z) (fuel : nat) (s t : Z)
    : option (Z * Z) :=
  match fuel with
  | O => Some (s, t)
  | S f =>
      if (smin <? s) && (tmin <? t) then
        (let? b := eqat x y (s - 1) (t - 1) in
         if b then bsnake x y smin tmin f (s - 1) (t - 1) else Some (s, t))
      else Some (s, t)
  end.

(** The start of the forward step in diagonal [k], from [a = vf[k0-1]] and
    [b = vf[k0+1]]: [if vf[k0-1] < vf[k0+1] { s = vf[k0+1] } else { s = vf[k0-1] + 1 }]. *)
Definition fwd_start (a b : Z) : Z := if a <? b then b else a + 1.

(** The backward mirror: [if vb[k0-1] < vb[k0+1] { s = vb[k0-1] } else { s = vb[k0+1] - 1 }]. *)
Definition bwd_start (a b : Z) : Z := if a <? b then a else b - 1.

(** Number of iterations of [for k := lo; k <= hi; k += 2]. *)
Definition kiters (lo hi : Z) : nat :=
  if lo <=? hi then S (Z.to_nat ((hi - lo) / 2)) else O.

Section Split.
Variables (x y : list T) (v0 costLimit : Z).
Variables (smin smax tmin tmax : Z) (optimal : bool).

Definition kmin := smin - tmax.
Definition kmax := smax - tmin.
Definition fmid := smin - tmin.
Definition bmid := smax - tmax.
Definition odd : bool := negb (Z.rem ((smax - smin) - (tmax - tmin)) 2 =? 0).

(** The forward k-loop of iteration [d]. It returns the updated [vf], the
    running [longestDiag] and, when an overlap is found, the early result. *)
Fixpoint fwd_k (bmin bmax : Z) (vb : varr) (n : nat) (k : Z) (vf : varr)
    (longest : Z) : option (varr * Z * option split_res) :=
  match n with
  | O => Some (vf, longest, None)
  | S n' =>
      let k0 := k + v0 in
      let? a := vget vf (k0 - 1) in let? b := vget vf (k0 + 1) in
      let s := fwd_start a b in
      let t := s - k in
      let? (s', t') := fsnake x y smax tmax (Z.to_nat (smax - s)) s t in
      let longest := Z.max longest (s' - s) in
      let? vf := vset vf k0 s' in
      if odd && (bmin <=? k) && (k <=? bmax) then
        (let? c := vget vb k0 in
         if s' >=? c then Some (vf, longest, Some (SplitRes s s' t t' true true))
         else fwd_k bmin bmax vb n' (k + 2) vf longest)
      else fwd_k bmin bmax vb n' (k + 2) vf longest
  end.

(** The backward k-loop of iteration [d]. *)
Fixpoint bwd_k (fmin fmax : Z) (vf : varr) (n : nat) (k : Z) (vb : varr)
    (longest : Z) : option (varr * Z * option split_res) :=
  match n with
  | O => Some (vb, longest, None)
  | S n' =>
      let k0 := k + v0 in
      let? a := vget vb (k0 - 1) in let? b := vget vb (k0 + 1) in
      let s := bwd_start a b in
      let t := s - k in
      let? (s', t') := bsnake x y smin tmin (Z.to_nat (s - smin)) s t in
      let longest := Z.max longest (s - s') in
      let? vb := vset vb k0 s' in
      if negb odd && (fmin <=? k) && (k <=? fmax) then
        (let? c := vget vf (v0 + k) in
         if s' <=? c then Some (vb, longest, Some (SplitRes s' s t' t true true))
         else bwd_k fmin fmax vf n' (k + 2) vb longest)
      else bwd_k fmin fmax vf n' (k + 2) vb longest
  end.

(** The [best] candidate of the GOOD_DIAGONAL heuristic: its score [v] and the
    split it stands for. The Go struct starts zeroed. *)
Definition best0 : Z * split_res := (0, SplitRes 0 0 0 0 false false).

(** GOOD_DIAGONAL, "Check forward paths". *)
Fixpoint good_fwd (d : Z) (vf : varr) (n : nat) (k : Z) (best : Z * split_res)
    : option (Z * split_res) :=
  match n with
  | O => Some best
  | S n' =>
      let k0 := k + v0 in
      let? s := vget vf k0 in
      let t := s - k in
      let v := (s - smin) + (t - tmin) - Z.max (fmid - d) (d - fmid) in
      if (s <? smin) || (smax <=? s) || (t <? tmin) || (tmax <=? t) then
        good_fwd d vf n' (k + 2) best
      else if (v <=? goodDiagMagic * d) || (v <? best.1) then
        good_fwd d vf n' (k + 2) best
      else
        let? a := vget vf (k0 - 1) in let? b := vget vf (k0 + 1) in
        let pk := if a <? b then k + 1 else k - 1 in
        let? ps := vget vf (pk + v0) in
        let pt := ps - pk in
        let diag := Z.min (s - ps) (t - pt) in
        if diag <? goodDiagMinLen then
          good_fwd d vf n' (k + 2) (v, SplitRes (s - diag) s (t - diag) t true false)
        else good_fwd d vf n' (k + 2) best
  end.

(** GOOD_DIAGONAL, "Check backward paths". *)
Fixpoint good_bwd (d : Z) (vb : varr) (n : nat) (k : Z) (best : Z * split_res)
    : option (Z * split_res) :=
  match n with
  | O => Some best
  | S n' =>
      let k0 := k + v0 in
      let? s := vget vb k0 in
      let t := s - k in
      if (s <? smin) || (smax <=? s) || (t <? tmin) || (tmax <=? t) then
        good_bwd d vb n' (k + 2) best
      else
        let v := (smax - s) + (tmax - t) - Z.max (bmid - d) (d - bmid) in
        if (v <=? goodDiagMagic * d) || (v <? best.1) then
          good_bwd d vb n' (k + 2) best
        else
          let? a := vget vb (k0 - 1) in let? b := vget vb (k0 + 1) in
          let pk := if a <? b then k - 1 else k + 1 in
          let? ps := vget vb (pk + v0) in
          let pt := ps - pk in
          let diag := Z.min (ps - s) (pt - t) in
          if goodDiagMinLen <=? diag then
            good_bwd d vb n' (k + 2) (v, SplitRes s (s + diag) t (t + diag) false true)
          else good_bwd d vb n' (k + 2) best
  end.

(** TOO_EXPENSIVE: the forward endpoint maximising [s+t]. *)
Fixpoint fbest_loop (vf : varr) (n : nat) (k : Z) (fbest fbestk : Z)
    : option (Z * Z) :=
  match n with
  | O => Some (fbest, fbestk)
  | S n' =>
      let? s := vget vf (k + v0) in
      let t := s - k in
      if (smin <=? s) && (s <? smax) && (tmin <=? t) && (t <? tmax) && (fbest <? s + t)
      then fbest_loop vf n' (k + 2) (s + t) k
      else fbest_loop vf n' (k + 2) fbest fbestk
  end.

(** TOO_EXPENSIVE: the backward endpoint minimising [s+t]. *)
Fixpoint bbest_loop (vb : varr) (n : nat) (k : Z) (bbest bbestk : Z)
    : option (Z * Z) :=
  match n with
  | O => Some (bbest, bbestk)
  | S n' =>
      let? s := vget vb (k + v0) in
      let t := s - k in
      if (smin <=? s) && (s <? smax) && (tmin <=? t) && (t <? tmax) && (s + t <? bbest)
      then bbest_loop vb n' (k + 2) (s + t) k
      else bbest_loop vb n' (k + 2) bbest bbestk
  end.

Definition too_expensive (fmin fmax bmin bmax : Z) (vf vb : varr)
    : option split_res :=
  let? (fbest, fbestk) := fbest_loop vf (kiters fmin fmax) fmin MinInt MinInt in
  let? (bbest, bbestk) := bbest_loop vb (kiters bmin bmax) bmin MaxInt MaxInt in
  if negb (fbest =? MinInt) && ((smax + tmax) - bbest <? fbest - (smin + tmin)) then
    let k := fbestk in
    let k0 := k + v0 in
    let? s := vget vf k0 in
    let t := s - k in
    let? a := vget vf (k0 - 1) in let? b := vget vf (k0 + 1) in
    let pk := if a <? b then k + 1 else k - 1 in
    let? ps := vget vf (pk + v0) in
    let pt := ps - pk in
    let diag := Z.min (s - ps) (t - pt) in
    Some (SplitRes (s - diag) s (t - diag) t true false)
  else if negb (bbest =? MaxInt) then
    let k := bbestk in
    let k0 := k + v0 in
    let? s := vget vb k0 in
    let t := s - k in
    let? a := vget vb (k0 - 1) in let? b := vget vb (k0 + 1) in
    let pk := if a <? b then k - 1 else k + 1 in
    let? ps := vget vb (pk + v0) in
    let pt := ps - pk in
    let diag := Z.min (ps - s) (pt - t) in
    Some (SplitRes s (s + diag) t (t + diag) false true)
  else None (* panic("no best path found") *).

(** One iteration of [for d := 1; ; d++] and the ones after it. *)
Fixpoint split_loop (fuel : nat) (d fmin fmax bmin bmax : Z) (vf vb : varr)
    : option (varr * varr * split_res) :=
  match fuel with
  | O => None
  | S fuel' =>
      let? (fmin, vf) := (if kmin <? fmin then
                        let? vf := vset vf (v0 + (fmin - 1) - 1) MinInt in Some (fmin - 1, vf)
                      else Some (fmin + 1, vf)) in
      let? (fmax, vf) := (if fmax <? kmax then
                        let? vf := vset vf (v0 + (fmax + 1) + 1) MinInt in Some (fmax + 1, vf)
                      else Some (fmax - 1, vf)) in
      let? (vf, longest, r) := fwd_k bmin bmax vb (kiters fmin fmax) fmin vf 0 in
      match r with
      | Some res => Some (vf, vb, res)
      | None =>
      let? (bmin, vb) := (if kmin <? bmin then
                        let? vb := vset vb (v0 + (bmin - 1) - 1) MaxInt in Some (bmin - 1, vb)
                      else Some (bmin + 1, vb)) in
      let? (bmax, vb) := (if bmax <? kmax then
                        let? vb := vset vb (v0 + (bmax + 1) + 1) MaxInt in Some (bmax + 1, vb)
                      else Some (bmax - 1, vb)) in
      let? (vb, longest, r) := bwd_k fmin fmax vf (kiters bmin bmax) bmin vb longest in
      match r with
      | Some res => Some (vf, vb, res)
      | None =>
      if optimal then split_loop fuel' (d + 1) fmin fmax bmin bmax vf vb else
      let? best := (if (goodDiagMinLen <=? longest) && (goodDiagCostLimit <=? d) then
                let? b := good_fwd d vf (kiters fmin fmax) fmin best0 in
                good_bwd d vb (kiters bmin bmax) bmin b
              else Some best0) in
      if (goodDiagMinLen <=? longest) && (goodDiagCostLimit <=? d) && (0 <? best.1)
      then Some (vf, vb, best.2)
      else if costLimit <=? d then
        let? res := too_expensive fmin fmax bmin bmax vf vb in Some (vf, vb, res)
      else split_loop fuel' (d + 1) fmin fmax bmin bmax vf vb
      end
      end
  end.

(** [split]: the first iteration [d = 0] is set up by hand. *)
Definition split (fuel : nat) (vf vb : varr) : option (varr * varr * split_res) :=
  let? vf := vset vf (v0 + fmid) smin in
  let? vb := vset vb (v0 + bmid) smax in
  split_loop fuel 1 fmid fmid bmid bmid vf vb.

End Split.
End Myers.

Section Engine.
Context {T : Type} (eq : T -> T -> bool).

(** Strip common prefix: [for smin < smax && tmin < tmax && eq(x[smin], y[tmin])]. *)
Fixpoint strip_prefix (x y : list T) (fuel : nat) (smin smax tmin tmax : Z)
    : option (Z * Z) :=
  match fuel with
  | O => Some (smin, tmin)
  | S f =>
      if (smin <? smax) && (tmin <? tmax) then
        (let? b := eqat eq x y smin tmin in
         if b then strip_prefix x y f (smin + 1) smax (tmin + 1) tmax
         else Some (smin, tmin))
      else Some (smin, tmin)
  end.

(** Strip common suffix: [for smax > smin && tmax > tmin && eq(x[smax-1], y[tmax-1])]. *)
Fixpoint strip_suffix (x y : list T) (fuel : nat) (smin smax tmin tmax : Z)
    : option (Z * Z) :=
  match fuel with
  | O => Some (smax, tmax)
  | S f =>
      if (smin <? smax) && (tmin <? tmax) then
        (let? b := eqat eq x y (smax - 1) (tmax - 1) in
         if b then strip_suffix x y f smin (smax - 1) tmin (tmax - 1)
         else Some (smax, tmax))
      else Some (smax, tmax)
  end.

(** [findChangeBoundsFunc] (and [findChangeBounds] for [eq] being [==]). *)
Definition findChangeBounds (x y : list T) : option (Z * Z * Z * Z) :=
  let? (smin, tmin) := strip_prefix x y (length x) 0 (zlen x) 0 (zlen y) in
  let? (smax, tmax) := strip_suffix x y (length x) smin (zlen x) tmin (zlen y) in
  Some (smin, smax, tmin, tmax).

(** [for i := diagonals; i != 0; i >>= 2 { costLimit <<= 1 }]; a Go int has
    64 bits, so 64 rounds are more than enough. *)
Fixpoint cost_loop (fuel : nat) (i c : Z) : Z :=
  match fuel with
  | O => c
  | S f => if i =? 0 then c else cost_loop f (Z.shiftr i 2) (Z.shiftl c 1)
  end.

Definition iota_z (n : nat) : list Z := map Z.of_nat (seq 0 n).

(** [myers.init]: [xidx]/[yidx] and [rx]/[ry] are [None] when the Go fields
    are nil. It returns the new state and the window without common prefix
    and suffix. *)
Definition init (x y : list T) (xidx yidx : option (list Z))
    (rxy : option (list bool * list bool)) : option (@myers T * (Z * Z * Z * Z)) :=
  let? (smin, smax, tmin, tmax) := findChangeBounds x y in
  let N := smax - smin in
  let M := tmax - tmin in
  let diagonals := N + M in
  let vlen := 2 * diagonals + 3 in
  let costLimit := cost_loop 64 diagonals 1 in
  let '(xidx, yidx) :=
    match xidx, yidx with
    | Some xi, Some yi => (xi, yi)
    | _, _ =>
        let idx := iota_z (Nat.max (length x) (length y)) in
        (take (length x) idx, take (length y) idx)
    end in
  let '(rx, ry) :=
    match rxy with
    | Some r => r
    | None => (repeat false (length x + 1), repeat false (length y + 1))
    end in
  Some (Myers x y (vmake vlen) (vmake vlen) (diagonals + 1)
          (Z.max minCostLimit costLimit) xidx yidx rx ry,
        (smin, smax, tmin, tmax)).

(** [for t := tmin; t < tmax; t++ { r[idx[t]] = true }] *)
Fixpoint mark (idx : list Z) (r : list bool) (n : nat) (t : Z) : option (list bool) :=
  match n with
  | O => Some r
  | S n' => let? i := sget idx t in let? r := sset r i true in mark idx r n' (t + 1)
  end.

Definition with_v (m : @myers T) (vf vb : varr) : @myers T :=
  Myers (m_x m) (m_y m) vf vb (m_v0 m) (m_costLimit m) (m_xidx m) (m_yidx m)
        (m_rx m) (m_ry m).
Definition with_rx (m : @myers T) (rx : list bool) : @myers T :=
  Myers (m_x m) (m_y m) (m_vf m) (m_vb m) (m_v0 m) (m_costLimit m) (m_xidx m)
        (m_yidx m) rx (m_ry m).
Definition with_ry (m : @myers T) (ry : list bool) : @myers T :=
  Myers (m_x m) (m_y m) (m_vf m) (m_vb m) (m_v0 m) (m_costLimit m) (m_xidx m)
        (m_yidx m) (m_rx m) ry.

(** Fuel of the [d]-loop of one [split] call. *)
Definition split_fuel (smin smax tmin tmax : Z) : nat :=
  S (Z.to_nat ((smax - smin) + (tmax - tmin))).

(** [myers.compare]; the recursion is given a fuel. *)
Fixpoint compare (fuel : nat) (m : @myers T) (smin smax tmin tmax : Z)
    (optimal : bool) : option (@myers T) :=
  match fuel with
  | O => None
  | S f =>
      if smin =? smax then
        let? ry := mark (m_yidx m) (m_ry m) (Z.to_nat (tmax - tmin)) tmin in
        Some (with_ry m ry)
      else if tmin =? tmax then
        let? rx := mark (m_xidx m) (m_rx m) (Z.to_nat (smax - smin)) smin in
        Some (with_rx m rx)
      else
        let? (vf, vb, r) := split eq (m_x m) (m_y m) (m_v0 m) (m_costLimit m)
                              smin smax tmin tmax optimal
                              (split_fuel smin smax tmin tmax) (m_vf m) (m_vb m) in
        let? m := compare f (with_v m vf vb) smin (r_s0 r) tmin (r_t0 r) (r_opt0 r) in
        compare f m (r_s1 r) smax (r_t1 r) tmax (r_opt1 r)
  end.

Definition compare_fuel (smin smax tmin tmax : Z) : nat :=
  S (Z.to_nat ((smax - smin) + (tmax - tmin))).

End Engine.

(** [rvecs.Make] *)
Definition rvecs_make {A B} (x : list A) (y : list B) : list bool * list bool :=
  (repeat false (length x + 1), repeat false (length y + 1)).

(** [handleTrivialBounds]: [None] for a panic, otherwise whether the bounds
    were trivial and the result vectors. *)
Definition handleTrivialBounds (rx ry : list bool) (smin smax tmin tmax : Z)
    : option (bool * list bool * list bool) :=
  if negb (smin =? smax) && (tmin =? tmax) then
    let? rx := mark (iota_z (length rx)) rx (Z.to_nat (smax - smin)) smin in
    Some (true, rx, ry)
  else if (smin =? smax) && negb (tmin =? tmax) then
    let? ry := mark (iota_z (length ry)) ry (Z.to_nat (tmax - tmin)) tmin in
    Some (true, rx, ry)
  else if (smin =? smax) && (tmin =? tmax) then Some (true, rx, ry)
  else Some (false, rx, ry).

(** ** Configuration, [internal/config] *)

Inductive Mode := ModeDefault | ModeMinimal | ModeFast.

Definition mode_eqb (a b : Mode) : bool :=
  match a, b with
  | ModeDefault, ModeDefault | ModeMinimal, ModeMinimal | ModeFast, ModeFast => true
  | _, _ => false
  end.

Record Config := MkConfig {
  Context : Z;
  CMode : Mode;
  IndentHeuristic : bool;
  ForceAnchoringHeuristic : bool }.

Definition config_Default : Config := MkConfig 3 ModeDefault false false.

(** ** The diff driver, [internal/impl/api.go] *)

Section Driver.
Context {T : Type} `{Countable T}.

(** Go's [==] on a comparable type whose [==] is an equality: the integer
    types, strings, and structs of them such as [ByteView]. Floating-point
    elements (where [NaN != NaN]) and interface values are outside this
    model. *)
Definition teq (a b : T) : bool := bool_decide (a = b).

(** [preprocess], step 1: an ID per distinct element of [x[smin:smax]] and
    the saturating counts of its occurrences in [x]. [x0] is accumulated in
    reverse. *)
Fixpoint pp_step1 (xs : list T) (idx : gmap T Z) (counts : list Z) (x0r : list Z)
    : option (gmap T Z * list Z * list Z) :=
  match xs with
  | [] => Some (idx, counts, x0r)
  | e :: xs =>
      let '(id, idx) :=
        match idx !! e with
        | Some id => (id, idx)
        | None => (Z.of_nat (size idx), <[e := Z.of_nat (size idx)]> idx)
        end in
      let? c := sget counts id in
      let? counts := (if c <? 2 then sset counts id (c + 1) else Some counts) in
      pp_step1 xs idx counts (id :: x0r)
  end.

(** Step 2: elements of [y[tmin:tmax]] absent from [x] are insertions; the
    others are counted in steps of 4. *)
Fixpoint pp_step2 (ys : list T) (t : Z) (idx : gmap T Z) (counts : list Z)
    (ry : list bool) (yidxr y0r : list Z)
    : option (list Z * list bool * list Z * list Z) :=
  match ys with
  | [] => Some (counts, ry, yidxr, y0r)
  | e :: ys =>
      match idx !! e with
      | None =>
          let? ry := sset ry t true in
          pp_step2 ys (t + 1) idx counts ry yidxr y0r
      | Some id =>
          let? c := sget counts id in
          let? counts := (if c <? 8 then sset counts id (c + 4) else Some counts) in
          pp_step2 ys (t + 1) idx counts ry (t :: yidxr) (id :: y0r)
      end
  end.

(** Step 3: elements of [x0] absent from [y] are deletions; the others are
    kept (Go compacts [x0] in place) and the anchors are counted. *)
Fixpoint pp_step3 (x0 : list Z) (s : Z) (counts : list Z) (rx : list bool)
    (xidxr x0r : list Z) (nanchors : Z)
    : option (list bool * list Z * list Z * Z) :=
  match x0 with
  | [] => Some (rx, xidxr, x0r, nanchors)
  | e :: x0 =>
      let? c := sget counts e in
      if 4 <? c then
        pp_step3 x0 (s + 1) counts rx (s :: xidxr) (e :: x0r)
          (if c =? 1 + 4 then nanchors + 1 else nanchors)
      else
        let? rx := sset rx s true in
        pp_step3 x0 (s + 1) counts rx xidxr x0r nanchors
  end.

Record prep := Prep {
  p_x0 : list Z; p_y0 : list Z; p_xidx : list Z; p_yidx : list Z;
  p_counts : list Z; p_nanchors : Z; p_rx : list bool; p_ry : list bool }.

Definition preprocess (rx ry : list bool) (smin smax tmin tmax : Z) (x y : list T)
    : option prep :=
  let? (idx, counts, x0r) :=
    pp_step1 (slice x smin smax) ∅ (repeat 0 (Z.to_nat (smax - smin))) [] in
  let? (counts, ry, yidxr, y0r) := pp_step2 (slice y tmin tmax) tmin idx counts ry [] [] in
  let? (rx, xidxr, x0r, nanchors) := pp_step3 (rev x0r) smin counts rx [] [] 0 in
  Some (Prep (rev x0r) (rev y0r) (rev xidxr) (rev yidxr) counts nanchors rx ry).

End Driver.

(** [sort.Search(n, f)]: the binary search of Go's standard library. *)
Fixpoint search_loop (fuel : nat) (f : Z -> option bool) (i j : Z) : option Z :=
  match fuel with
  | O => Some i
  | S fuel' =>
      if i <? j then
        let h := Z.shiftr (i + j) 1 in
        let? b := f h in
        if negb b then search_loop fuel' f (h + 1) j else search_loop fuel' f i h
      else Some i
  end.

Definition sort_Search (n : Z) (f : Z -> option bool) : option Z :=
  search_loop (S (Z.to_nat n)) f 0 n.

(** [segments], gathering: [yi] and the rank map [idx] of the anchors of [y]. *)
Fixpoint seg_y (ys : list Z) (t : Z) (counts : list Z) (idx : gmap Z Z) (yi : list Z)
    : option (gmap Z Z * list Z) :=
  match ys with
  | [] => Some (idx, yi)
  | e :: ys =>
      let? c := sget counts e in
      if c =? 1 + 4 then seg_y ys (t + 1) counts (<[e := zlen yi]> idx) (yi ++ [t])
      else seg_y ys (t + 1) counts idx yi
  end.

(** [xi] and [inv] of the anchors of [x]; a missing key of a Go map reads 0. *)
Fixpoint seg_x (xs : list Z) (s : Z) (counts : list Z) (idx : gmap Z Z)
    (xi inv : list Z) : option (list Z * list Z) :=
  match xs with
  | [] => Some (xi, inv)
  | e :: xs =>
      let? c := sget counts e in
      if c =? 1 + 4 then seg_x xs (s + 1) counts idx (xi ++ [s]) (inv ++ [default 0 (idx !! e)])
      else seg_x xs (s + 1) counts idx xi inv
  end.

(** Szymanski's Algorithm A: [T] and [L]. *)
Fixpoint tgs_loop (J : list Z) (i n : Z) (Ta L : list Z) : option (list Z * list Z) :=
  match J with
  | [] => Some (Ta, L)
  | ji :: J' =>
      let? k := sort_Search n (fun k => let? tk := sget Ta k in Some (ji <=? tk)) in
      let? Ta := sset Ta k ji in
      let? L := sset L i (k + 1) in
      tgs_loop J' (i + 1) n Ta L
  end.

(** The reconstruction loop [for i := n - 1; i >= 0; i--]. *)
Fixpoint tgs_back (fuel : nat) (i : Z) (J L xi yi : list Z) (k lastj : Z)
    (anchors : list (Z * Z)) : option (list (Z * Z)) :=
  match fuel with
  | O => Some anchors
  | S f =>
      let? li := sget L i in
      let? ji := sget J i in
      if (li =? k) && (ji <? lastj) then
        let? a := sget xi i in
        let? b := sget yi ji in
        let? anchors := sset anchors k (a, b) in
        tgs_back f (i - 1) J L xi yi (k - 1) lastj anchors
      else tgs_back f (i - 1) J L xi yi k lastj anchors
  end.

Definition segments (smin smax tmin tmax nanchors : Z) (counts x y : list Z)
    : option (list (Z * Z)) :=
  let? (idx, yi) := seg_y (slice y tmin tmax) tmin counts ∅ [] in
  let? (xi, inv) := seg_x (slice x smin smax) smin counts idx [] [] in
  let J := inv in
  let n := zlen xi in
  let? (Ta, L) := tgs_loop J 0 n (repeat (n + 1) (Z.to_nat n)) (repeat 0 (Z.to_nat n)) in
  let k := foldl Z.max 0 L in
  let? anchors := sset (repeat (0, 0) (Z.to_nat (2 + k))) (1 + k) (smax, tmax) in
  let? anchors := tgs_back (Z.to_nat n) (n - 1) J L xi yi k n anchors in
  sset anchors 0 (smin, tmin).

(** The [myersInt] engine: [myers[int]] with [==] on ints. *)
Abbreviation myersInt := (@myers Z).

Definition diffMinimal (rx ry : list bool) (x0 y0 xidx yidx : list Z)
    : option (list bool * list bool) :=
  let? (m, (smin0, smax0, tmin0, tmax0)) :=
    init Z.eqb x0 y0 (Some xidx) (Some yidx) (Some (rx, ry)) in
  let? m := compare Z.eqb (compare_fuel smin0 smax0 tmin0 tmax0) m smin0 smax0 tmin0 tmax0 true in
  Some (m_rx m, m_ry m).

(** The condition of the ANCHORING heuristic in [diffDefault]. *)
Definition anchoring_cond (nanchors smin0 smax0 tmin0 tmax0 : Z) : bool :=
  (0 <? nanchors) && (anchoringHeuristicMinInputLen <? (smax0 - smin0) + (tmax0 - tmin0)).

(** The loop over the anchors of [diffDefault]. *)
Fixpoint default_anchor_loop (m : myersInt) (x0 y0 : list Z) (smax0 tmax0 : Z)
    (anchors : list (Z * Z)) (done : Z * Z) : option myersInt :=
  match anchors with
  | [] => Some m
  | anchor :: rest =>
      if anchor.1 <? done.1 then default_anchor_loop m x0 y0 smax0 tmax0 rest done
      else
        let? start := bsnake Z.eqb x0 y0 done.1 done.2 (Z.to_nat (anchor.1 - done.1))
                        anchor.1 anchor.2 in
        let? end_ := fsnake Z.eqb x0 y0 smax0 tmax0 (Z.to_nat (smax0 - anchor.1))
                       anchor.1 anchor.2 in
        let? m := compare Z.eqb (compare_fuel done.1 start.1 done.2 start.2) m
                    done.1 start.1 done.2 start.2 false in
        if (smax0 <=? end_.1) && (tmax0 <=? end_.2) then Some m
        else default_anchor_loop m x0 y0 smax0 tmax0 rest end_
  end.

Definition diffDefault (rx ry : list bool) (x0 y0 xidx yidx counts : list Z)
    (nanchors : Z) (forceAnchoring : bool) : option (list bool * list bool) :=
  let? (m, (smin0, smax0, tmin0, tmax0)) :=
    init Z.eqb x0 y0 (Some xidx) (Some yidx) (Some (rx, ry)) in
  let anchoring := anchoring_cond nanchors smin0 smax0 tmin0 tmax0 in
  if anchoring || forceAnchoring then
    let? segs := segments smin0 smax0 tmin0 tmax0 nanchors counts x0 y0 in
    match segs with
    | [] => None
    | done :: rest =>
        let? m := default_anchor_loop m x0 y0 smax0 tmax0 rest done in
        Some (m_rx m, m_ry m)
    end
  else
    let? m := compare Z.eqb (compare_fuel smin0 smax0 tmin0 tmax0) m
                smin0 smax0 tmin0 tmax0 false in
    Some (m_rx m, m_ry m).

(** The loop over the anchors of [diffFast]. *)
Fixpoint fast_anchor_loop (rx ry : list bool) (x0 y0 xidx yidx : list Z)
    (smax0 tmax0 : Z) (anchors : list (Z * Z)) (done : Z * Z)
    : option (list bool * list bool) :=
  match anchors with
  | [] => Some (rx, ry)
  | anchor :: rest =>
      if anchor.1 <? done.1 then fast_anchor_loop rx ry x0 y0 xidx yidx smax0 tmax0 rest done
      else
        let? start := bsnake Z.eqb x0 y0 done.1 done.2 (Z.to_nat (anchor.1 - done.1))
                        anchor.1 anchor.2 in
        let? end_ := fsnake Z.eqb x0 y0 smax0 tmax0 (Z.to_nat (smax0 - anchor.1))
                       anchor.1 anchor.2 in
        let? rx := mark xidx rx (Z.to_nat (start.1 - done.1)) done.1 in
        let? ry := mark yidx ry (Z.to_nat (start.2 - done.2)) done.2 in
        if (smax0 <=? end_.1) && (tmax0 <=? end_.2) then Some (rx, ry)
        else fast_anchor_loop rx ry x0 y0 xidx yidx smax0 tmax0 rest end_
  end.

Definition diffFast (rx ry : list bool) (x0 y0 xidx yidx counts : list Z)
    (nanchors : Z) : option (list bool * list bool) :=
  let? (smin0, smax0, tmin0, tmax0) := findChangeBounds Z.eqb x0 y0 in
  let? segs := segments smin0 smax0 tmin0 tmax0 nanchors counts x0 y0 in
  match segs with
  | [] => None
  | done :: rest => fast_anchor_loop rx ry x0 y0 xidx yidx smax0 tmax0 rest done
  end.

Section Diff.
Context {T : Type} `{Countable T}.

(** The part of [Diff] before the mode dispatch: [inl] for trivial bounds,
    otherwise the output of [preprocess]. *)
Definition diff_prep (x y : list T) : option ((list bool * list bool) + prep) :=
  let '(rx, ry) := rvecs_make x y in
  let? (smin, smax, tmin, tmax) := findChangeBounds teq x y in
  let? (triv, rx, ry) := handleTrivialBounds rx ry smin smax tmin tmax in
  if triv then Some (inl (rx, ry))
  else let? p := preprocess rx ry smin smax tmin tmax x y in Some (inr p).

(** [impl.Diff] *)
Definition Diff (x y : list T) (cfg : Config) : option (list bool * list bool) :=
  let? p := diff_prep x y in
  match p with
  | inl r => Some r
  | inr p =>
      match CMode cfg with
      | ModeMinimal => diffMinimal (p_rx p) (p_ry p) (p_x0 p) (p_y0 p) (p_xidx p) (p_yidx p)
      | ModeDefault =>
          diffDefault (p_rx p) (p_ry p) (p_x0 p) (p_y0 p) (p_xidx p) (p_yidx p)
            (p_counts p) (p_nanchors p) (ForceAnchoringHeuristic cfg)
      | ModeFast =>
          diffFast (p_rx p) (p_ry p) (p_x0 p) (p_y0 p) (p_xidx p) (p_yidx p)
            (p_counts p) (p_nanchors p)
      end
  end.

(** Whether [diffDefault] takes the ANCHORING branch on [x], [y]: [None] when
    the bounds are trivial (the driver returns before [diffDefault]). *)
Definition default_anchoring (x y : list T) (forceAnchoring : bool) : option bool :=
  let? p := diff_prep x y in
  match p with
  | inl _ => None
  | inr p =>
      let? (m, (smin0, smax0, tmin0, tmax0)) :=
        init Z.eqb (p_x0 p) (p_y0 p) (Some (p_xidx p)) (Some (p_yidx p))
          (Some (p_rx p, p_ry p)) in
      Some (anchoring_cond (p_nanchors p) smin0 smax0 tmin0 tmax0 || forceAnchoring)
  end.

End Diff.

(** ** Edits, [diff.go] *)

Inductive Op := Match | Delete | Insert.

(** [Edit[T]]: the field that is unset holds the zero value of [T]. *)
Record Edit (T : Type) := MkEdit { op : Op; eX : T; eY : T }.
Arguments MkEdit {T}.
Arguments op {T}.
Arguments eX {T}.
Arguments eY {T}.

Section Edits.
Context {T : Type} (zero : T).
Variables (x y : list T) (rx ry : list bool) (n m : Z).

(** [for s < n && rx[s] { eout = append(eout, Edit{Op: Delete, X: x[s]}); s++ }] *)
Fixpoint del_run (fuel : nat) (s : Z) : option (Z * list (Edit T)) :=
  match fuel with
  | O => Some (s, [])
  | S f =>
      if s <? n then
        let? b := sget rx s in
        if b then
          let? a := sget x s in
          let? (s', es) := del_run f (s + 1) in Some (s', MkEdit Delete a zero :: es)
        else Some (s, [])
      else Some (s, [])
  end.

Fixpoint ins_run (fuel : nat) (t : Z) : option (Z * list (Edit T)) :=
  match fuel with
  | O => Some (t, [])
  | S f =>
      if t <? m then
        let? b := sget ry t in
        if b then
          let? a := sget y t in
          let? (t', es) := ins_run f (t + 1) in Some (t', MkEdit Insert zero a :: es)
        else Some (t, [])
      else Some (t, [])
  end.

(** [for s < n && t < m && !rx[s] && !ry[t] { ... Match ...; s++; t++ }] *)
Fixpoint match_run (fuel : nat) (s t : Z) : option (Z * Z * list (Edit T)) :=
  match fuel with
  | O => Some (s, t, [])
  | S f =>
      if (s <? n) && (t <? m) then
        let? bx := sget rx s in
        if bx then Some (s, t, []) else
        let? bY := sget ry t in
        if bY then Some (s, t, []) else
        let? a := sget x s in
        let? b := sget y t in
        let? (st', es) := match_run f (s + 1) (t + 1) in Some (st', MkEdit Match a b :: es)
      else Some (s, t, [])
  end.

(** [for s, t := 0, 0; s < n || t < m; ] with its three inner loops. The loop
    does not end when none of the inner loops advances; the fuel [n + m + 1]
    covers every run in which each round advances. *)
Fixpoint edits_loop (fuel : nat) (s t : Z) : option (list (Edit T)) :=
  match fuel with
  | O => None
  | S f =>
      if (s <? n) || (t <? m) then
        let? (s, e1) := del_run (Z.to_nat (n - s)) s in
        let? (t, e2) := ins_run (Z.to_nat (m - t)) t in
        let? (s, t, e3) := match_run (Z.to_nat (n - s)) s t in
        let? rest := edits_loop f s t in
        Some (e1 ++ e2 ++ e3 ++ rest)
      else Some []
  end.

End Edits.

(** [edits(x, y, rx, ry)]; a result of length zero is Go's nil. *)
Definition edits {T} (zero : T) (x y : list T) (rx ry : list bool) : option (list (Edit T)) :=
  let n := zlen rx - 1 in
  let m := zlen ry - 1 in
  edits_loop zero x y rx ry n m (S (Z.to_nat (n + m))) 0 0.

(** ** Options, [internal/config] and [options.go] *)

Definition Flag := Z.
Definition flag_Context : Flag := 1.
Definition flag_Minimal : Flag := 2.
Definition flag_Fast : Flag := 4.
Definition flag_IndentHeuristic : Flag := 8.

(** [type Option func(cfg *Config) Flag]: an option updates the configuration
    and reports which flag it sets. *)
Definition Option := Config -> Config * Flag.

Definition set_Context (c : Config) (n : Z) : Config :=
  MkConfig n (CMode c) (IndentHeuristic c) (ForceAnchoringHeuristic c).
Definition set_Mode (c : Config) (md : Mode) : Config :=
  MkConfig (Context c) md (IndentHeuristic c) (ForceAnchoringHeuristic c).
Definition set_IndentHeuristic (c : Config) (b : bool) : Config :=
  MkConfig (Context c) (CMode c) b (ForceAnchoringHeuristic c).
Definition set_ForceAnchoring (c : Config) (b : bool) : Config :=
  MkConfig (Context c) (CMode c) (IndentHeuristic c) b.

(** [diff.Context(n)] *)
Definition opt_Context (n : Z) : Option := fun cfg => (set_Context cfg (Z.max 0 n), flag_Context).
(** [diff.Optimal()]: the mode that [config.go] calls [ModeMinimal]. *)
Definition opt_Optimal : Option := fun cfg => (set_Mode cfg ModeMinimal, flag_Minimal).
(** [diff.Fast()] *)
Definition opt_Fast : Option := fun cfg => (set_Mode cfg ModeFast, flag_Fast).
(** [textdiff.IndentHeuristic()] *)
Definition opt_IndentHeuristic : Option := fun cfg => (set_IndentHeuristic cfg true, flag_IndentHeuristic).

(** [printFlag]: [None] is its [panic("never reached")]. *)
Definition printFlag (f : Flag) : option string :=
  if f =? flag_Context then Some "diff.Context"%string
  else if f =? flag_Minimal then Some "diff.Minimal"%string
  else if f =? flag_Fast then Some "diff.Fast"%string
  else if f =? flag_IndentHeuristic then Some "textdiff.IndentHeuristic"%string
  else None.

(** [FromOptions]: [inr msg] is a panic with message [msg]. *)
Fixpoint from_options (opts : list Option) (allowed : Flag) (cfg : Config)
    : Config + string :=
  match opts with
  | [] =>
      if negb (mode_eqb (CMode cfg) ModeDefault) && ForceAnchoringHeuristic cfg then
        inr "ForceAnchoringHeuristic may only be set for ModeDefault"%string
      else inl cfg
  | opt :: opts =>
      let '(cfg, flag) := opt cfg in
      if negb (Z.land flag (Z.lnot allowed) =? 0) then
        match printFlag flag with
        | Some name => inr ("Option " ++ name ++ " not allowed here")%string
        | None => inr "never reached"%string
        end
      else from_options opts allowed cfg
  end.

Definition FromOptions (opts : list Option) (allowed : Flag) : Config + string :=
  from_options opts allowed config_Default.

(** [diff.Edits]: [None] when it panics or does not return. *)
Definition Edits {T} `{Countable T} (zero : T) (x y : list T) (opts : list Option)
    : option (list (Edit T)) :=
  match FromOptions opts flag_Minimal with
  | inr _ => None
  | inl cfg => let? (rx, ry) := Diff x y cfg in edits zero x y rx ry
  end.

(** ** The hunk grouper, [internal/rvecs] *)

Module rvecs.

(** [rvecs.Hunk] *)
Record Hunk := MkHunk { S0 : Z; S1 : Z; T0 : Z; T1 : Z; Edits : Z }.

Section Hunks.
Variables (rx ry : list bool) (context : Z).

Definition n : Z := zlen rx - 1.
Definition m : Z := zlen ry - 1.

(** [for i < lim && r[i] { i++ }]: the index reached. *)
Fixpoint true_run (r : list bool) (lim : Z) (fuel : nat) (i : Z) : option Z :=
  match fuel with
  | O => Some i
  | S f =>
      if i <? lim then
        let? b := sget r i in if b then true_run r lim f (i + 1) else Some i
      else Some i
  end.

(** [for s < n && t < m && !rx[s] && !ry[t] { s++; t++ }]: the number of steps. *)
Fixpoint false_run (fuel : nat) (s t : Z) : option Z :=
  match fuel with
  | O => Some 0
  | S f =>
      if (s <? n) && (t <? m) then
        let? bx := sget rx s in
        if bx then Some 0 else
        let? bY := sget ry t in
        if bY then Some 0 else
        let? k := false_run f (s + 1) (t + 1) in Some (k + 1)
      else Some 0
  end.

(** [rx[s] || ry[t]], with Go's short-circuit. *)
Definition is_edit (s t : Z) : option bool :=
  let? bx := sget rx s in if bx then Some true else sget ry t.

(** One round of the loop body before the closing test; it returns the new
    [s, t, s0, t0, d, run]. *)
Definition hunks_step (s t s0 t0 d run : Z) : option (Z * Z * Z * Z * Z * Z) :=
  let? e := is_edit s t in
  if e then
    let '(s0, t0, d) :=
      if s0 <? 0 then (Z.max 0 (s - context), Z.max 0 (t - context), s - Z.max 0 (s - context))
      else (s0, t0, d) in
    let? s' := true_run rx n (Z.to_nat (n - s)) s in
    let? t' := true_run ry m (Z.to_nat (m - t)) t in
    Some (s', t', s0, t0, d + (s' - s) + (t' - t), 0)
  else
    let? k := false_run (Z.to_nat (n - s)) s t in
    Some (s + k, t + k, s0, t0, d + k, run + k).

(** [for s < n || t < m { ... }] collecting every yielded hunk; the loop does
    not end when a round does not advance, and the fuel [n + m + 1] covers
    every run in which each round advances. *)
Fixpoint hunks_loop (fuel : nat) (s t s0 t0 d run : Z) : option (list Hunk) :=
  match fuel with
  | O => None
  | S f =>
      if (s <? n) || (t <? m) then
        let? (s, t, s0, t0, d, run) := hunks_step s t s0 t0 d run in
        if (0 <=? s0) && ((2 * context <? run) || (s =? n) && (t =? m)) then
          let D := Z.min 0 (- run + context) in
          let? rest := hunks_loop f s t (-1) (-1) d run in
          Some (MkHunk s0 (s + D) t0 (t + D) (d + D) :: rest)
        else hunks_loop f s t s0 t0 d run
      else Some []
  end.

End Hunks.

(** [rvecs.Hunks(rx, ry, cfg)], as the list of hunks it yields. *)
Definition Hunks (rx ry : list bool) (cfg : Config) : option (list Hunk) :=
  hunks_loop rx ry (Context cfg) (S (Z.to_nat (n rx + m ry))) 0 0 (-1) (-1) 0 0.

End rvecs.

(** [diff.Hunk[T]]; the field [Edits] is named [HEdits] here. *)
Record Hunk (T : Type) := MkHunk {
  PosX : Z; EndX : Z; PosY : Z; EndY : Z; HEdits : list (Edit T) }.
Arguments MkHunk {T}.
Arguments PosX {T}.
Arguments EndX {T}.
Arguments PosY {T}.
Arguments EndY {T}.
Arguments HEdits {T}.

(** [diff.hunks]: the edits of a hunk are those of the walk of [edits]
    restricted to [x[S0:S1]] and [y[T0:T1]]. A result of length zero is Go's nil. *)
Fixpoint hunks_conv {T} (zero : T) (x y : list T) (rx ry : list bool)
    (hs : list rvecs.Hunk) : option (list (Hunk T)) :=
  match hs with
  | [] => Some []
  | h :: hs =>
      let fuel := S (Z.to_nat ((rvecs.S1 h - rvecs.S0 h) + (rvecs.T1 h - rvecs.T0 h))) in
      let? es := edits_loop zero x y rx ry (rvecs.S1 h) (rvecs.T1 h) fuel
                   (rvecs.S0 h) (rvecs.T0 h) in
      let? rest := hunks_conv zero x y rx ry hs in
      Some (MkHunk (rvecs.S0 h) (rvecs.S1 h) (rvecs.T0 h) (rvecs.T1 h) es :: rest)
  end.

Definition hunks {T} (zero : T) (x y : list T) (rx ry : list bool) (cfg : Config)
    : option (list (Hunk T)) :=
  let? hs := rvecs.Hunks rx ry cfg in hunks_conv zero x y rx ry hs.

(** [diff.Hunks]: [None] when it panics or does not return. *)
Definition Hunks {T} `{Countable T} (zero : T) (x y : list T) (opts : list Option)
    : option (list (Hunk T)) :=
  match FromOptions opts (Z.lor flag_Context flag_Minimal) with
  | inr _ => None
  | inl cfg => let? (rx, ry) := Diff x y cfg in hunks zero x y rx ry cfg
  end.

(** ** The indent heuristic, [internal/indentheuristic] *)

(** *** Package [byteview]

    Its source is the part of [src/internal/cmd/eval/internal/git/git.go]
    from line 473 on; [indentheuristic.go] imports it. *)

Module byteview.

(** [type ByteView struct { data string }] *)
Record ByteView := MkByteView { data : string }.

(** [From(in)] on a string: [ByteView{in}]. *)
Definition From (s : string) : ByteView := MkByteView s.

(** [==] on the struct: the [data] fields hold the same bytes. *)
Definition eqb (a b : ByteView) : bool := String.eqb (data a) (data b).

End byteview.
Import byteview.

(** [ByteView] is comparable in Go ([==] on its one string field), so
    [Diff] and the hashing of the line index accept it. *)
#[global] Instance ByteView_eq_dec : EqDecision ByteView.
Proof. solve_decision. Defined.

#[global] Instance ByteView_countable : Countable ByteView.
Proof. apply (inj_countable' data MkByteView). intros []; reflexivity. Defined.

Module indentheuristic.

Definition maxSliding : Z := 100.
Definition maxIndent : Z := 200.
Definition maxBlanks : Z := 20.

Definition startOfFilePenalty : Z := 1.
Definition endOfFilePenalty : Z := 21.
Definition totalBlankWeight : Z := -30.
Definition postBlankWeight : Z := 6.
Definition relativeIndentPenalty : Z := -4.
Definition relativeIndentWithBlankPenalty : Z := 10.
Definition relativeOutdentPenalty : Z := 24.
Definition relativeOutdentWithBlankPenalty : Z := 17.
Definition relativeDentPenalty : Z := 23.
Definition relativeDentWithBlankPenalty : Z := 17.
Definition indentWeight : Z := 60.

Record scanner := Scanner {
  start : Z; end_ : Z; lines : list ByteView; r : list bool }.

Definition newScanner (lines : list ByteView) (r : list bool) : scanner :=
  Scanner (-1) (-1) lines r.

Definition groupLen (s : scanner) : Z := end_ s - start s.

(** [for e < len(r)-1 && r[e] { e++ }] *)
Fixpoint extend_down (r : list bool) (fuel : nat) (e : Z) : option Z :=
  match fuel with
  | O => Some e
  | S f =>
      if e <? zlen r - 1 then
        let? b := sget r e in if b then extend_down r f (e + 1) else Some e
      else Some e
  end.

(** [for st > 0 && r[st-1] { st-- }] *)
Fixpoint extend_up (r : list bool) (fuel : nat) (st : Z) : option Z :=
  match fuel with
  | O => Some st
  | S f =>
      if 0 <? st then
        let? b := sget r (st - 1) in if b then extend_up r f (st - 1) else Some st
      else Some st
  end.

(** The scanner methods return their [bool] result and the updated scanner;
    [None] is an index out of range. *)
Definition nextGroup (s : scanner) : option (bool * scanner) :=
  if end_ s =? zlen (r s) - 1 then Some (false, s) else
  let? e := extend_down (r s) (length (r s)) (end_ s + 1) in
  Some (true, Scanner (end_ s + 1) e (lines s) (r s)).

Definition prevGroup (s : scanner) : option (bool * scanner) :=
  if start s =? 0 then Some (false, s) else
  let? st := extend_up (r s) (length (r s)) (start s - 1) in
  Some (true, Scanner st (start s - 1) (lines s) (r s)).

Definition slideGroupDown (s : scanner) : option (bool * scanner) :=
  if end_ s <? zlen (r s) - 1 then
    let? a := sget (lines s) (start s) in
    let? b := sget (lines s) (end_ s) in
    if byteview.eqb a b then
      let? r1 := sset (r s) (start s) false in
      let? r2 := sset r1 (end_ s) true in
      let? e := extend_down r2 (length r2) (end_ s + 1) in
      Some (true, Scanner (start s + 1) e (lines s) r2)
    else Some (false, s)
  else Some (false, s).

Definition slideGroupUp (s : scanner) : option (bool * scanner) :=
  if 0 <? start s then
    let? a := sget (lines s) (start s - 1) in
    let? b := sget (lines s) (end_ s - 1) in
    if byteview.eqb a b then
      let? r1 := sset (r s) (start s - 1) true in
      let? r2 := sset r1 (end_ s - 1) false in
      let? st := extend_up r2 (length r2) (start s - 1) in
      Some (true, Scanner st (end_ s - 1) (lines s) r2)
    else Some (false, s)
  else Some (false, s).

Record measure := Measure {
  endOfFile : bool; indent : Z; preBlank : Z; preIndent : Z;
  postBlank : Z; postIndent : Z }.

Definition is_ascii (c : Ascii.ascii) (k : nat) : bool := Ascii.eqb c (Ascii.ascii_of_nat k).

(** [getIndent]: the loop over the bytes of the line, from the loop variable
    [indent] on. *)
Fixpoint getIndent_from (l : string) (indent : Z) : Z :=
  match l with
  | EmptyString => -1
  | String c l' =>
      let next i := if maxIndent <=? i then maxIndent else getIndent_from l' i in
      if is_ascii c 32 then next (indent + 1)
      else if is_ascii c 9 then next (indent + (8 - indent mod 8))
      else if is_ascii c 10 || is_ascii c 11 || is_ascii c 13 then next indent
      else indent
  end.

(** [for c := range line.Bytes()]: the bytes of [data] in order. *)
Definition getIndent (l : ByteView) : Z := getIndent_from (byteview.data l) 0.

(** [for i := shift - 1; i >= 0; i--]: [(preIndent, preBlank)]. *)
Fixpoint pre_loop (ls : list ByteView) (fuel : nat) (i preIndent preBlank : Z)
    : option (Z * Z) :=
  match fuel with
  | O => Some (preIndent, preBlank)
  | S f =>
      if 0 <=? i then
        let? l := sget ls i in
        let preIndent := getIndent l in
        if negb (preIndent =? -1) then Some (preIndent, preBlank) else
        let preBlank := preBlank + 1 in
        if preBlank =? maxBlanks then Some (0, preBlank)
        else pre_loop ls f (i - 1) preIndent preBlank
      else Some (preIndent, preBlank)
  end.

(** [for i := shift + 1; i < len(lines); i++]: [(postIndent, postBlank)]. *)
Fixpoint post_loop (ls : list ByteView) (fuel : nat) (i postIndent postBlank : Z)
    : option (Z * Z) :=
  match fuel with
  | O => Some (postIndent, postBlank)
  | S f =>
      if i <? zlen ls then
        let? l := sget ls i in
        let postIndent := getIndent l in
        if negb (postIndent =? -1) then Some (postIndent, postBlank) else
        let postBlank := postBlank + 1 in
        if postBlank =? maxBlanks then Some (0, postBlank)
        else post_loop ls f (i + 1) postIndent postBlank
      else Some (postIndent, postBlank)
  end.

Definition measureShift (ls : list ByteView) (shift : Z) : option measure :=
  let? (eof, ind) :=
    (if zlen ls <=? shift then Some (true, -1)
     else let? l := sget ls shift in Some (false, getIndent l)) in
  let? (preI, preB) := pre_loop ls (Z.to_nat shift) (shift - 1) (-1) 0 in
  let? (postI, postB) := post_loop ls (Z.to_nat (zlen ls - shift)) (shift + 1) (-1) 0 in
  Some (Measure eof ind preB preI postB postI).

Record shiftScore := ShiftScore { effectiveIndent : Z; penalty : Z }.

Definition score0 : shiftScore := ShiftScore 0 0.

(** [shiftScore.add], with its statements in order. *)
Definition add (s : shiftScore) (m : measure) : shiftScore :=
  let pen := penalty s in
  let pen := if (preIndent m =? 1) && (preBlank m =? 0) then pen + startOfFilePenalty else pen in
  let pen := if endOfFile m then pen + endOfFilePenalty else pen in
  let postBlank := if indent m =? -1 then 1 + postBlank m else 0 in
  let totalBlank := preBlank m + postBlank in
  let pen := pen + totalBlankWeight * totalBlank in
  let pen := pen + postBlankWeight * postBlank in
  let ind := if indent m =? -1 then postIndent m else indent m in
  let eff := effectiveIndent s + ind in
  let pen :=
    if (ind =? -1) || (preIndent m =? -1) then pen
    else if preIndent m <? ind then
      (if negb (totalBlank =? 0) then pen + relativeIndentWithBlankPenalty
       else relativeIndentPenalty)
    else if ind =? preIndent m then pen
    else if negb (postIndent m =? -1) && (ind <? postIndent m) then
      (if negb (totalBlank =? 0) then pen + relativeOutdentWithBlankPenalty
       else pen + relativeOutdentPenalty)
    else
      (if negb (totalBlank =? 0) then pen + relativeDentWithBlankPenalty
       else pen + relativeDentPenalty) in
  ShiftScore eff pen.

(** [cmp.Compare] on ints. *)
Definition compare_int (a b : Z) : Z :=
  match Z.compare a b with Lt => -1 | Eq => 0 | Gt => 1 end.

Definition cmp (s t : shiftScore) : Z :=
  indentWeight * compare_int (effectiveIndent s) (effectiveIndent t) + penalty s - penalty t.

(** [for s.slideGroupUp() { if !so.prevGroup() { panic(...) } }] *)
Fixpoint slide_up_all (fuel : nat) (s so : scanner) : option (scanner * scanner) :=
  match fuel with
  | O => None
  | S f =>
      let? (b, s') := slideGroupUp s in
      if b then
        let? (b2, so') := prevGroup so in
        if b2 then slide_up_all f s' so' else None
      else Some (s, so)
  end.

(** [for s.slideGroupDown() { ... }], updating [matchingEnd]. *)
Fixpoint slide_down_all (fuel : nat) (s so : scanner) (matchingEnd : Z)
    : option (scanner * scanner * Z) :=
  match fuel with
  | O => None
  | S f =>
      let? (b, s') := slideGroupDown s in
      if b then
        let? (b2, so') := nextGroup so in
        if b2 then
          slide_down_all f s' so' (if 0 <? groupLen so' then end_ s' else matchingEnd)
        else None
      else Some (s, so, matchingEnd)
  end.

(** [for grpLen != s.groupLen() { ... }]: [(s, so, grpLen, matchingEnd, minEnd)]. *)
Fixpoint grp_loop (fuel : nat) (s so : scanner) (grpLen matchingEnd minEnd : Z)
    : option (scanner * scanner * Z * Z * Z) :=
  match fuel with
  | O => None
  | S f =>
      if grpLen =? groupLen s then Some (s, so, grpLen, matchingEnd, minEnd) else
      let grpLen := groupLen s in
      let? (s, so) := slide_up_all (S (length (r s))) s so in
      let minEnd := end_ s in
      let matchingEnd := if 0 <? groupLen so then end_ s else -1 in
      let? (s, so, matchingEnd) := slide_down_all (S (length (r s))) s so matchingEnd in
      grp_loop f s so grpLen matchingEnd minEnd
  end.

(** [for so.groupLen() == 0 { ... }] *)
Fixpoint align_loop (fuel : nat) (s so : scanner) : option (scanner * scanner) :=
  match fuel with
  | O => None
  | S f =>
      if groupLen so =? 0 then
        let? (b, s') := slideGroupUp s in
        if b then
          let? (b2, so') := prevGroup so in
          if b2 then align_loop f s' so' else None
        else None
      else Some (s, so)
  end.

(** The score of one shift candidate: [score := shiftScore{}],
    [score.add(measureShift(lines, shift))],
    [score.add(measureShift(lines, shift-grpLen))]. *)
Definition candidate_score (ls : list ByteView) (grpLen shift : Z) : option shiftScore :=
  let? m1 := measureShift ls shift in
  let? m2 := measureShift ls (shift - grpLen) in
  Some (add (add score0 m1) m2).

(** [for shift := lo; shift <= hi; shift++]: [(bestShift, bestScore)]. *)
Fixpoint shift_loop (ls : list ByteView) (grpLen hi : Z) (fuel : nat) (shift : Z)
    (bestShift : Z) (bestScore : shiftScore) : option (Z * shiftScore) :=
  match fuel with
  | O => Some (bestShift, bestScore)
  | S f =>
      if shift <=? hi then
        let? score := candidate_score ls grpLen shift in
        if (bestShift =? -1) || (cmp score bestScore <=? 0) then
          shift_loop ls grpLen hi f (shift + 1) shift score
        else shift_loop ls grpLen hi f (shift + 1) bestShift bestScore
      else Some (bestShift, bestScore)
  end.

(** [for s.end > bestShift { ... }] *)
Fixpoint up_to_loop (fuel : nat) (bestShift : Z) (s so : scanner) : option (scanner * scanner) :=
  match fuel with
  | O => None
  | S f =>
      if bestShift <? end_ s then
        let? (b, s') := slideGroupUp s in
        if b then
          let? (b2, so') := prevGroup so in
          if b2 then up_to_loop f bestShift s' so' else None
        else None
      else Some (s, so)
  end.

(** The body of [for s.nextGroup() { ... }] for a non-empty group. *)
Definition process_group (s so : scanner) : option (scanner * scanner) :=
  let F := S (length (r s)) in
  let? (s, so, grpLen, matchingEnd, minEnd) := grp_loop F s so 0 (-1) (end_ s) in
  if minEnd =? end_ s then Some (s, so)
  else if negb (matchingEnd =? -1) then align_loop F s so
  else
    let lo := Z.max minEnd (Z.max (end_ s - grpLen - 1) (end_ s - maxSliding)) in
    let? (bestShift, _) :=
      shift_loop (lines s) grpLen (end_ s) (Z.to_nat (end_ s - lo + 1)) lo (-1) score0 in
    up_to_loop F bestShift s so.

Fixpoint groups_loop (fuel : nat) (s so : scanner) : option (list bool) :=
  match fuel with
  | O => None
  | S f =>
      let? (b, s) := nextGroup s in
      if b then
        let? (b2, so) := nextGroup so in
        if negb b2 then None (* panic("scanner sync broken") *)
        else if groupLen s =? 0 then groups_loop f s so
        else let? (s, so) := process_group s so in groups_loop f s so
      else
        let? (b2, _) := nextGroup so in
        if b2 then None (* panic("scanner sync broken") *) else Some (r s)
  end.

(** [apply0(lines, lineso, r, ro)]: the updated [r]. *)
Definition apply0 (ls lso : list ByteView) (r0 ro : list bool) : option (list bool) :=
  groups_loop (S (length r0) * S (length r0)) (newScanner ls r0) (newScanner lso ro).

(** [Apply(x, y, rx, ry)]: the updated [rx] and [ry]. *)
Definition Apply (x y : list ByteView) (rx ry : list bool) : option (list bool * list bool) :=
  let? rx := apply0 x y rx ry in
  let? ry := apply0 y x ry rx in
  Some (rx, ry).

End indentheuristic.

(** ** Reference definitions for the properties *)

(** The weighted contributions of one measure as listed in the table of the
    specification (section 4.6), for the same blank-line and indent counts as
    [add]: +1 when no non-blank line precedes the split, +21 at end of file,
    -30 per blank line around the split, +6 per blank line after it, and the
    relative-indent entries. *)
Definition spec_contribution (m : indentheuristic.measure) : Z :=
  let '(indentheuristic.Measure eof ind0 preB preI postB0 postI) := m in
  let postBlank := if ind0 =? -1 then 1 + postB0 else 0 in
  let totalBlank := preB + postBlank in
  let ind := if ind0 =? -1 then postI else ind0 in
  (if preI =? -1 then indentheuristic.startOfFilePenalty else 0)
  + (if eof then indentheuristic.endOfFilePenalty else 0)
  + indentheuristic.totalBlankWeight * totalBlank
  + indentheuristic.postBlankWeight * postBlank
  + (if (ind =? -1) || (preI =? -1) then 0
     else if preI <? ind then
       (if totalBlank =? 0 then indentheuristic.relativeIndentPenalty
        else indentheuristic.relativeIndentWithBlankPenalty)
     else if ind =? preI then 0
     else if negb (postI =? -1) && (ind <? postI) then
       (if totalBlank =? 0 then indentheuristic.relativeOutdentPenalty
        else indentheuristic.relativeOutdentWithBlankPenalty)
     else
       (if totalBlank =? 0 then indentheuristic.relativeDentPenalty
        else indentheuristic.relativeDentWithBlankPenalty)).

(** The penalty of a candidate according to the specification: the sum of the
    contributions of its two measures. *)
Definition spec_candidate_penalty (ls : list ByteView) (grpLen shift : Z) : option Z :=
  let? m1 := indentheuristic.measureShift ls shift in
  let? m2 := indentheuristic.measureShift ls (shift - grpLen) in
  Some (spec_contribution m1 + spec_contribution m2).

(** The configuration after applying [opts] in order, and the flags they
    report. *)
Fixpoint applied_options (opts : list Option) (cfg : Config) : Config * list Flag :=
  match opts with
  | [] => (cfg, [])
  | opt :: opts =>
      let '(cfg, flag) := opt cfg in
      let '(cfg', flags) := applied_options opts cfg in (cfg', flag :: flags)
  end.

(** A flag outside of the allowed ones. *)
Definition flag_disallowed (allowed f : Flag) : Prop := Z.land f (Z.lnot allowed) <> 0.

(** The combination that [FromOptions] rejects after the loop. *)
Definition conflicting (cfg : Config) : Prop :=
  CMode cfg <> ModeDefault /\ ForceAnchoringHeuristic cfg = true.

(** ** Inputs of the properties *)

Definition ABCABBA : list Ascii.ascii := String.list_ascii_of_string "ABCABBA".
Definition CBABAC : list Ascii.ascii := String.list_ascii_of_string "CBABAC".

(** The trace [-A +C B -C A B -B A +C] as a list of [Edit]s. *)
Definition trace_ABCABBA_CBABAC : list (Edit Ascii.ascii) :=
  let z := Ascii.zero in
  [MkEdit Delete "A"%char z; MkEdit Insert z "C"%char; MkEdit Match "B"%char "B"%char;
   MkEdit Delete "C"%char z; MkEdit Match "A"%char "A"%char; MkEdit Match "B"%char "B"%char;
   MkEdit Delete "B"%char z; MkEdit Match "A"%char "A"%char; MkEdit Insert z "C"%char].


(** The input of the GOOD_DIAGONAL example: in front, 300 blocks in which
    [x] has one more element than [y] and three elements in common; behind, 10
    blocks of 20 common elements separated by 20 elements of [x] and 20 other
    elements of [y]. Every value occurs in both inputs. *)
Definition good_diag_front_x : list Z := flat_map (fun _ => [4; 1; 2; 3]) (seq 0 300).
Definition good_diag_front_y : list Z := flat_map (fun _ => [1; 2; 3]) (seq 0 300).
Definition good_diag_run (j : nat) : list Z :=
  map (fun i => 5000 + 20 * Z.of_nat j + Z.of_nat i) (seq 0 20).
Definition good_diag_back_x : list Z := flat_map (fun j => good_diag_run j ++ repeat 8 20) (seq 0 10).
Definition good_diag_back_y : list Z := flat_map (fun j => good_diag_run j ++ repeat 9 20) (seq 0 10).
Definition good_diag_x : list Z := [9] ++ good_diag_front_x ++ good_diag_back_x.
Definition good_diag_y : list Z := [8; 4] ++ good_diag_front_y ++ good_diag_back_y.

(** The first [split] of [Diff] in [ModeDefault] when [diffDefault] does not
    anchor: [compare] on the whole window with [optimal = false] splits it
    with the fuel [split_fuel]; [fuel] bounds instead the number of
    iterations of the [d]-loop when it is [Some]. The result also reports the
    [costLimit] of [init]. *)
Definition default_first_split {T} `{Countable T} (x y : list T) (fuel : option nat)
    : option (Z * split_res) :=
  let? p := diff_prep x y in
  match p with
  | inl _ => None
  | inr p =>
      let? (m, (smin0, smax0, tmin0, tmax0)) :=
        init Z.eqb (p_x0 p) (p_y0 p) (Some (p_xidx p)) (Some (p_yidx p))
          (Some (p_rx p, p_ry p)) in
      let F := match fuel with
               | Some f => f
               | None => split_fuel smin0 smax0 tmin0 tmax0
               end in
      let? (_, r) := split Z.eqb (m_x m) (m_y m) (m_v0 m) (m_costLimit m)
                       smin0 smax0 tmin0 tmax0 false F (m_vf m) (m_vb m) in
      Some (m_costLimit m, r)
  end.

(** Consecutive hunks are separated by at least one row in [x] and in [y];
    [last] is the end [(S1, T1)] of the hunk before [hs], if any. *)
Fixpoint sep_chain (last : option (Z * Z)) (hs : list rvecs.Hunk) : Prop :=
  match hs with
  | [] => True
  | h :: hs =>
      match last with
      | Some (a, b) => 1 <= rvecs.S0 h - a /\ 1 <= rvecs.T0 h - b
      | None => True
      end /\ sep_chain (Some (rvecs.S1 h, rvecs.T1 h)) hs
  end.

(** The invariant of the loop of [rvecs.Hunks]: once a hunk was closed after
    more than [2 * c] matches, the next hunk starts after its end. *)
Definition hunks_inv (rx ry : list bool) (c : Z) (last : option (Z * Z))
    (s t s0 t0 run : Z) : Prop :=
  0 <= run /\
  match last with
  | None => True
  | Some (a, b) =>
      (0 <= s0 -> a < s0 /\ b < t0) /\
      (s0 < 0 -> (a < s - c /\ b < t - c) \/ (rvecs.n rx <= s /\ rvecs.m ry <= t))
  end.

(** The number of set bits of a result vector. *)
Fixpoint count_true (r : list bool) : nat :=
  match r with
  | [] => 0%nat
  | b :: r => ((if b then 1 else 0) + count_true r)%nat
  end.

(** The lines of [ls] that a result vector [r] keeps ([r[i] = false]). *)
Fixpoint kept (ls : list ByteView) (r : list bool) : list ByteView :=
  match ls, r with
  | l :: ls, b :: r => if b then kept ls r else l :: kept ls r
  | _, _ => []
  end.

(** [r'] has the length, the number of set bits and the kept lines of [r]. *)
Definition pres (ls : list ByteView) (r r' : list bool) : Prop :=
  length r' = length r /\ count_true r' = count_true r /\ kept ls r' = kept ls r.

(** The invariant of a scanner of [apply0]: the group [[start, end)] is a
    maximal run of set bits of [r] (or the scanner has not started yet). *)
Definition grp_ok (s : indentheuristic.scanner) : Prop :=
  let r := indentheuristic.r s in
  let st := indentheuristic.start s in
  let en := indentheuristic.end_ s in
  -1 <= st <= en /\ en <= zlen r - 1 /\
  (0 < st -> sget r (st - 1) = Some false) /\
  (forall k, st <= k < en -> sget r k = Some true) /\
  (0 <= en < zlen r - 1 -> sget r en = Some false).

(** A scanner [s'] obtained from [s] by sliding: a nonempty group, the same
    lines, and a vector with the same length, set bits and kept lines. *)
Definition slid (s s' : indentheuristic.scanner) : Prop :=
  grp_ok s' /\ indentheuristic.start s' < indentheuristic.end_ s' /\
  indentheuristic.lines s' = indentheuristic.lines s /\
  pres (indentheuristic.lines s) (indentheuristic.r s) (indentheuristic.r s').
(** The lines of the indent heuristic example. *)
Definition indent_x : list ByteView := map byteview.From ["a"; "a"; ""; ""; "  b"; "a"; ""; "}"; "b"]%string.
Definition indent_y : list ByteView := map byteview.From [""; "}"; ""; "}"; "}"]%string.

(** Lines whose last two are deleted: [x = ["a"; "  b"; "a"; "  b"]] against
    [y = ["a"; "  b"]]. *)
Definition score_x : list ByteView := map byteview.From ["a"; "  b"; "a"; "  b"]%string.
Definition score_y : list ByteView := map byteview.From ["a"; "  b"]%string.
Definition score_rx : list bool := [false; false; true; true; false].
Definition score_ry : list bool := [false; false; false].

(** The [x] side of an edit script: for each [Delete] and [Match] edit, the
    deleted flag and the element of [x] it carries; [Insert] edits have none. *)
Definition xside {T} (es : list (Edit T)) : list (bool * T) :=
  flat_map (fun e => match op e with
                     | Delete => [(true, eX e)] | Match => [(false, eX e)] | Insert => [] end) es.

(** The [y] side of an edit script, symmetrically. *)
Definition yside {T} (es : list (Edit T)) : list (bool * T) :=
  flat_map (fun e => match op e with
                     | Insert => [(true, eY e)] | Match => [(false, eY e)] | Delete => [] end) es.

Definition is_match {T} (e : Edit T) : bool := match op e with Match => true | _ => false end.

(** The invariant of the runs of [edits] on the [x] side: the edits [es]
    produced while [s] advanced to [s'] spell out [rx[s:s']] and [x[s:s']]. *)
Definition xs_inv {T} (x : list T) (rx : list bool) (n : Z) (es : list (Edit T)) (s s' : Z) : Prop :=
  map fst (xside es) ++ slice rx s' n = slice rx s n /\ map snd (xside es) ++ slice x s' n = slice x s n.

(** The same on the [y] side. *)
Definition ys_inv {T} (y : list T) (ry : list bool) (m : Z) (es : list (Edit T)) (t t' : Z) : Prop :=
  map fst (yside es) ++ slice ry t' m = slice ry t m /\ map snd (yside es) ++ slice y t' m = slice y t m.

(** A hunk of [rvecs.Hunks] lies inside the vectors and contains a change. *)
Definition hunk_ok (rx ry : list bool) (h : rvecs.Hunk) : Prop :=
  0 <= rvecs.S0 h <= rvecs.S1 h /\ rvecs.S1 h <= rvecs.n rx /\
  0 <= rvecs.T0 h <= rvecs.T1 h /\ rvecs.T1 h <= rvecs.m ry /\
  exists k, (rvecs.S0 h <= k < rvecs.S1 h /\ sget rx k = Some true) \/
            (rvecs.T0 h <= k < rvecs.T1 h /\ sget ry k = Some true).

(** The hunk opened at [(s0, t0)] and not yet emitted: its part before the
    current run of matches contains a change. *)
Definition pending (rx ry : list bool) (s t s0 t0 run : Z) : Prop :=
  0 <= s0 -> s0 <= s - run /\ 0 <= t0 <= t - run /\
    exists k, (s0 <= k < s - run /\ sget rx k = Some true) \/
              (t0 <= k < t - run /\ sget ry k = Some true).

(** A row [k] of [x] that a later hunk must cover: a deletion not reached
    yet, or a row of the pending hunk. *)
Definition todo_x (rx : list bool) (s s0 run k : Z) : Prop :=
  (s <= k < rvecs.n rx /\ sget rx k = Some true) \/ (0 <= s0 <= k /\ k < s - run).

(** The same for a row [k] of [y]. *)
Definition todo_y (ry : list bool) (t s0 t0 run k : Z) : Prop :=
  (t <= k < rvecs.m ry /\ sget ry k = Some true) \/ (0 <= s0 /\ t0 <= k < t - run).

(** An option that keeps the context length non-negative. *)
Definition keeps_context (o : Option) : Prop :=
  forall c, 0 <= Context c -> 0 <= Context (o c).1.

(** The bytes that [getIndent] skips without counting: space, tab, newline,
    vertical tab and carriage return. *)
Definition is_blank (c : ascii) : bool :=
  indentheuristic.is_ascii c 32 || indentheuristic.is_ascii c 9 || indentheuristic.is_ascii c 10 ||
  indentheuristic.is_ascii c 11 || indentheuristic.is_ascii c 13.

Fixpoint all_blank (l : string) : bool :=
  match l with EmptyString => true | String c l => is_blank c && all_blank l end.

(** An indentation as [measureShift] records it: [-1] for a blank line. *)
Definition indent_ok (v : Z) : Prop := v = -1 \/ 0 <= v <= indentheuristic.maxIndent.

(** [k] spaces. *)
Fixpoint spaces (k : nat) : string :=
  match k with O => EmptyString | S k => String " "%char (spaces k) end.

(** ** textdiff/textdiff.go: [numDigits]

    The default case [for ; v > 0; v /= 10 { n++ }], with Go's truncating
    division [Z.quot]; the loop runs at most 19 times on a 64-bit [int], so
    64 rounds of fuel are enough. *)
Fixpoint numDigits_loop (fuel : nat) (v n : Z) : Z :=
  match fuel with
  | O => n
  | S f => if 0 <? v then numDigits_loop f (Z.quot v 10) (n + 1) else n
  end.

(** The number of decimal digits of [v], used to size the hunk headers of
    [Unified]. *)
Definition numDigits (v : Z) : Z :=
  if v <? 10 then 1
  else if v <? 100 then 2
  else if v <? 1000 then 3
  else if v <? 10000 then 4
  else if v <? 100000 then 5
  else numDigits_loop 64 v 0.

(** * Properties *)

(** ** Options *)

Lemma mode_eqb_true (a b : Mode) : mode_eqb a b = true <-> a = b.
Proof. destruct a, b; simpl; split; congruence. Qed.

(** [from_options] panics exactly on a disallowed flag or on the conflicting
    final configuration, and otherwise returns the configuration built by the
    options. *)
Lemma from_options_spec (allowed : Flag) (opts : list Option) (cfg : Config) :
  let '(cfg', flags) := applied_options opts cfg in
  ((exists msg, from_options opts allowed cfg = inr msg) <->
     (Exists (flag_disallowed allowed) flags \/ conflicting cfg')) /\
  (Forall (fun f => ~ flag_disallowed allowed f) flags -> ~ conflicting cfg' ->
     from_options opts allowed cfg = inl cfg').
Proof.
  revert cfg; induction opts as [|opt opts IH]; intros cfg; simpl.
  - unfold conflicting.
    pose proof (mode_eqb_true (CMode cfg) ModeDefault) as Hm.
    destruct (mode_eqb (CMode cfg) ModeDefault) eqn:Em;
      destruct (ForceAnchoringHeuristic cfg) eqn:Ef; simpl.
    + split; [split; [intros [? ?]; discriminate|] | reflexivity].
      intros [H|[H1 _]]; [inversion H|exfalso; apply H1, Hm; reflexivity].
    + split; [split; [intros [? ?]; discriminate|] | reflexivity].
      intros [H|[_ H2]]; [inversion H|discriminate].
    + split; [split|].
      * intros _; right; split; [intros E; apply Hm in E; discriminate|reflexivity].
      * intros _; eexists; reflexivity.
      * intros _ Hc; exfalso; apply Hc; split; [intros E; apply Hm in E; discriminate|reflexivity].
    + split; [split; [intros [? ?]; discriminate|] | reflexivity].
      intros [H|[_ H2]]; [inversion H|discriminate].
  - destruct (opt cfg) as [c1 f] eqn:Eo.
    specialize (IH c1). destruct (applied_options opts c1) as [cfg' flags] eqn:Ea.
    destruct IH as [IH1 IH2].
    destruct (Z.land f (Z.lnot allowed) =? 0) eqn:Ef; simpl.
    + apply Z.eqb_eq in Ef.
      split.
      * rewrite IH1. split.
        -- intros [H|H]; [left; constructor 2; exact H|right; exact H].
        -- intros [H|H]; [|right; exact H]. left.
           inversion H as [? ? Hx|? ? Hx]; subst; [exfalso; apply Hx; exact Ef|exact Hx].
      * intros Hall Hc. apply IH2; [inversion Hall; assumption|exact Hc].
    + apply Z.eqb_neq in Ef. split.
      * split; intros _; [left; constructor 1; exact Ef|].
        destruct (printFlag f); eexists; reflexivity.
      * intros Hall. inversion Hall as [|? ? Hx]; subst. exfalso; apply Hx; exact Ef.
Qed.

(** The call of [diff.Context(n)] clamps its argument. *)
Lemma opt_Context_negative (n : Z) : n < 0 -> opt_Context n = opt_Context 0.
Proof.
  intros Hn. unfold opt_Context. rewrite Z.max_l by lia. reflexivity.
Qed.

(** C9: misuse of options is rejected when the options are composed.
    [FromOptions] panics exactly when some option reports a flag outside of
    the allowed ones or when the resulting configuration combines
    [ForceAnchoringHeuristic] with a mode other than [ModeDefault]; an option
    set without either problem never fails and yields the configuration its
    options build. [Edits] and [Hunks] panic in [FromOptions], before [Diff]
    is called, whenever their options are rejected. *)
Theorem FromOptions_rejects_misuse (opts : list Option) (allowed : Flag) :
  let '(cfg, flags) := applied_options opts config_Default in
  ((exists msg, FromOptions opts allowed = inr msg) <->
     (Exists (flag_disallowed allowed) flags \/ conflicting cfg)) /\
  (Forall (fun f => ~ flag_disallowed allowed f) flags -> ~ conflicting cfg ->
     FromOptions opts allowed = inl cfg) /\
  (forall (T : Type) (EqT : EqDecision T) (CT : Countable T) (zero : T)
          (x y : list T) (msg : string),
     FromOptions opts flag_Minimal = inr msg -> Edits zero x y opts = None) /\
  (forall (T : Type) (EqT : EqDecision T) (CT : Countable T) (zero : T)
          (x y : list T) (msg : string),
     FromOptions opts (Z.lor flag_Context flag_Minimal) = inr msg ->
     Hunks zero x y opts = None).
Proof.
  pose proof (from_options_spec allowed opts config_Default) as Hs.
  unfold FromOptions.
  destruct (applied_options opts config_Default) as [cfg flags].
  destruct Hs as [H1 H2].
  split; [exact H1|]. split; [exact H2|].
  split; intros T EqT CT zero x y msg Hm; unfold Edits, Hunks, FromOptions in *;
    rewrite Hm; reflexivity.
Qed.

(** Witness of C9: [diff.Context] passed to [Edits] makes it panic. *)
Lemma FromOptions_rejects_misuse_witness :
  FromOptions [opt_Context 2] flag_Minimal = inr "Option diff.Context not allowed here"%string /\
  Edits 0 [1; 2] [2] [opt_Context 2] = None.
Proof.
  destruct (FromOptions_rejects_misuse [opt_Context 2] flag_Minimal) as (_ & _ & HE & _).
  split; [reflexivity|].
  apply (HE Z _ _ 0 [1; 2] [2] "Option diff.Context not allowed here"%string).
  reflexivity.
Defined.

(** C10: [Context(n)] with [n < 0] is accepted, stores 0, and [Hunks] gives
    the same result as with [Context(0)], wherever the option occurs in the
    option list. *)
Theorem Hunks_Context_negative (n : Z) (Hn : n < 0) :
  FromOptions [opt_Context n] (Z.lor flag_Context flag_Minimal)
    = inl (set_Context config_Default 0) /\
  forall (T : Type) (EqT : EqDecision T) (CT : Countable T) (zero : T)
         (x y : list T) (pre post : list Option),
    Hunks zero x y (pre ++ opt_Context n :: post)
    = Hunks zero x y (pre ++ opt_Context 0 :: post).
Proof.
  rewrite (opt_Context_negative n Hn). split; reflexivity.
Qed.

(** Witness of C10, at [n = -3]. *)
Lemma Hunks_Context_negative_witness :
  -3 < 0 /\
  (FromOptions [opt_Context (-3)] (Z.lor flag_Context flag_Minimal)
     = inl (set_Context config_Default 0) /\
   forall (T : Type) (EqT : EqDecision T) (CT : Countable T) (zero : T)
          (x y : list T) (pre post : list Option),
     Hunks zero x y (pre ++ opt_Context (-3) :: post)
     = Hunks zero x y (pre ++ opt_Context 0 :: post)).
Proof.
  split; [lia|]. apply (Hunks_Context_negative (-3)). lia.
Defined.

(** ** The example of the specification and the tie rule *)

(** C3 (amended): [Edits("ABCABBA", "CBABAC")] returns the trace
    [-A +C B -C A B -B A +C], with the default options and with [Optimal()].
    On a tie of the two stored predecessor values, both searches take the
    deletion: the forward step [vf[k-1] = vf[k+1] = c] starts from
    [s = vf[k-1] + 1] (a horizontal step from diagonal [k-1]), and the backward
    step [vb[k-1] = vb[k+1] = c] starts from [s = vb[k+1] - 1] (a horizontal
    step from diagonal [k+1]), not from the insertion point [s = vb[k-1]]. *)
Theorem Edits_ABCABBA_trace :
  Edits Ascii.zero ABCABBA CBABAC [] = Some trace_ABCABBA_CBABAC /\
  Edits Ascii.zero ABCABBA CBABAC [opt_Optimal] = Some trace_ABCABBA_CBABAC /\
  (forall c : Z, fwd_start c c = c + 1) /\
  (forall c : Z, bwd_start c c = c - 1).
Proof.
  split; [vm_compute; reflexivity|].
  split; [vm_compute; reflexivity|].
  unfold fwd_start, bwd_start.
  split; intros c; rewrite Z.ltb_irrefl; reflexivity.
Qed.

(** C3 (counterexample): the backward search does not prefer the insertion on
    a tie. With [vb[k-1] = vb[k+1] = 5], the mirror of the forward rule would
    start the backward step at the insertion point [s = vb[k-1] = 5]; the code
    starts it at [s = vb[k+1] - 1 = 4], the deletion. *)
Lemma bwd_start_tie_deletes : bwd_start 5 5 = 4 /\ bwd_start 5 5 <> 5.
Proof. vm_compute. split; [reflexivity|discriminate]. Qed.

(** ** The ANCHORING branch of [diffDefault] *)





(** ** GOOD_DIAGONAL *)

(** More fuel for the [d]-loop does not change a result found within less. *)
Lemma split_loop_mono {T} (eq : T -> T -> bool) x y v0 costLimit smin smax tmin tmax optimal :
  forall fuel fuel' d fmin fmax bmin bmax vf vb r,
  split_loop eq x y v0 costLimit smin smax tmin tmax optimal fuel d fmin fmax bmin bmax vf vb
    = Some r ->
  (fuel <= fuel')%nat ->
  split_loop eq x y v0 costLimit smin smax tmin tmax optimal fuel' d fmin fmax bmin bmax vf vb
    = Some r.
Proof.
  induction fuel as [|fuel IH]; intros fuel' d fmin fmax bmin bmax vf vb r H Hle;
    [discriminate|].
  destruct fuel' as [|fuel']; [lia|].
  assert (Hle' : (fuel <= fuel')%nat) by lia.
  simpl in H |- *.
  repeat (case_match; try discriminate; try exact H; try (eapply IH; eauto)).
Qed.

Lemma default_first_split_fuel {T} `{Countable T} (x y : list T) (f : nat) (c : Z) (r : split_res) :
  default_first_split x y (Some f) = Some (c, r) ->
  (forall p m smin0 smax0 tmin0 tmax0,
     diff_prep x y = Some (inr p) ->
     init Z.eqb (p_x0 p) (p_y0 p) (Some (p_xidx p)) (Some (p_yidx p)) (Some (p_rx p, p_ry p))
       = Some (m, (smin0, smax0, tmin0, tmax0)) ->
     (f <= split_fuel smin0 smax0 tmin0 tmax0)%nat) ->
  default_first_split x y None = Some (c, r).
Proof.
  unfold default_first_split. intros Hs Hf.
  destruct (diff_prep x y) as [[?|p]|] eqn:Ep; try discriminate.
  destruct (init Z.eqb (p_x0 p) (p_y0 p) _ _ _) as [[m [[[smin0 smax0] tmin0] tmax0]]|] eqn:Ei;
    try discriminate.
  specialize (Hf p m smin0 smax0 tmin0 tmax0 eq_refl Ei).
  unfold split in *.
  destruct (vset (m_vf m) _ smin0) as [vf|]; try discriminate.
  destruct (vset (m_vb m) _ smax0) as [vb|]; try discriminate.
  destruct (split_loop _ _ _ _ _ _ _ _ _ _ f _ _ _ _ _ _ _) as [[[vf' vb'] r']|] eqn:El;
    try discriminate.
  rewrite (split_loop_mono _ _ _ _ _ _ _ _ _ _ f _ _ _ _ _ _ _ _ _ El Hf). exact Hs.
Qed.

(** C5 (failing input): on [good_diag_x] and [good_diag_y], [Diff] in the
    default mode does not anchor, and its first [split] (with [optimal =
    false]) returns within 300 iterations of the [d]-loop, so before [d]
    reaches [costLimit = 4096] and TOO_EXPENSIVE can run, a forward pick
    [(opt0, opt1) = (true, false)] of GOOD_DIAGONAL. Its terminating diagonal
    [x[1114:1117] = y[836:839]] has length 3, less than
    [goodDiagMinLen = 20]: the forward check of GOOD_DIAGONAL keeps a
    candidate when [diag < goodDiagMinLen], where the backward check requires
    [diag >= goodDiagMinLen]. *)
Theorem good_diagonal_short_forward_pick :
  default_anchoring good_diag_x good_diag_y false = Some false /\
  default_first_split good_diag_x good_diag_y (Some 300%nat)
    = Some (4096, SplitRes 1114 1117 836 839 true false) /\
  default_first_split good_diag_x good_diag_y None
    = Some (4096, SplitRes 1114 1117 836 839 true false) /\
  1117 - 1114 < goodDiagMinLen.
Proof.
  assert (Hs : default_first_split good_diag_x good_diag_y (Some 300%nat)
                 = Some (4096, SplitRes 1114 1117 836 839 true false))
    by (vm_compute; reflexivity).
  split; [vm_compute; reflexivity|].
  split; [exact Hs|].
  split; [|vm_compute; reflexivity].
  apply (default_first_split_fuel _ _ 300); [exact Hs|].
  intros p m smin0 smax0 tmin0 tmax0 Hp Hi.
  vm_compute in Hp. injection Hp as <-.
  vm_compute in Hi. injection Hi as _ <- <- <- <-.
  vm_compute. lia.
Qed.

(** ** The hunk grouper *)

Section HunkGaps.
Variables (rx ry : list bool) (c : Z).

Lemma true_run_ge (r : list bool) (lim : Z) (f : nat) (i i' : Z) :
  rvecs.true_run r lim f i = Some i' -> i <= i'.
Proof.
  revert i; induction f as [|f IH]; intros i H; simpl in H.
  - injection H; lia.
  - destruct (i <? lim); [|injection H; lia].
    destruct (sget r i) as [[|]|]; try discriminate.
    + apply IH in H; lia.
    + injection H; lia.
Qed.

Lemma false_run_nonneg (f : nat) (s t k : Z) :
  rvecs.false_run rx ry f s t = Some k -> 0 <= k.
Proof.
  revert s t k; induction f as [|f IH]; intros s t k H; simpl in H.
  - injection H; lia.
  - destruct ((s <? rvecs.n rx) && (t <? rvecs.m ry)); [|injection H; lia].
    destruct (sget rx s) as [[|]|]; try discriminate; [injection H; lia|].
    destruct (sget ry t) as [[|]|]; try discriminate; [injection H; lia|].
    destruct (rvecs.false_run rx ry f (s + 1) (t + 1)) as [k'|] eqn:E; try discriminate.
    apply IH in E. injection H; lia.
Qed.

Lemma hunks_step_spec s t s0 t0 d run s' t' s0' t0' d' run' :
  rvecs.hunks_step rx ry c s t s0 t0 d run = Some (s', t', s0', t0', d', run') ->
  s <= s' /\ t <= t' /\ (0 <= run -> 0 <= run') /\
  ((s0' = s0 /\ t0' = t0) \/
   (s0 < 0 /\ s0' = Z.max 0 (s - c) /\ t0' = Z.max 0 (t - c))).
Proof.
  unfold rvecs.hunks_step. intros H.
  destruct (rvecs.is_edit rx ry s t) as [[|]|]; try discriminate.
  - destruct (s0 <? 0) eqn:Es0.
    + destruct (rvecs.true_run rx _ _ s) as [s1|] eqn:E1; try discriminate.
      destruct (rvecs.true_run ry _ _ t) as [t1|] eqn:E2; try discriminate.
      apply true_run_ge in E1. apply true_run_ge in E2.
      injection H as <- <- <- <- <- <-. apply Z.ltb_lt in Es0.
      repeat split; try lia; auto.
    + destruct (rvecs.true_run rx _ _ s) as [s1|] eqn:E1; try discriminate.
      destruct (rvecs.true_run ry _ _ t) as [t1|] eqn:E2; try discriminate.
      apply true_run_ge in E1. apply true_run_ge in E2.
      injection H as <- <- <- <- <- <-.
      repeat split; try lia; auto.
  - destruct (rvecs.false_run rx ry _ s t) as [k|] eqn:E; try discriminate.
    apply false_run_nonneg in E.
    injection H as <- <- <- <- <- <-.
    repeat split; try lia; auto.
Qed.

Lemma hunks_loop_sep (fuel : nat) :
  forall s t s0 t0 d run last hs,
  rvecs.hunks_loop rx ry c fuel s t s0 t0 d run = Some hs ->
  hunks_inv rx ry c last s t s0 t0 run ->
  sep_chain last hs.
Proof.
  induction fuel as [|fuel IH]; intros s t s0 t0 d run last hs H Hinv; simpl in H;
    [discriminate|].
  destruct ((s <? rvecs.n rx) || (t <? rvecs.m ry)) eqn:Ec;
    [|injection H as <-; exact I].
  assert (Hc : s < rvecs.n rx \/ t < rvecs.m ry).
  { apply orb_true_iff in Ec. destruct Ec as [E|E]; apply Z.ltb_lt in E; auto. }
  destruct (rvecs.hunks_step rx ry c s t s0 t0 d run)
    as [[[[[[s' t'] s0'] t0'] d'] run']|] eqn:Es; try discriminate.
  destruct (hunks_step_spec _ _ _ _ _ _ _ _ _ _ _ _ Es) as (Hs & Ht & Hr & Hcase).
  destruct Hinv as [Hrun Hl].
  destruct ((0 <=? s0') && ((2 * c <? run') || (s' =? rvecs.n rx) && (t' =? rvecs.m ry)))
    eqn:Eclose.
  - destruct (rvecs.hunks_loop rx ry c fuel s' t' (-1) (-1) d' run') as [rest|] eqn:Er;
      try discriminate.
    injection H as <-.
    apply andb_true_iff in Eclose. destruct Eclose as [E0 Eor].
    apply Z.leb_le in E0.
    simpl. split.
    + destruct last as [[a b]|]; [|exact I]. destruct Hl as [Hl1 Hl2].
      destruct Hcase as [[-> ->]|(Hneg & -> & ->)].
      * destruct (Hl1 E0); lia.
      * destruct (Hl2 Hneg) as [[Ha Hb]|[Hn Hm]]; lia.
    + apply (IH _ _ _ _ _ _ _ _ Er). split; [lia|].
      split; [lia|]. intros _.
      apply orb_true_iff in Eor. destruct Eor as [E|E].
      * apply Z.ltb_lt in E. left. lia.
      * apply andb_true_iff in E. destruct E as [E1 E2].
        apply Z.eqb_eq in E1. apply Z.eqb_eq in E2. right. lia.
  - apply (IH _ _ _ _ _ _ _ _ H). split; [lia|].
    destruct last as [[a b]|]; [|exact I]. destruct Hl as [Hl1 Hl2].
    destruct Hcase as [[-> ->]|(Hneg & -> & ->)].
    + split; [exact Hl1|]. intros Hneg.
      destruct (Hl2 Hneg) as [[Ha Hb]|[Hn Hm]]; [left; lia|lia].
    + split.
      * intros _. destruct (Hl2 Hneg) as [[Ha Hb]|[Hn Hm]]; lia.
      * intros Hlt. lia.
Qed.

End HunkGaps.

Lemma sep_chain_nth (hs : list rvecs.Hunk) :
  forall last i h1 h2, sep_chain last hs ->
  hs !! i = Some h1 -> hs !! S i = Some h2 ->
  1 <= rvecs.S0 h2 - rvecs.S1 h1 /\ 1 <= rvecs.T0 h2 - rvecs.T1 h1.
Proof.
  induction hs as [|h hs IH]; intros last i h1 h2 Hs H1 H2; [discriminate|].
  destruct Hs as [_ Hs].
  destruct i as [|i]; simpl in H1, H2.
  - injection H1 as <-. destruct hs as [|h' hs]; [discriminate|].
    injection H2 as <-. destruct Hs as [Hh _]. exact Hh.
  - exact (IH _ _ _ _ Hs H1 H2).
Qed.

(** C6 (counterexample): with context 1, the result vectors of
    [x = [1;2;3;4;5]] and [y = [2;3;4]] that delete [1] and [5] are grouped by
    [rvecs.Hunks] into two hunks, [x[0:2]] and [x[3:5]]; the second starts
    one row after the first ends, and one is not greater than the context 1. *)
Lemma Hunks_gap_counterexample :
  rvecs.Hunks [true; false; false; false; true; false] [false; false; false; false]
    (set_Context config_Default 1) =
    Some [rvecs.MkHunk 0 2 0 1 2; rvecs.MkHunk 3 5 2 3 2] /\
  ~ (3 - 2 > 1).
Proof. split; [vm_compute; reflexivity | lia]. Qed.

(** C6 (amended): for all result vectors and every configuration, two
    consecutive hunks of the hunk grouper [rvecs.Hunks] are separated by at
    least one unchanged row: [h_{i+1}.S0 - h_i.S1 >= 1] and
    [h_{i+1}.T0 - h_i.T1 >= 1]. The gap need not exceed the context (see
    the counterexample). *)
Theorem Hunks_separated (rx ry : list bool) (cfg : Config) (hs : list rvecs.Hunk)
    (H : rvecs.Hunks rx ry cfg = Some hs) (i : nat) (h1 h2 : rvecs.Hunk)
    (H1 : hs !! i = Some h1) (H2 : hs !! S i = Some h2) :
  1 <= rvecs.S0 h2 - rvecs.S1 h1 /\ 1 <= rvecs.T0 h2 - rvecs.T1 h1.
Proof.
  apply (sep_chain_nth hs None i); [|exact H1|exact H2].
  unfold rvecs.Hunks in H.
  apply (hunks_loop_sep rx ry (Context cfg) _ _ _ _ _ _ _ None hs H).
  split; [lia|exact I].
Qed.

Lemma Hunks_separated_witness :
  rvecs.Hunks [true; false; false; false; true; false] [false; false; false; false]
    (set_Context config_Default 1) =
    Some [rvecs.MkHunk 0 2 0 1 2; rvecs.MkHunk 3 5 2 3 2] /\
  1 <= 3 - 2 /\ 1 <= 2 - 1.
Proof.
  assert (E : rvecs.Hunks [true; false; false; false; true; false]
                [false; false; false; false] (set_Context config_Default 1) =
              Some [rvecs.MkHunk 0 2 0 1 2; rvecs.MkHunk 3 5 2 3 2])
    by (vm_compute; reflexivity).
  split; [exact E|].
  exact (Hunks_separated _ _ _ _ E 0 (rvecs.MkHunk 0 2 0 1 2) (rvecs.MkHunk 3 5 2 3 2)
           eq_refl eq_refl).
Defined.

(** ** The penalty of the indent heuristic *)

(** C7 (failing input): [shiftScore.add] replaces the accumulated penalty in
    the case "indent > preIndent without blank lines" and tests
    [preIndent == 1] for the start of the file, where its comment and the
    table of the specification ask for a line without a non-blank line
    before it ([preIndent == -1]). In general, a measure of that case sets
    the penalty to [relativeIndentPenalty = -4] whatever was accumulated
    before. On the lines [x = ["a"; "  b"; "a"; "  b"]] with the last two
    lines deleted against [y = ["a"; "  b"]], [apply0] hands the group
    [x[2:4]] to the shift search; the group cannot align with the other side
    ([matchingEnd = -1]) and can move up to end 2 ([minEnd = 2]), so the
    shifts 2, 3 and 4 are scored:
    - at shift 3 both measures ([x[3]] and [x[1]], each "  b" after "a") are
      an indent without blank lines; the table gives [-4 + -4 = -8], the
      code [-4];
    - at shift 2 the bottom measure is at [x[0]], with no line before it
      ([preIndent = -1], [preBlank = 0]); the table adds the start-of-file
      [+1] to the outdent [+24] of the top measure and gives [25], the code
      [24]. *)
Theorem add_assigns_indent_penalty :
  (forall (s : indentheuristic.shiftScore) (m : indentheuristic.measure),
     indentheuristic.indent m <> -1 -> indentheuristic.preIndent m <> -1 ->
     indentheuristic.preIndent m < indentheuristic.indent m ->
     indentheuristic.preBlank m = 0 ->
     indentheuristic.penalty (indentheuristic.add s m)
       = indentheuristic.relativeIndentPenalty) /\
  indentheuristic.apply0 score_x score_y score_rx score_ry =
    match indentheuristic.process_group
            (indentheuristic.Scanner 2 4 score_x score_rx)
            (indentheuristic.Scanner 2 2 score_y score_ry) with
    | Some (s, so) => indentheuristic.groups_loop 33 s so
    | None => None
    end /\
  indentheuristic.grp_loop 6 (indentheuristic.Scanner 2 4 score_x score_rx)
      (indentheuristic.Scanner 2 2 score_y score_ry) 0 (-1) 4
    = Some (indentheuristic.Scanner 2 4 score_x score_rx,
            indentheuristic.Scanner 2 2 score_y score_ry, 2, -1, 2) /\
  indentheuristic.measureShift score_x 3
    = Some (indentheuristic.Measure false 2 0 0 0 (-1)) /\
  indentheuristic.measureShift score_x 1
    = Some (indentheuristic.Measure false 2 0 0 0 0) /\
  indentheuristic.candidate_score score_x 2 3
    = Some (indentheuristic.ShiftScore 4 (-4)) /\
  spec_candidate_penalty score_x 2 3 = Some (-8) /\
  indentheuristic.measureShift score_x 0
    = Some (indentheuristic.Measure false 0 0 (-1) 0 2) /\
  indentheuristic.candidate_score score_x 2 2
    = Some (indentheuristic.ShiftScore 0 24) /\
  spec_candidate_penalty score_x 2 2 = Some 25.
Proof.
  split.
  - intros s [eof ind preB preI postB postI]; simpl. intros H1 H2 H3 H4. subst preB.
    assert (E : (preI <? ind) = true) by (apply Z.ltb_lt; exact H3).
    apply Z.eqb_neq in H1. apply Z.eqb_neq in H2.
    unfold indentheuristic.add; simpl. rewrite H1, H2, E. simpl.
    rewrite H1. reflexivity.
  - vm_compute. repeat split.
Qed.

(** ** Sliding in the indent heuristic *)

Lemma kept_insert_false (ls : list ByteView) (r : list bool) (j : nat) (a : ByteView) :
  (forall k, (k < j)%nat -> r !! k = Some true) -> ls !! j = Some a -> (j < length r)%nat ->
  kept ls (<[j := false]> r) = a :: kept ls (<[j := true]> r).
Proof.
  revert ls r; induction j as [|j IH]; intros ls r Hpre Hl Hj.
  - destruct ls as [|l ls]; [discriminate|]. destruct r as [|b r]; simpl in Hj; [lia|].
    simpl in Hl. injection Hl as ->. reflexivity.
  - destruct ls as [|l ls]; [discriminate|]. destruct r as [|b r]; simpl in Hj; [lia|].
    assert (Hb : b = true) by (specialize (Hpre 0%nat ltac:(lia)); simpl in Hpre; congruence).
    subst b. simpl.
    apply IH; [|exact Hl|lia].
    intros k Hk. apply (Hpre (S k)). lia.
Qed.

Lemma count_insert (r : list bool) (j : nat) :
  (j < length r)%nat -> count_true (<[j := true]> r) = S (count_true (<[j := false]> r)).
Proof.
  revert j; induction r as [|b r IH]; intros j Hj; simpl in Hj; [lia|].
  destruct j as [|j]; simpl; [reflexivity|].
  rewrite IH by lia. lia.
Qed.

(** Exchanging the ends of a segment [b, true, ..., true, negb b] whose two
    end lines are equal keeps the length, the set bits and the kept lines. *)
Lemma pres_swap (ls : list ByteView) (r : list bool) (i j : nat) (a : ByteView) (b : bool) :
  (i < j)%nat -> ls !! i = Some a -> ls !! j = Some a ->
  r !! i = Some b -> r !! j = Some (negb b) ->
  (forall k, (i < k < j)%nat -> r !! k = Some true) ->
  pres ls r (<[i := negb b]> (<[j := b]> r)).
Proof.
  revert ls r j; induction i as [|i IH]; intros ls r j Hij Hi Hj Hri Hrj Hmid.
  - destruct j as [|j]; [lia|].
    destruct ls as [|l ls]; [discriminate|]. destruct r as [|c r]; [discriminate|].
    simpl in Hi, Hj, Hri, Hrj. injection Hi as ->. injection Hri as ->.
    assert (Hlen : (j < length r)%nat) by (apply lookup_lt_Some in Hrj; exact Hrj).
    assert (Hpre : forall k, (k < j)%nat -> r !! k = Some true)
      by (intros k Hk; apply (Hmid (S k)); lia).
    assert (Hid : <[j := negb b]> r = r) by (apply list_insert_id; exact Hrj).
    unfold pres; simpl. rewrite length_insert.
    destruct b; simpl in *.
    + split; [reflexivity|]. split.
      * rewrite <- Hid at 2. rewrite count_insert by exact Hlen. lia.
      * rewrite <- Hid at 2. symmetry. apply kept_insert_false; assumption.
    + split; [reflexivity|]. split.
      * rewrite <- Hid at 2. rewrite count_insert by exact Hlen. lia.
      * rewrite <- Hid at 2. apply kept_insert_false; assumption.
  - destruct j as [|j]; [lia|].
    destruct ls as [|l ls]; [discriminate|]. destruct r as [|c r]; [discriminate|].
    simpl in Hi, Hj, Hri, Hrj.
    destruct (IH ls r j ltac:(lia) Hi Hj Hri Hrj) as (H1 & H2 & H3);
      [intros k Hk; apply (Hmid (S k)); lia|].
    unfold pres; simpl. rewrite H1, H2, H3. auto.
Qed.

Lemma pres_refl (ls : list ByteView) (r : list bool) : pres ls r r.
Proof. unfold pres; auto. Qed.

Lemma pres_trans (ls : list ByteView) (r1 r2 r3 : list bool) :
  pres ls r1 r2 -> pres ls r2 r3 -> pres ls r1 r3.
Proof. unfold pres; intros (A1 & B1 & C1) (A2 & B2 & C2). repeat split; congruence. Qed.

Lemma sget_Some {A} (l : list A) (i : Z) (x : A) :
  sget l i = Some x -> 0 <= i < zlen l /\ l !! Z.to_nat i = Some x.
Proof.
  unfold sget, zlen. destruct (0 <=? i) eqn:E; [|discriminate]. apply Z.leb_le in E.
  intros H. pose proof (lookup_lt_Some _ _ _ H). split; [lia | exact H].
Qed.

Lemma sset_Some {A} (l l' : list A) (i : Z) (x : A) :
  sset l i x = Some l' -> 0 <= i < zlen l /\ l' = <[Z.to_nat i := x]> l.
Proof.
  unfold sset, zlen. destruct (0 <=? i) eqn:E; [|discriminate]. apply Z.leb_le in E.
  destruct (l !! Z.to_nat i) eqn:L; [|discriminate].
  intros H; injection H as <-. pose proof (lookup_lt_Some _ _ _ L). split; [lia | reflexivity].
Qed.

Lemma zlen_insert {A} (l : list A) (i : nat) (x : A) : zlen (<[i := x]> l) = zlen l.
Proof. unfold zlen. rewrite length_insert. reflexivity. Qed.

Lemma sget_insert_eq {A} (l : list A) (i : Z) (x : A) :
  0 <= i < zlen l -> sget (<[Z.to_nat i := x]> l) i = Some x.
Proof.
  intros Hi. unfold sget. unfold zlen in Hi.
  replace (0 <=? i) with true by (symmetry; apply Z.leb_le; lia).
  apply list_lookup_insert_eq. lia.
Qed.

Lemma sget_insert_ne {A} (l : list A) (i k : Z) (x : A) :
  0 <= i -> k <> i -> sget (<[Z.to_nat i := x]> l) k = sget l k.
Proof.
  intros Hi Hk. unfold sget.
  destruct (0 <=? k) eqn:E; [|reflexivity]. apply Z.leb_le in E.
  apply list_lookup_insert_ne. lia.
Qed.

Lemma insert_comm {A} (l : list A) (i j : nat) (x y : A) :
  i <> j -> <[i := x]> (<[j := y]> l) = <[j := y]> (<[i := x]> l).
Proof.
  revert i j; induction l as [|c l IH]; intros i j Hij; [reflexivity|].
  destruct i as [|i], j as [|j]; simpl; try reflexivity; [lia|].
  rewrite IH by lia. reflexivity.
Qed.

Lemma extend_down_spec (r : list bool) (fuel : nat) :
  forall e e', (Z.to_nat (zlen r - 1 - e) <= fuel)%nat ->
  indentheuristic.extend_down r fuel e = Some e' ->
  e <= e' /\ (e <= zlen r - 1 -> e' <= zlen r - 1) /\
  (forall k, e <= k < e' -> sget r k = Some true) /\
  (e' < zlen r - 1 -> sget r e' = Some false).
Proof.
  induction fuel as [|f IH]; intros e e' Hf H; simpl in H.
  - injection H as <-. repeat split; intros; lia.
  - destruct (e <? zlen r - 1) eqn:Ee.
    + apply Z.ltb_lt in Ee.
      destruct (sget r e) as [[|]|] eqn:Eg; try discriminate.
      * destruct (IH (e + 1) e' ltac:(lia) H) as (H1 & H2 & H3 & H4).
        split; [lia|]. split; [intros _; apply H2; lia|]. split; [|exact H4].
        intros k Hk. destruct (Z.eq_dec k e) as [->|Hne]; [exact Eg|]. apply H3. lia.
      * injection H as <-. repeat split; intros; try lia. exact Eg.
    + apply Z.ltb_ge in Ee. injection H as <-. repeat split; intros; lia.
Qed.

Lemma extend_up_spec (r : list bool) (fuel : nat) :
  forall st st', (Z.to_nat st <= fuel)%nat ->
  indentheuristic.extend_up r fuel st = Some st' ->
  st' <= st /\ (0 <= st -> 0 <= st') /\
  (forall k, st' <= k < st -> sget r k = Some true) /\
  (0 < st' -> sget r (st' - 1) = Some false).
Proof.
  induction fuel as [|f IH]; intros st st' Hf H; simpl in H.
  - injection H as <-. repeat split; intros; lia.
  - destruct (0 <? st) eqn:Es.
    + apply Z.ltb_lt in Es.
      destruct (sget r (st - 1)) as [[|]|] eqn:Eg; try discriminate.
      * destruct (IH (st - 1) st' ltac:(lia) H) as (H1 & H2 & H3 & H4).
        split; [lia|]. split; [intros _; apply H2; lia|]. split; [|exact H4].
        intros k Hk. destruct (Z.eq_dec k (st - 1)) as [->|Hne]; [exact Eg|]. apply H3. lia.
      * injection H as <-. repeat split; intros; try lia. exact Eg.
    + apply Z.ltb_ge in Es. injection H as <-. repeat split; intros; lia.
Qed.

Lemma nextGroup_ok (s s' : indentheuristic.scanner) (b : bool) :
  grp_ok s -> indentheuristic.nextGroup s = Some (b, s') ->
  grp_ok s' /\ indentheuristic.r s' = indentheuristic.r s /\
  indentheuristic.lines s' = indentheuristic.lines s.
Proof.
  destruct s as [st en ls r]. unfold grp_ok, indentheuristic.nextGroup; simpl.
  intros (H1 & H2 & H3 & H4 & H5) H.
  destruct (en =? zlen r - 1) eqn:Ee.
  - injection H as <- <-. unfold grp_ok; simpl. auto 10.
  - apply Z.eqb_neq in Ee.
    destruct (indentheuristic.extend_down r (length r) (en + 1)) as [e|] eqn:Ed;
      try discriminate.
    injection H as <- <-. unfold grp_ok; simpl.
    assert (Hf : (Z.to_nat (zlen r - 1 - (en + 1)) <= length r)%nat)
      by (unfold zlen in *; lia).
    destruct (extend_down_spec r _ _ _ Hf Ed) as (D1 & D2 & D3 & D4).
    split; [|auto]. split; [lia|]. split; [apply D2; lia|]. split.
    + intros Hp. replace (en + 1 - 1) with en by lia. apply H5. lia.
    + split; [exact D3|]. intros Hp. apply D4. lia.
Qed.

Lemma byteview_eqb_eq (a b : ByteView) : byteview.eqb a b = true -> a = b.
Proof.
  destruct a as [a], b as [b]. unfold byteview.eqb. simpl.
  intros H. apply String.eqb_eq in H. subst b. reflexivity.
Qed.

Lemma slideGroupDown_ok (s s' : indentheuristic.scanner) (b : bool) :
  grp_ok s -> indentheuristic.start s < indentheuristic.end_ s ->
  indentheuristic.slideGroupDown s = Some (b, s') -> slid s s'.
Proof.
  destruct s as [st en ls r]. unfold grp_ok, slid, indentheuristic.slideGroupDown; simpl.
  intros (H1 & H2 & H3 & H4 & H5) Hne H.
  destruct (en <? zlen r - 1) eqn:Ee; [|injection H as <- <-; unfold grp_ok; simpl; auto 10 using pres_refl].
  apply Z.ltb_lt in Ee.
  destruct (sget ls st) as [a|] eqn:Ea; try discriminate.
  destruct (sget ls en) as [a'|] eqn:Ea'; try discriminate.
  destruct (byteview.eqb a a') eqn:Eq; [|injection H as <- <-; unfold grp_ok; simpl; auto 10 using pres_refl].
  apply byteview_eqb_eq in Eq. subst a'.
  destruct (sset r st false) as [r1|] eqn:E1; try discriminate.
  destruct (sset r1 en true) as [r2|] eqn:E2; try discriminate.
  destruct (sset_Some _ _ _ _ E1) as [B1 ->].
  destruct (sset_Some _ _ _ _ E2) as [B2 ->].
  rewrite zlen_insert in B2.
  destruct (indentheuristic.extend_down _ _ (en + 1)) as [e|] eqn:Ed; try discriminate.
  injection H as <- <-. simpl.
  set (r2 := <[Z.to_nat en := true]> (<[Z.to_nat st := false]> r)) in *.
  assert (Hz : zlen r2 = zlen r) by (unfold r2; rewrite !zlen_insert; reflexivity).
  assert (Hf : (Z.to_nat (zlen r2 - 1 - (en + 1)) <= length r2)%nat)
    by (unfold zlen in *; lia).
  destruct (extend_down_spec r2 _ _ _ Hf Ed) as (D1 & D2 & D3 & D4).
  rewrite Hz in D2, D4.
  assert (Hst : sget r2 st = Some false).
  { unfold r2. rewrite sget_insert_ne by lia. apply sget_insert_eq. lia. }
  assert (Hen : sget r2 en = Some true).
  { unfold r2. apply sget_insert_eq. rewrite zlen_insert. lia. }
  split; [|split; [lia|split; [reflexivity|]]].
  - unfold grp_ok; simpl. rewrite Hz.
    split; [lia|]. split; [apply D2; lia|]. split.
    + intros _. replace (st + 1 - 1) with st by lia. exact Hst.
    + split.
      * intros k Hk.
        destruct (Z.lt_ge_cases k en) as [Hk'|Hk'].
        -- unfold r2. rewrite !sget_insert_ne by lia. apply H4. lia.
        -- destruct (Z.eq_dec k en) as [->|Hkn]; [exact Hen|]. apply D3. lia.
      * intros Hp. apply D4. lia.
  - destruct (sget_Some _ _ _ Ea) as [_ La].
    destruct (sget_Some _ _ _ Ea') as [_ La'].
    destruct (sget_Some _ _ _ (H4 st ltac:(lia))) as [_ Ri].
    destruct (sget_Some _ _ _ (H5 ltac:(lia))) as [_ Rj].
    unfold r2. rewrite insert_comm by lia.
    apply (pres_swap ls r (Z.to_nat st) (Z.to_nat en) a true); try assumption; [lia|].
    intros k Hk.
    destruct (sget_Some _ _ _ (H4 (Z.of_nat k) ltac:(lia))) as [_ Rk].
    rewrite Nat2Z.id in Rk. exact Rk.
Qed.

Lemma slideGroupUp_ok (s s' : indentheuristic.scanner) (b : bool) :
  grp_ok s -> indentheuristic.start s < indentheuristic.end_ s ->
  indentheuristic.slideGroupUp s = Some (b, s') -> slid s s'.
Proof.
  destruct s as [st en ls r]. unfold grp_ok, slid, indentheuristic.slideGroupUp; simpl.
  intros (H1 & H2 & H3 & H4 & H5) Hne H.
  destruct (0 <? st) eqn:Es;
    [|injection H as <- <-; unfold grp_ok; simpl; auto 10 using pres_refl].
  apply Z.ltb_lt in Es.
  destruct (sget ls (st - 1)) as [a|] eqn:Ea; try discriminate.
  destruct (sget ls (en - 1)) as [a'|] eqn:Ea'; try discriminate.
  destruct (byteview.eqb a a') eqn:Eq;
    [|injection H as <- <-; unfold grp_ok; simpl; auto 10 using pres_refl].
  apply byteview_eqb_eq in Eq. subst a'.
  destruct (sset r (st - 1) true) as [r1|] eqn:E1; try discriminate.
  destruct (sset r1 (en - 1) false) as [r2|] eqn:E2; try discriminate.
  destruct (sset_Some _ _ _ _ E1) as [B1 ->].
  destruct (sset_Some _ _ _ _ E2) as [B2 ->].
  rewrite zlen_insert in B2.
  destruct (indentheuristic.extend_up _ _ (st - 1)) as [st'|] eqn:Ed; try discriminate.
  injection H as <- <-. simpl.
  set (r2 := <[Z.to_nat (en - 1) := false]> (<[Z.to_nat (st - 1) := true]> r)) in *.
  assert (Hz : zlen r2 = zlen r) by (unfold r2; rewrite !zlen_insert; reflexivity).
  assert (Hf : (Z.to_nat (st - 1) <= length r2)%nat) by (unfold zlen in *; lia).
  destruct (extend_up_spec r2 _ _ _ Hf Ed) as (D1 & D2 & D3 & D4).
  assert (Hst : sget r2 (st - 1) = Some true).
  { unfold r2. rewrite sget_insert_ne by lia. apply sget_insert_eq. lia. }
  assert (Hen : sget r2 (en - 1) = Some false).
  { unfold r2. apply sget_insert_eq. rewrite zlen_insert. lia. }
  split; [|split; [lia|split; [reflexivity|]]].
  - unfold grp_ok; simpl. rewrite Hz.
    split; [lia|]. split; [lia|]. split; [exact D4|]. split.
    + intros k Hk.
      destruct (Z.lt_ge_cases k (st - 1)) as [Hk'|Hk']; [apply D3; lia|].
      destruct (Z.eq_dec k (st - 1)) as [->|Hkn]; [exact Hst|].
      unfold r2. rewrite !sget_insert_ne by lia. apply H4. lia.
    + intros _. exact Hen.
  - destruct (sget_Some _ _ _ Ea) as [_ La].
    destruct (sget_Some _ _ _ Ea') as [_ La'].
    destruct (sget_Some _ _ _ (H3 Es)) as [_ Ri].
    destruct (sget_Some _ _ _ (H4 (en - 1) ltac:(lia))) as [_ Rj].
    unfold r2. rewrite insert_comm by lia.
    apply (pres_swap ls r (Z.to_nat (st - 1)) (Z.to_nat (en - 1)) a false);
      try assumption; [lia|].
    intros k Hk.
    destruct (sget_Some _ _ _ (H4 (Z.of_nat k) ltac:(lia))) as [_ Rk].
    rewrite Nat2Z.id in Rk. exact Rk.
Qed.

Lemma slid_refl (s : indentheuristic.scanner) :
  grp_ok s -> indentheuristic.start s < indentheuristic.end_ s -> slid s s.
Proof. intros H1 H2. unfold slid. auto using pres_refl. Qed.

Lemma slid_trans (s1 s2 s3 : indentheuristic.scanner) :
  slid s1 s2 -> slid s2 s3 -> slid s1 s3.
Proof.
  unfold slid. intros (A1 & B1 & C1 & D1) (A2 & B2 & C2 & D2).
  rewrite C1 in D2. split; [exact A2|]. split; [exact B2|]. split; [congruence|].
  eapply pres_trans; eassumption.
Qed.

Lemma slide_up_all_ok (fuel : nat) :
  forall s so s' so', grp_ok s -> indentheuristic.start s < indentheuristic.end_ s ->
  indentheuristic.slide_up_all fuel s so = Some (s', so') -> slid s s'.
Proof.
  induction fuel as [|f IH]; intros s so s' so' Hs Hne H; simpl in H; [discriminate|].
  destruct (indentheuristic.slideGroupUp s) as [[b s1]|] eqn:E1; try discriminate.
  pose proof (slideGroupUp_ok _ _ _ Hs Hne E1) as Hsl.
  destruct b.
  - destruct (indentheuristic.prevGroup so) as [[b2 so1]|]; try discriminate.
    destruct b2; try discriminate.
    destruct Hsl as (G & N & L & P).
    eapply slid_trans; [|eapply IH; eassumption]. unfold slid; auto.
  - injection H as <- <-. apply slid_refl; assumption.
Qed.

Lemma slide_down_all_ok (fuel : nat) :
  forall s so me s' so' me', grp_ok s -> indentheuristic.start s < indentheuristic.end_ s ->
  indentheuristic.slide_down_all fuel s so me = Some (s', so', me') -> slid s s'.
Proof.
  induction fuel as [|f IH]; intros s so me s' so' me' Hs Hne H; simpl in H; [discriminate|].
  destruct (indentheuristic.slideGroupDown s) as [[b s1]|] eqn:E1; try discriminate.
  pose proof (slideGroupDown_ok _ _ _ Hs Hne E1) as Hsl.
  destruct b.
  - destruct (indentheuristic.nextGroup so) as [[b2 so1]|]; try discriminate.
    destruct b2; try discriminate.
    destruct Hsl as (G & N & L & P).
    eapply slid_trans; [|eapply IH; eassumption]. unfold slid; auto.
  - injection H as <- <- <-. apply slid_refl; assumption.
Qed.

Lemma grp_loop_ok (fuel : nat) :
  forall s so g me mi s' so' g' me' mi',
  grp_ok s -> indentheuristic.start s < indentheuristic.end_ s ->
  indentheuristic.grp_loop fuel s so g me mi = Some (s', so', g', me', mi') -> slid s s'.
Proof.
  induction fuel as [|f IH]; intros s so g me mi s' so' g' me' mi' Hs Hne H;
    cbn [indentheuristic.grp_loop] in H; [discriminate|].
  destruct (g =? indentheuristic.groupLen s).
  - injection H as <- <- <- <- <-. apply slid_refl; assumption.
  - destruct (indentheuristic.slide_up_all _ s so) as [[s1 so1]|] eqn:E1; try discriminate.
    pose proof (slide_up_all_ok _ _ _ _ _ Hs Hne E1) as S1.
    destruct (indentheuristic.slide_down_all _ s1 so1 _) as [[[s2 so2] me2]|] eqn:E2;
      try discriminate.
    destruct S1 as (G1 & N1 & L1 & P1).
    pose proof (slide_down_all_ok _ _ _ _ _ _ _ G1 N1 E2) as S2.
    destruct S2 as (G2 & N2 & L2 & P2).
    eapply slid_trans; [unfold slid; eauto|].
    eapply slid_trans; [unfold slid; eauto|].
    eapply IH; eassumption.
Qed.

Lemma align_loop_ok (fuel : nat) :
  forall s so s' so', grp_ok s -> indentheuristic.start s < indentheuristic.end_ s ->
  indentheuristic.align_loop fuel s so = Some (s', so') -> slid s s'.
Proof.
  induction fuel as [|f IH]; intros s so s' so' Hs Hne H; simpl in H; [discriminate|].
  destruct (indentheuristic.groupLen so =? 0).
  - destruct (indentheuristic.slideGroupUp s) as [[b s1]|] eqn:E1; try discriminate.
    destruct b; try discriminate.
    destruct (indentheuristic.prevGroup so) as [[b2 so1]|]; try discriminate.
    destruct b2; try discriminate.
    destruct (slideGroupUp_ok _ _ _ Hs Hne E1) as (G & N & L & P).
    eapply slid_trans; [unfold slid; eauto|]. eapply IH; eassumption.
  - injection H as <- <-. apply slid_refl; assumption.
Qed.

Lemma up_to_loop_ok (fuel : nat) :
  forall bs s so s' so', grp_ok s -> indentheuristic.start s < indentheuristic.end_ s ->
  indentheuristic.up_to_loop fuel bs s so = Some (s', so') -> slid s s'.
Proof.
  induction fuel as [|f IH]; intros bs s so s' so' Hs Hne H; simpl in H; [discriminate|].
  destruct (bs <? indentheuristic.end_ s).
  - destruct (indentheuristic.slideGroupUp s) as [[b s1]|] eqn:E1; try discriminate.
    destruct b; try discriminate.
    destruct (indentheuristic.prevGroup so) as [[b2 so1]|]; try discriminate.
    destruct b2; try discriminate.
    destruct (slideGroupUp_ok _ _ _ Hs Hne E1) as (G & N & L & P).
    eapply slid_trans; [unfold slid; eauto|]. eapply IH; eassumption.
  - injection H as <- <-. apply slid_refl; assumption.
Qed.

Lemma process_group_ok (s so s' so' : indentheuristic.scanner) :
  grp_ok s -> indentheuristic.start s < indentheuristic.end_ s ->
  indentheuristic.process_group s so = Some (s', so') -> slid s s'.
Proof.
  intros Hs Hne H. unfold indentheuristic.process_group in H.
  destruct (indentheuristic.grp_loop _ s so 0 (-1) _)
    as [[[[[s1 so1] g1] me1] mi1]|] eqn:E1; try discriminate.
  pose proof (grp_loop_ok _ _ _ _ _ _ _ _ _ _ _ Hs Hne E1) as S1.
  destruct S1 as (G1 & N1 & L1 & P1) eqn:ES1.
  destruct (mi1 =? indentheuristic.end_ s1).
  { injection H as <- <-. exact S1. }
  destruct (negb (me1 =? -1)).
  { eapply slid_trans; [exact S1|]. eapply align_loop_ok; eassumption. }
  destruct (indentheuristic.shift_loop _ _ _ _ _ _ _) as [[bs sc]|]; try discriminate.
  eapply slid_trans; [exact S1|]. eapply up_to_loop_ok; eassumption.
Qed.

Lemma groups_loop_ok (fuel : nat) :
  forall s so r', grp_ok s -> indentheuristic.groups_loop fuel s so = Some r' ->
  pres (indentheuristic.lines s) (indentheuristic.r s) r'.
Proof.
  induction fuel as [|f IH]; intros s so r' Hs H;
    cbn [indentheuristic.groups_loop] in H; [discriminate|].
  destruct (indentheuristic.nextGroup s) as [[b s1]|] eqn:E1; try discriminate.
  destruct (nextGroup_ok _ _ _ Hs E1) as (G1 & R1 & L1).
  rewrite <- R1, <- L1.
  destruct b.
  - destruct (indentheuristic.nextGroup so) as [[b2 so1]|]; try discriminate.
    destruct b2; try discriminate. simpl in H.
    destruct (indentheuristic.groupLen s1 =? 0) eqn:Eg.
    + eapply IH; eassumption.
    + destruct (indentheuristic.process_group s1 so1) as [[s2 so2]|] eqn:E2; try discriminate.
      assert (Hne : indentheuristic.start s1 < indentheuristic.end_ s1).
      { apply Z.eqb_neq in Eg. unfold indentheuristic.groupLen in Eg.
        destruct G1 as [[_ Hle] _]. lia. }
      destruct (process_group_ok _ _ _ _ G1 Hne E2) as (G2 & N2 & L2 & P2).
      eapply pres_trans; [exact P2|]. rewrite <- L2. eapply IH; eassumption.
  - destruct (indentheuristic.nextGroup so) as [[b2 so1]|]; try discriminate.
    destruct b2; try discriminate. injection H as <-. apply pres_refl.
Qed.

Lemma apply0_ok (ls lso : list ByteView) (r0 ro r' : list bool) :
  indentheuristic.apply0 ls lso r0 ro = Some r' -> pres ls r0 r'.
Proof.
  unfold indentheuristic.apply0. intros H.
  assert (G : grp_ok (indentheuristic.newScanner ls r0)).
  { unfold grp_ok; simpl; unfold zlen. repeat split; intros; try lia; exfalso; lia. }
  exact (groups_loop_ok _ _ _ _ G H).
Qed.

(** C8 (counterexample): on [indent_x] and [indent_y], the result vectors of
    [Diff] in the default mode change under a first [Apply] (in [ry]) and
    change again under a second one (in [rx]): the second application does
    not leave the vectors of the first one. *)
Lemma Apply_not_idempotent :
  Diff indent_x indent_y config_Default =
    Some ([true; true; false; false; true; true; true; false; true; false],
          [false; true; false; true; false; false]) /\
  indentheuristic.Apply indent_x indent_y
    [true; true; false; false; true; true; true; false; true; false]
    [false; true; false; true; false; false] =
    Some ([true; true; false; false; true; true; true; false; true; false],
          [false; true; false; false; true; false]) /\
  indentheuristic.Apply indent_x indent_y
    [true; true; false; false; true; true; true; false; true; false]
    [false; true; false; false; true; false] =
    Some ([true; true; false; true; true; true; false; false; true; false],
          [false; true; false; false; true; false]) /\
  ([true; true; false; true; true; true; false; false; true; false] <>
     [true; true; false; false; true; true; true; false; true; false]).
Proof. split; [|split; [|split]]; try (vm_compute; reflexivity). discriminate. Qed.

(** C8 (amended): [Apply] only slides change groups along equal lines. For
    all lines [x], [y] and vectors [rx], [ry], when [Apply(x, y, rx, ry)]
    returns [(rx', ry')], the vector [rx'] has the length of [rx], as many set
    bits, and keeps the same sequence of lines of [x]; likewise [ry'] for
    [ry] and [y]. So every application, the second one included, leaves a
    diff of [x] and [y] of the same size, but not necessarily the same
    vectors. *)
Theorem Apply_slides_groups (x y : list ByteView) (rx ry rx' ry' : list bool)
    (H : indentheuristic.Apply x y rx ry = Some (rx', ry')) :
  length rx' = length rx /\ count_true rx' = count_true rx /\ kept x rx' = kept x rx /\
  length ry' = length ry /\ count_true ry' = count_true ry /\ kept y ry' = kept y ry.
Proof.
  unfold indentheuristic.Apply in H.
  destruct (indentheuristic.apply0 x y rx ry) as [rx1|] eqn:E1; try discriminate.
  destruct (indentheuristic.apply0 y x ry rx1) as [ry1|] eqn:E2; try discriminate.
  injection H as <- <-.
  destruct (apply0_ok _ _ _ _ _ E1) as (A1 & B1 & C1).
  destruct (apply0_ok _ _ _ _ _ E2) as (A2 & B2 & C2).
  repeat split; assumption.
Qed.

(** Witness of C8, on the second application of the counterexample. *)
Lemma Apply_slides_groups_witness :
  indentheuristic.Apply indent_x indent_y
    [true; true; false; false; true; true; true; false; true; false]
    [false; true; false; false; true; false] =
    Some ([true; true; false; true; true; true; false; false; true; false],
          [false; true; false; false; true; false]) /\
  kept indent_x [true; true; false; true; true; true; false; false; true; false] =
    kept indent_x [true; true; false; false; true; true; true; false; true; false].
Proof.
  assert (E : indentheuristic.Apply indent_x indent_y
                [true; true; false; false; true; true; true; false; true; false]
                [false; true; false; false; true; false] =
              Some ([true; true; false; true; true; true; false; false; true; false],
                    [false; true; false; false; true; false])) by (vm_compute; reflexivity).
  split; [exact E|].
  destruct (Apply_slides_groups _ _ _ _ _ _ E) as (_ & _ & K & _). exact K.
Defined.

(** ** Further properties of the diff pipeline *)

Lemma sget_in {A} (l : list A) (i : Z) :
  0 <= i < zlen l -> exists a, sget l i = Some a.
Proof.
  unfold sget, zlen. intros Hi. replace (0 <=? i) with true by (symmetry; apply Z.leb_le; lia).
  destruct (l !! Z.to_nat i) eqn:E; [eauto|].
  apply lookup_ge_None in E. lia.
Qed.

Lemma eqat_in {T} (eq : T -> T -> bool) x y s t :
  0 <= s < zlen x -> 0 <= t < zlen y -> exists b, eqat eq x y s t = Some b.
Proof.
  intros Hs Ht. destruct (sget_in x s Hs) as [a Ha]. destruct (sget_in y t Ht) as [b Hb].
  unfold eqat. rewrite Ha, Hb. eauto.
Qed.

Section Bounds.
Context {T : Type} (eq : T -> T -> bool) (x y : list T).

Lemma strip_prefix_spec (f : nat) :
  forall smin tmin, 0 <= smin <= zlen x -> 0 <= tmin <= zlen y ->
  zlen x - smin <= Z.of_nat f ->
  exists s' t', strip_prefix eq x y f smin (zlen x) tmin (zlen y) = Some (s', t') /\
    smin <= s' <= zlen x /\ tmin <= t' <= zlen y /\ t' - s' = tmin - smin /\
    (forall i, smin <= i < s' -> eqat eq x y i (i + tmin - smin) = Some true) /\
    (s' < zlen x -> t' < zlen y -> eqat eq x y s' t' = Some false).
Proof.
  induction f as [|f IH]; intros smin tmin Hs Ht Hf; simpl.
  - exists smin, tmin. repeat split; intros; lia.
  - destruct ((smin <? zlen x) && (tmin <? zlen y)) eqn:E.
    + apply andb_true_iff in E. destruct E as [E1 E2]. apply Z.ltb_lt in E1, E2.
      destruct (eqat_in eq x y smin tmin ltac:(lia) ltac:(lia)) as [b Hb]. rewrite Hb.
      destruct b.
      * destruct (IH (smin + 1) (tmin + 1) ltac:(lia) ltac:(lia) ltac:(lia))
          as (s' & t' & H & H1 & H2 & H3 & H4 & H5).
        exists s', t'. rewrite H. repeat split; try lia; auto.
        intros i Hi. destruct (Z.eq_dec i smin) as [->|Hne].
        -- replace (smin + tmin - smin) with tmin by lia. exact Hb.
        -- replace (i + tmin - smin) with (i + (tmin + 1) - (smin + 1)) by lia. apply H4. lia.
      * exists smin, tmin. repeat split; intros; try lia; auto.
    + exists smin, tmin. repeat split; try lia;
      intros H1 H2; apply andb_false_iff in E; destruct E as [E|E]; apply Z.ltb_ge in E; lia.
Qed.

Lemma strip_suffix_spec (f : nat) :
  forall smin smax tmin tmax, 0 <= smin <= smax -> smax <= zlen x ->
  0 <= tmin <= tmax -> tmax <= zlen y -> smax - smin <= Z.of_nat f ->
  exists s' t', strip_suffix eq x y f smin smax tmin tmax = Some (s', t') /\
    smin <= s' <= smax /\ tmin <= t' <= tmax /\ smax - s' = tmax - t' /\
    (forall i, s' <= i < smax -> eqat eq x y i (i - s' + t') = Some true) /\
    (smin < s' -> tmin < t' -> eqat eq x y (s' - 1) (t' - 1) = Some false).
Proof.
  induction f as [|f IH]; intros smin smax tmin tmax Hs Hsx Ht Hty Hf; simpl.
  - exists smax, tmax. repeat split; intros; lia.
  - destruct ((smin <? smax) && (tmin <? tmax)) eqn:E.
    + apply andb_true_iff in E. destruct E as [E1 E2]. apply Z.ltb_lt in E1, E2.
      destruct (eqat_in eq x y (smax - 1) (tmax - 1) ltac:(lia) ltac:(lia)) as [b Hb].
      rewrite Hb. destruct b.
      * destruct (IH smin (smax - 1) tmin (tmax - 1) ltac:(lia) ltac:(lia) ltac:(lia)
          ltac:(lia) ltac:(lia)) as (s' & t' & H & H1 & H2 & H3 & H4 & H5).
        exists s', t'. rewrite H. repeat split; try lia; auto.
        intros i Hi. destruct (Z.eq_dec i (smax - 1)) as [->|Hne].
        -- replace (smax - 1 - s' + t') with (tmax - 1) by lia. exact Hb.
        -- apply H4. lia.
      * exists smax, tmax. repeat split; intros; try lia; auto.
    + exists smax, tmax. repeat split; try lia;
      intros H1 H2; apply andb_false_iff in E; destruct E as [E|E]; apply Z.ltb_ge in E; lia.
Qed.

End Bounds.

Lemma findChangeBounds_spec_gen {T} (eq : T -> T -> bool) (x y : list T) :
  exists smin smax tmin tmax,
    findChangeBounds eq x y = Some (smin, smax, tmin, tmax) /\
    0 <= smin <= smax /\ smax <= zlen x /\ 0 <= tmin <= tmax /\ tmax <= zlen y /\
    smin = tmin /\ zlen x - smax = zlen y - tmax /\
    (forall i, 0 <= i < smin -> eqat eq x y i i = Some true) /\
    (forall i, smax <= i < zlen x -> eqat eq x y i (i - smax + tmax) = Some true) /\
    (smin < smax -> tmin < tmax ->
       eqat eq x y smin tmin = Some false /\ eqat eq x y (smax - 1) (tmax - 1) = Some false).
Proof.
  unfold findChangeBounds.
  assert (Hx : 0 <= zlen x) by (unfold zlen; lia). assert (Hy : 0 <= zlen y) by (unfold zlen; lia).
  destruct (strip_prefix_spec eq x y (length x) 0 0 ltac:(lia) ltac:(lia) ltac:(unfold zlen; lia))
    as (s1 & t1 & Hp & P1 & P2 & P3 & P4 & P5).
  rewrite Hp.
  destruct (strip_suffix_spec eq x y (length x) s1 (zlen x) t1 (zlen y) ltac:(lia) ltac:(lia)
    ltac:(lia) ltac:(lia) ltac:(unfold zlen in *; lia))
    as (s2 & t2 & Hs & S1 & S2 & S3 & S4 & S5).
  rewrite Hs.
  exists s1, s2, t1, t2. repeat split; try lia.
  - intros i Hi. replace i with (i + 0 - 0) at 2 by lia. apply P4. lia.
  - intros i Hi. apply S4. lia.
  - apply P5; lia.
  - apply S5; lia.
Qed.

(** X1: [findChangeBounds] always succeeds; it strips the longest common prefix and then the longest common suffix of the rest, so [x[smin:smax]] and [y[tmin:tmax]] are the middles left, the prefix and the suffix agree element by element, and nonempty middles start and end with a mismatch. *)
Theorem findChangeBounds_spec {T} (eq : T -> T -> bool) (x y : list T) :
  exists smin smax tmin tmax,
    findChangeBounds eq x y = Some (smin, smax, tmin, tmax) /\
    0 <= smin <= smax /\ smax <= zlen x /\ 0 <= tmin <= tmax /\ tmax <= zlen y /\
    smin = tmin /\ zlen x - smax = zlen y - tmax /\
    (forall i, 0 <= i < smin -> eqat eq x y i i = Some true) /\
    (forall i, smax <= i < zlen x -> eqat eq x y i (i - smax + tmax) = Some true) /\
    (smin < smax -> tmin < tmax ->
       eqat eq x y smin tmin = Some false /\ eqat eq x y (smax - 1) (tmax - 1) = Some false).
Proof. eapply findChangeBounds_spec_gen; eassumption. Qed.

Lemma sset_length {A} (l l' : list A) i a : sset l i a = Some l' -> length l' = length l.
Proof. intros H. apply sset_Some in H as [_ ->]. apply length_insert. Qed.

Lemma mark_length (idx : list Z) (n : nat) :
  forall r r' t, mark idx r n t = Some r' -> length r' = length r.
Proof.
  induction n as [|n IH]; intros r r' t H; simpl in H; [injection H as <-; reflexivity|].
  destruct (sget idx t) as [i|]; [|discriminate].
  destruct (sset r i true) as [r1|] eqn:E; [|discriminate].
  rewrite (IH _ _ _ H). exact (sset_length _ _ _ _ E).
Qed.

Lemma compare_length {T} (eq : T -> T -> bool) (f : nat) :
  forall m m' smin smax tmin tmax opt,
  compare eq f m smin smax tmin tmax opt = Some m' ->
  length (m_rx m') = length (m_rx m) /\ length (m_ry m') = length (m_ry m).
Proof.
  induction f as [|f IH]; intros m m' smin smax tmin tmax opt H; simpl in H; [discriminate|].
  destruct (smin =? smax).
  - destruct (mark _ _ _ _) as [ry|] eqn:E; [|discriminate]. injection H as <-.
    apply mark_length in E. simpl. auto.
  - destruct (tmin =? tmax).
    + destruct (mark _ _ _ _) as [rx|] eqn:E; [|discriminate]. injection H as <-.
      apply mark_length in E. simpl. auto.
    + destruct (split _ _ _ _ _ _ _ _ _ _ _ _ _) as [[[vf vb] r]|]; [|discriminate].
      destruct (compare eq f _ _ _ _ _ _) as [m1|] eqn:E1; [|discriminate].
      apply IH in E1. apply IH in H. simpl in E1. destruct E1, H. split; congruence.
Qed.

Lemma init_r {T} (eq : T -> T -> bool) x y xi yi rx ry m b :
  init eq x y xi yi (Some (rx, ry)) = Some (m, b) -> m_rx m = rx /\ m_ry m = ry.
Proof.
  unfold init. destruct (findChangeBounds eq x y) as [[[[? ?] ?] ?]|]; [|discriminate].
  generalize (cost_loop 64). intros cl.
  destruct xi, yi; intros H; injection H as <- _; split; reflexivity.
Qed.

Lemma pp_step2_length {T} `{Countable T} (ys : list T) :
  forall t idx counts ry yr y0r counts' ry' yr' y0r',
  pp_step2 ys t idx counts ry yr y0r = Some (counts', ry', yr', y0r') -> length ry' = length ry.
Proof.
  induction ys as [|e ys IH]; intros t idx counts ry yr y0r counts' ry' yr' y0r' Hs; simpl in Hs.
  - injection Hs; intros; subst; reflexivity.
  - destruct (idx !! e) as [id|].
    + destruct (sget counts id) as [c|]; [|discriminate].
      destruct (if c <? 8 then _ else _) as [cs|]; [|discriminate]. exact (IH _ _ _ _ _ _ _ _ _ _ Hs).
    + destruct (sset ry t true) as [ry1|] eqn:E; [|discriminate].
      rewrite (IH _ _ _ _ _ _ _ _ _ _ Hs). exact (sset_length _ _ _ _ E).
Qed.

Lemma pp_step3_length x0 :
  forall s counts rx xr x0r na rx' xr' x0r' na',
  pp_step3 x0 s counts rx xr x0r na = Some (rx', xr', x0r', na') -> length rx' = length rx.
Proof.
  induction x0 as [|e x0 IH]; intros s counts rx xr x0r na rx' xr' x0r' na' Hs; simpl in Hs.
  - injection Hs; intros; subst; reflexivity.
  - destruct (sget counts e) as [c|]; [|discriminate].
    destruct (4 <? c); [exact (IH _ _ _ _ _ _ _ _ _ _ Hs)|].
    destruct (sset rx s true) as [rx1|] eqn:E; [|discriminate].
    rewrite (IH _ _ _ _ _ _ _ _ _ _ Hs). exact (sset_length _ _ _ _ E).
Qed.

Lemma preprocess_length {T} `{Countable T} rx ry smin smax tmin tmax (x y : list T) p :
  preprocess rx ry smin smax tmin tmax x y = Some p ->
  length (p_rx p) = length rx /\ length (p_ry p) = length ry.
Proof.
  unfold preprocess.
  destruct (pp_step1 _ _ _ _) as [[[idx counts] x0r]|]; [|discriminate].
  destruct (pp_step2 _ _ _ _ _ _ _) as [[[[counts' ry'] yr] y0r]|] eqn:E2; [|discriminate].
  destruct (pp_step3 _ _ _ _ _ _ _) as [[[[rx' xr] x0r'] na]|] eqn:E3; [|discriminate].
  intros Hp; injection Hp as <-. simpl.
  apply pp_step2_length in E2. apply pp_step3_length in E3. auto.
Qed.

Lemma default_anchor_loop_length m x0 y0 smax0 tmax0 anchors :
  forall done m', default_anchor_loop m x0 y0 smax0 tmax0 anchors done = Some m' ->
  length (m_rx m') = length (m_rx m) /\ length (m_ry m') = length (m_ry m).
Proof.
  revert m; induction anchors as [|a anchors IH]; intros m done m' Hl;
    cbn [default_anchor_loop] in Hl.
  - injection Hl as <-. auto.
  - destruct (a.1 <? done.1); [exact (IH _ _ _ Hl)|].
    destruct (bsnake _ _ _ _ _ _ _ _) as [st|]; [|discriminate].
    destruct (fsnake _ _ _ _ _ _ _ _) as [en|]; [|discriminate].
    destruct (compare Z.eqb _ _ _ _ _ _ _) as [m1|] eqn:E; [|discriminate].
    apply compare_length in E.
    destruct ((smax0 <=? en.1) && (tmax0 <=? en.2)).
    + injection Hl as <-. exact E.
    + apply IH in Hl. destruct E, Hl. split; congruence.
Qed.

Lemma fast_anchor_loop_length rx ry x0 y0 xidx yidx smax0 tmax0 anchors :
  forall done rx' ry', fast_anchor_loop rx ry x0 y0 xidx yidx smax0 tmax0 anchors done = Some (rx', ry') ->
  length rx' = length rx /\ length ry' = length ry.
Proof.
  revert rx ry; induction anchors as [|a anchors IH]; intros rx ry done rx' ry' Hl;
    cbn [fast_anchor_loop] in Hl.
  - injection Hl as <- <-. auto.
  - destruct (a.1 <? done.1); [exact (IH _ _ _ _ _ Hl)|].
    destruct (bsnake _ _ _ _ _ _ _ _) as [st|]; [|discriminate].
    destruct (fsnake _ _ _ _ _ _ _ _) as [en|]; [|discriminate].
    destruct (mark xidx rx _ _) as [rx1|] eqn:E1; [|discriminate].
    destruct (mark yidx ry _ _) as [ry1|] eqn:E2; [|discriminate].
    apply mark_length in E1. apply mark_length in E2.
    destruct ((smax0 <=? en.1) && (tmax0 <=? en.2)).
    + injection Hl as <- <-. auto.
    + apply IH in Hl. destruct Hl. split; congruence.
Qed.

Lemma handleTrivialBounds_length rx ry smin smax tmin tmax b rx' ry' :
  handleTrivialBounds rx ry smin smax tmin tmax = Some (b, rx', ry') ->
  length rx' = length rx /\ length ry' = length ry.
Proof.
  unfold handleTrivialBounds.
  destruct (negb (smin =? smax) && (tmin =? tmax)).
  { destruct (mark _ rx _ _) as [r|] eqn:E; [|discriminate]. intros Hh; injection Hh as <- <- <-.
    apply mark_length in E. auto. }
  destruct ((smin =? smax) && negb (tmin =? tmax)).
  { destruct (mark _ ry _ _) as [r|] eqn:E; [|discriminate]. intros Hh; injection Hh as <- <- <-.
    apply mark_length in E. auto. }
  destruct ((smin =? smax) && (tmin =? tmax)); intros Hh; injection Hh as <- <- <-; auto.
Qed.

Lemma Diff_result_lengths_gen {T} `{Countable T} (x y : list T) cfg rx ry
  (HD : Diff x y cfg = Some (rx, ry)) :
  length rx = S (length x) /\ length ry = S (length y).
Proof.
  unfold Diff, diff_prep, rvecs_make in HD.
  destruct (findChangeBounds teq x y) as [[[[smin smax] tmin] tmax]|]; [|discriminate].
  destruct (handleTrivialBounds _ _ _ _ _ _) as [[[triv rx1] ry1]|] eqn:Eh; [|discriminate].
  apply handleTrivialBounds_length in Eh. rewrite !repeat_length in Eh.
  destruct triv.
  { injection HD as <- <-. lia. }
  destruct (preprocess _ _ _ _ _ _ _ _) as [p|] eqn:Ep; [|discriminate].
  apply preprocess_length in Ep.
  assert (Hp : length (p_rx p) = S (length x) /\ length (p_ry p) = S (length y)) by lia.
  clear Ep Eh. destruct Hp as [Hp1 Hp2].
  destruct (CMode cfg).
  - unfold diffDefault in HD.
    destruct (init _ _ _ _ _ _) as [[m [[[s0 s1] t0] t1]]|] eqn:Ei; [|discriminate].
    apply init_r in Ei. destruct Ei as [Er Es].
    destruct (_ || _).
    + destruct (segments _ _ _ _ _ _ _ _) as [[|d segs]|]; try discriminate.
      destruct (default_anchor_loop _ _ _ _ _ _ _) as [m'|] eqn:El; [|discriminate].
      injection HD as <- <-. apply default_anchor_loop_length in El. destruct El. split; congruence.
    + destruct (compare _ _ _ _ _ _ _ _) as [m'|] eqn:Ec; [|discriminate].
      injection HD as <- <-. apply compare_length in Ec. destruct Ec. split; congruence.
  - unfold diffMinimal in HD.
    destruct (init _ _ _ _ _ _) as [[m [[[s0 s1] t0] t1]]|] eqn:Ei; [|discriminate].
    apply init_r in Ei. destruct Ei as [Er Es].
    destruct (compare _ _ _ _ _ _ _ _) as [m'|] eqn:Ec; [|discriminate].
    injection HD as <- <-. apply compare_length in Ec. destruct Ec. split; congruence.
  - unfold diffFast in HD.
    destruct (findChangeBounds _ _ _) as [[[[s0 s1] t0] t1]|]; [|discriminate].
    destruct (segments _ _ _ _ _ _ _ _) as [[|d segs]|]; try discriminate.
    apply fast_anchor_loop_length in HD. destruct HD. split; congruence.
Qed.

Lemma iota_z_sget (K t : nat) : (t < K)%nat -> sget (iota_z K) (Z.of_nat t) = Some (Z.of_nat t).
Proof.
  intros Ht. unfold sget, iota_z.
  replace (0 <=? Z.of_nat t) with true by (symmetry; apply Z.leb_le; lia).
  rewrite Nat2Z.id, list_lookup_fmap, lookup_seq_lt by exact Ht. reflexivity.
Qed.

Lemma insert_repeat_front (t k : nat) :
  <[t := true]> (repeat true t ++ false :: repeat false k) = repeat true (S t) ++ repeat false k.
Proof. induction t as [|t IH]; [reflexivity|]. simpl in *. rewrite IH. reflexivity. Qed.

Lemma mark_iota_front (K n : nat) :
  forall t k, (t + n + k <= K)%nat ->
  mark (iota_z K) (repeat true t ++ repeat false (n + k)) n (Z.of_nat t)
    = Some (repeat true (t + n) ++ repeat false k).
Proof.
  induction n as [|n IH]; intros t k Hk.
  - simpl. rewrite Nat.add_0_r. reflexivity.
  - cbn [mark]. rewrite iota_z_sget by lia.
    unfold sset. replace (0 <=? Z.of_nat t) with true by (symmetry; apply Z.leb_le; lia).
    rewrite Nat2Z.id.
    replace (S n + k)%nat with (S (n + k)) by lia.
    cbn [repeat]. rewrite lookup_app_r, repeat_length, Nat.sub_diag by (rewrite repeat_length; lia).
    cbn [lookup list_lookup]. rewrite insert_repeat_front.
    replace (Z.of_nat t + 1) with (Z.of_nat (S t)) by lia.
    rewrite IH by lia. f_equal. f_equal. f_equal. lia.
Qed.

Lemma Diff_identical_gen {T} `{Countable T} (x : list T) (cfg : Config) :
  Diff x x cfg = Some (repeat false (S (length x)), repeat false (S (length x))).
Proof.
  unfold Diff, diff_prep, rvecs_make.
  destruct (findChangeBounds_spec_gen teq x x)
    as (smin & smax & tmin & tmax & Hf & H1 & H2 & H3 & H4 & H5 & H6 & _ & _ & H9).
  rewrite Hf.
  assert (Hs : smin = smax).
  { destruct (Z.lt_ge_cases smin smax) as [Hlt|Hge]; [|lia].
    destruct (H9 Hlt ltac:(lia)) as [Hb _]. subst tmin.
    destruct (sget_in x smin ltac:(lia)) as [a Ha].
    unfold eqat in Hb. rewrite Ha in Hb. unfold teq in Hb. rewrite bool_decide_eq_true_2 in Hb
      by reflexivity. discriminate. }
  assert (Ht : tmin = tmax) by lia.
  subst smax tmax. unfold handleTrivialBounds. rewrite !Z.eqb_refl. simpl.
  rewrite Nat.add_1_r. reflexivity.
Qed.

(** X3: for [int] elements, where [==] is reflexive, [Diff x x] marks
    nothing: both vectors are all [false]. *)
Theorem Diff_identical (x : list Z) (cfg : Config) :
  Diff x x cfg = Some (repeat false (S (length x)), repeat false (S (length x))).
Proof. apply Diff_identical_gen. Qed.

(** X4: [Diff] against an empty side marks every element of the other side, and only the sentinel stays [false]. *)
Theorem Diff_one_side_empty {T} `{Countable T} (x y : list T) (cfg : Config) :
  Diff x [] cfg = Some (repeat true (length x) ++ [false], [false]) /\
  Diff [] y cfg = Some ([false], repeat true (length y) ++ [false]).
Proof.
  split; unfold Diff, diff_prep, rvecs_make.
  - destruct (findChangeBounds_spec_gen teq x [])
      as (smin & smax & tmin & tmax & Hf & H1 & H2 & H3 & H4 & H5 & H6 & _).
    unfold zlen in *. simpl in *.
    assert (tmin = 0 /\ tmax = 0 /\ smin = 0 /\ smax = Z.of_nat (length x)) as (-> & -> & -> & ->)
      by lia.
    rewrite Hf. unfold handleTrivialBounds.
    destruct (0 =? Z.of_nat (length x)) eqn:E; simpl.
    + apply Z.eqb_eq in E. destruct x; [reflexivity|simpl in E; lia].
    + rewrite repeat_length.
      pose proof (mark_iota_front (S (length x)) (length x) 0 1 ltac:(lia)) as Hm.
      simpl in Hm. replace (length x + 1)%nat with (S (length x)) in Hm by lia.
      change (Z.of_nat 0) with 0 in Hm.
      rewrite Z.sub_0_r, Nat2Z.id, !Nat.add_1_r, Hm. reflexivity.
  - destruct (findChangeBounds_spec_gen teq [] y)
      as (smin & smax & tmin & tmax & Hf & H1 & H2 & H3 & H4 & H5 & H6 & _).
    rewrite Hf. clear Hf. unfold zlen in *. simpl in *.
    assert (smin = 0 /\ smax = 0 /\ tmin = 0 /\ tmax = Z.of_nat (length y)) as (-> & -> & -> & ->)
      by lia.
    unfold handleTrivialBounds. rewrite Z.eqb_refl.
    destruct (0 =? Z.of_nat (length y)) eqn:E; cbn [negb andb].
    + apply Z.eqb_eq in E. destruct y; [reflexivity|simpl in E; lia].
    + rewrite repeat_length.
      pose proof (mark_iota_front (S (length y)) (length y) 0 1 ltac:(lia)) as Hm.
      simpl in Hm. replace (length y + 1)%nat with (S (length y)) in Hm by lia.
      change (Z.of_nat 0) with 0 in Hm.
      rewrite Z.sub_0_r, Nat2Z.id, !Nat.add_1_r, Hm. reflexivity.
Qed.

Lemma slice_cons {A} (l : list A) (s hi : Z) (a : A) :
  sget l s = Some a -> s < hi -> slice l s hi = a :: slice l (s + 1) hi.
Proof.
  intros Ha Hs. apply sget_Some in Ha as [Hr Ha]. unfold slice.
  rewrite (drop_S _ _ _ Ha).
  replace (Z.to_nat (hi - s)) with (S (Z.to_nat (hi - (s + 1)))) by lia.
  replace (Z.to_nat (s + 1)) with (S (Z.to_nat s)) by lia. reflexivity.
Qed.

Lemma slice_nil {A} (l : list A) (s hi : Z) : hi <= s -> slice l s hi = [].
Proof. intros H. unfold slice. replace (Z.to_nat (hi - s)) with 0%nat by lia. reflexivity. Qed.

Section EditsSides.
Context {T : Type} (zero : T).
Variables (x y : list T) (rx ry : list bool) (n m : Z).

Local Abbreviation XS := (xs_inv x rx n).
Local Abbreviation YS := (ys_inv y ry m).

Lemma del_run_sides f : forall s s' es, del_run zero x rx n f s = Some (s', es) ->
  XS es s s' /\ yside es = [].
Proof.
  induction f as [|f IH]; intros s s' es H; simpl in H;
    [injection H as <- <-; unfold xs_inv; auto|].
  destruct (s <? n) eqn:En; [|injection H as <- <-; unfold xs_inv; auto].
  apply Z.ltb_lt in En.
  destruct (sget rx s) as [b|] eqn:Eb; [|discriminate].
  destruct b; [|injection H as <- <-; unfold xs_inv; auto].
  destruct (sget x s) as [a|] eqn:Ea; [|discriminate].
  destruct (del_run zero x rx n f (s + 1)) as [[s1 es1]|] eqn:E; [|discriminate].
  injection H as <- <-. destruct (IH _ _ _ E) as [[H1 H1'] H2]. simpl. split; [|exact H2].
  unfold xs_inv in *. rewrite (slice_cons rx s n true Eb En), (slice_cons x s n a Ea En).
  simpl. rewrite H1, H1'. auto.
Qed.

Lemma ins_run_sides f : forall t t' es, ins_run zero y ry m f t = Some (t', es) ->
  YS es t t' /\ xside es = [].
Proof.
  induction f as [|f IH]; intros t t' es H; simpl in H;
    [injection H as <- <-; unfold ys_inv; auto|].
  destruct (t <? m) eqn:En; [|injection H as <- <-; unfold ys_inv; auto].
  apply Z.ltb_lt in En.
  destruct (sget ry t) as [b|] eqn:Eb; [|discriminate].
  destruct b; [|injection H as <- <-; unfold ys_inv; auto].
  destruct (sget y t) as [a|] eqn:Ea; [|discriminate].
  destruct (ins_run zero y ry m f (t + 1)) as [[t1 es1]|] eqn:E; [|discriminate].
  injection H as <- <-. destruct (IH _ _ _ E) as [[H1 H1'] H2]. simpl. split; [|exact H2].
  unfold ys_inv in *. rewrite (slice_cons ry t m true Eb En), (slice_cons y t m a Ea En).
  simpl. rewrite H1, H1'. auto.
Qed.

Lemma match_run_sides f : forall s t s' t' es, match_run x y rx ry n m f s t = Some (s', t', es) ->
  XS es s s' /\ YS es t t'.
Proof.
  induction f as [|f IH]; intros s t s' t' es H; simpl in H;
    [injection H as <- <- <-; unfold xs_inv, ys_inv; auto|].
  destruct ((s <? n) && (t <? m)) eqn:En; [|injection H as <- <- <-; unfold xs_inv, ys_inv; auto].
  apply andb_true_iff in En. destruct En as [Es Et]. apply Z.ltb_lt in Es, Et.
  destruct (sget rx s) as [bx|] eqn:Ebx; [|discriminate].
  destruct bx; [injection H as <- <- <-; unfold xs_inv, ys_inv; auto|].
  destruct (sget ry t) as [bY|] eqn:Eby; [|discriminate].
  destruct bY; [injection H as <- <- <-; unfold xs_inv, ys_inv; auto|].
  destruct (sget x s) as [a|] eqn:Ea; [|discriminate].
  destruct (sget y t) as [b|] eqn:Eb; [|discriminate].
  destruct (match_run x y rx ry n m f (s + 1) (t + 1)) as [[[s1 t1] es1]|] eqn:E; [|discriminate].
  injection H as <- <- <-. destruct (IH _ _ _ _ _ E) as [[H1 H1'] [H2 H2']]. simpl.
  unfold xs_inv, ys_inv in *.
  rewrite (slice_cons rx s n false Ebx Es), (slice_cons x s n a Ea Es).
  rewrite (slice_cons ry t m false Eby Et), (slice_cons y t m b Eb Et).
  simpl. rewrite H1, H1', H2, H2'. auto.
Qed.

Lemma edits_loop_sides f : forall s t es, edits_loop zero x y rx ry n m f s t = Some es ->
  map fst (xside es) = slice rx s n /\ map snd (xside es) = slice x s n /\
  map fst (yside es) = slice ry t m /\ map snd (yside es) = slice y t m.
Proof.
  assert (Hx : forall a b : list (Edit T), xside (a ++ b) = xside a ++ xside b)
    by (intros; apply flat_map_app).
  assert (Hy : forall a b : list (Edit T), yside (a ++ b) = yside a ++ yside b)
    by (intros; apply flat_map_app).
  induction f as [|f IH]; intros s t es H; simpl in H; [discriminate|].
  destruct ((s <? n) || (t <? m)) eqn:Ec.
  - destruct (del_run zero x rx n _ s) as [[s1 e1]|] eqn:E1; [|discriminate].
    destruct (ins_run zero y ry m _ t) as [[t1 e2]|] eqn:E2; [|discriminate].
    destruct (match_run x y rx ry n m _ s1 t1) as [[[s2 t2] e3]|] eqn:E3; [|discriminate].
    destruct (edits_loop zero x y rx ry n m f s2 t2) as [rest|] eqn:E4; [|discriminate].
    injection H as <-.
    apply del_run_sides in E1. apply ins_run_sides in E2. apply match_run_sides in E3.
    apply IH in E4.
    destruct E1 as [[A1 A1'] B1], E2 as [[A2 A2'] B2], E3 as [[A3 A3'] [B3 B3']],
      E4 as [C1 [C2 [C3 C4]]].
    rewrite !Hx, !Hy, B1, B2. simpl. rewrite !map_app.
    rewrite C1, C2, C3, C4, A3, A3', B3, B3', A1, A1', A2, A2'. auto.
  - injection H as <-. apply orb_false_iff in Ec. destruct Ec as [Es Et].
    apply Z.ltb_ge in Es, Et. rewrite !slice_nil by lia. auto.
Qed.

End EditsSides.

Lemma xside_matches {T} (es : list (Edit T)) :
  length (List.filter negb (map fst (xside es))) = length (List.filter is_match es).
Proof.
  induction es as [|[o a b] es IH]; [reflexivity|].
  destruct o; simpl; rewrite ?IH; reflexivity.
Qed.

Lemma yside_matches {T} (es : list (Edit T)) :
  length (List.filter negb (map fst (yside es))) = length (List.filter is_match es).
Proof.
  induction es as [|[o a b] es IH]; [reflexivity|].
  destruct o; simpl; rewrite ?IH; reflexivity.
Qed.

Lemma edits_sides_gen {T} (zero : T) (x y : list T) (rx ry : list bool) (es : list (Edit T))
  (H : edits zero x y rx ry = Some es) :
  map fst (xside es) = slice rx 0 (zlen rx - 1) /\ map snd (xside es) = slice x 0 (zlen rx - 1) /\
  map fst (yside es) = slice ry 0 (zlen ry - 1) /\ map snd (yside es) = slice y 0 (zlen ry - 1).
Proof. exact (edits_loop_sides zero x y rx ry _ _ _ 0 0 es H). Qed.

(** X5: the edits of [edits] read, on the [x] side (deletes and matches), exactly [rx] and [x] up to the sentinel, and on the [y] side (inserts and matches) exactly [ry] and [y]. *)
Theorem edits_sides {T} (zero : T) (x y : list T) (rx ry : list bool) (es : list (Edit T))
  (H : edits zero x y rx ry = Some es) :
  map fst (xside es) = slice rx 0 (zlen rx - 1) /\ map snd (xside es) = slice x 0 (zlen rx - 1) /\
  map fst (yside es) = slice ry 0 (zlen ry - 1) /\ map snd (yside es) = slice y 0 (zlen ry - 1).
Proof. eapply edits_sides_gen; eassumption. Qed.

Lemma edits_sides_witness :
  exists es, edits 0 [1; 2] [2; 3] [true; false; false] [false; true; false] = Some es /\
  map fst (xside es) = slice [true; false; false] 0 (zlen [true; false; false] - 1) /\
  map snd (xside es) = slice [1; 2] 0 (zlen [true; false; false] - 1) /\
  map fst (yside es) = slice [false; true; false] 0 (zlen [false; true; false] - 1) /\
  map snd (yside es) = slice [2; 3] 0 (zlen [false; true; false] - 1).
Proof.
  eexists. split; [vm_compute; reflexivity|].
  apply (edits_sides 0). vm_compute. reflexivity.
Defined.

(** X6: when [edits] returns, [rx] and [ry] have the same number of
    [false] entries before their sentinels. With unequal counts the Go loop
    reaches a state where none of its inner loops advances and never returns;
    the model, whose fuel covers every run that advances, returns no result
    there. *)
Theorem edits_equal_unchanged {T} (zero : T) (x y : list T) (rx ry : list bool)
  (es : list (Edit T)) (H : edits zero x y rx ry = Some es) :
  length (List.filter negb (slice rx 0 (zlen rx - 1))) = length (List.filter negb (slice ry 0 (zlen ry - 1))).
Proof.
  destruct (edits_loop_sides zero x y rx ry _ _ _ 0 0 es H) as [H1 [_ [H3 _]]].
  rewrite <- H1, <- H3, xside_matches, yside_matches. reflexivity.
Qed.

Lemma edits_equal_unchanged_witness :
  exists es, edits 0 [1; 2] [2; 3] [true; false; false] [false; true; false] = Some es /\
  length (List.filter negb (slice [true; false; false] 0 (zlen [true; false; false] - 1))) =
  length (List.filter negb (slice [false; true; false] 0 (zlen [false; true; false] - 1))).
Proof.
  eexists. split; [vm_compute; reflexivity|].
  eapply (edits_equal_unchanged 0 [1; 2] [2; 3]). vm_compute. reflexivity.
Defined.

Lemma hunks_conv_sides {T} (zero : T) (x y : list T) (rx ry : list bool) :
  forall hs hs', hunks_conv zero x y rx ry hs = Some hs' ->
  forall h', h' ∈ hs' -> exists h, h ∈ hs /\
    PosX h' = rvecs.S0 h /\ EndX h' = rvecs.S1 h /\ PosY h' = rvecs.T0 h /\ EndY h' = rvecs.T1 h /\
    map fst (xside (HEdits h')) = slice rx (PosX h') (EndX h') /\
    map snd (xside (HEdits h')) = slice x (PosX h') (EndX h') /\
    map fst (yside (HEdits h')) = slice ry (PosY h') (EndY h') /\
    map snd (yside (HEdits h')) = slice y (PosY h') (EndY h').
Proof.
  induction hs as [|h hs IH]; intros hs' H h' Hin; cbn [hunks_conv] in H.
  - injection H as <-. apply elem_of_nil in Hin. contradiction.
  - destruct (edits_loop _ _ _ _ _ _ _ _ _ _) as [es|] eqn:E; [|discriminate].
    destruct (hunks_conv zero x y rx ry hs) as [rest|] eqn:Er; [|discriminate].
    injection H as <-. apply elem_of_cons in Hin. destruct Hin as [->|Hin].
    + exists h. split; [apply elem_of_cons; left; reflexivity|]. simpl.
      destruct (edits_loop_sides zero x y rx ry _ _ _ _ _ es E) as (A & B & C & D).
      auto 10.
    + destruct (IH _ eq_refl h' Hin) as (h0 & Hh0 & R).
      exists h0. split; [apply elem_of_cons; right; exact Hh0|exact R].
Qed.

Lemma true_run_bounds (r : list bool) (lim : Z) (f : nat) (i i' : Z) :
  rvecs.true_run r lim f i = Some i' -> i <= lim -> i <= i' <= lim.
Proof.
  revert i; induction f as [|f IH]; intros i H Hi; simpl in H.
  - injection H; lia.
  - destruct (i <? lim) eqn:E; [|injection H; lia]. apply Z.ltb_lt in E.
    destruct (sget r i) as [[|]|]; try discriminate.
    + apply IH in H; lia.
    + injection H; lia.
Qed.

Lemma true_run_adv (r : list bool) (lim : Z) (f : nat) (i i' : Z) :
  rvecs.true_run r lim (S f) i = Some i' -> i < lim -> sget r i = Some true -> i < i'.
Proof.
  intros H Hi Hr. simpl in H. apply Z.ltb_lt in Hi. rewrite Hi, Hr in H.
  apply true_run_bounds in H; [|lia]. apply Z.ltb_lt in Hi. lia.
Qed.

Section HunkCover.
Variables (rx ry : list bool) (c : Z).
Hypothesis Hc : 0 <= c.
Hypothesis Hsx : sget rx (rvecs.n rx) = Some false.
Hypothesis Hsy : sget ry (rvecs.m ry) = Some false.

Lemma false_run_spec (f : nat) : forall s t k,
  rvecs.false_run rx ry f s t = Some k -> s <= rvecs.n rx -> t <= rvecs.m ry ->
  0 <= k /\ s + k <= rvecs.n rx /\ t + k <= rvecs.m ry /\
  (forall j, s <= j < s + k -> sget rx j = Some false) /\
  (forall j, t <= j < t + k -> sget ry j = Some false).
Proof.
  induction f as [|f IH]; intros s t k H Hs Ht; simpl in H.
  - injection H as <-. repeat split; intros; lia.
  - destruct ((s <? rvecs.n rx) && (t <? rvecs.m ry)) eqn:E;
      [|injection H as <-; repeat split; intros; lia].
    apply andb_true_iff in E. destruct E as [E1 E2]. apply Z.ltb_lt in E1, E2.
    destruct (sget rx s) as [[|]|] eqn:Ex; try discriminate;
      [injection H as <-; repeat split; intros; lia|].
    destruct (sget ry t) as [[|]|] eqn:Ey; try discriminate;
      [injection H as <-; repeat split; intros; lia|].
    destruct (rvecs.false_run rx ry f (s + 1) (t + 1)) as [k'|] eqn:Ek; try discriminate.
    injection H as <-. destruct (IH _ _ _ Ek ltac:(lia) ltac:(lia)) as (A & B & C & D & F).
    repeat split; try lia.
    + intros j Hj. destruct (Z.eq_dec j s) as [->|]; [exact Ex|]. apply D; lia.
    + intros j Hj. destruct (Z.eq_dec j t) as [->|]; [exact Ey|]. apply F; lia.
Qed.

Lemma hunks_step_cover s t s0 t0 d run s' t' s0' t0' d' run' :
  rvecs.hunks_step rx ry c s t s0 t0 d run = Some (s', t', s0', t0', d', run') ->
  0 <= s <= rvecs.n rx -> 0 <= t <= rvecs.m ry -> 0 <= run -> pending rx ry s t s0 t0 run ->
  0 <= s' <= rvecs.n rx /\ 0 <= t' <= rvecs.m ry /\ 0 <= run' /\ pending rx ry s' t' s0' t0' run' /\
  (forall k, todo_x rx s s0 run k -> todo_x rx s' s0' run' k) /\
  (forall k, todo_y ry t s0 t0 run k -> todo_y ry t' s0' t0' run' k).
Proof.
  intros H Hs Ht Hr Hp. unfold rvecs.hunks_step, rvecs.is_edit in H.
  unfold pending, todo_x, todo_y in *.
  destruct (sget rx s) as [bx|] eqn:Ex; [|discriminate].
  assert (Hsn : bx = true -> s < rvecs.n rx).
  { intros ->. destruct (Z.eq_dec s (rvecs.n rx)) as [Es|]; [|lia].
    rewrite Es, Hsx in Ex. discriminate. }
  destruct bx.
  - (* rx[s] is set *)
    specialize (Hsn eq_refl).
    destruct (s0 <? 0) eqn:Es0.
    + apply Z.ltb_lt in Es0.
      destruct (rvecs.true_run rx _ (Z.to_nat (rvecs.n rx - s)) s) as [s1|] eqn:E1; [|discriminate].
      destruct (rvecs.true_run ry _ _ t) as [t1|] eqn:E2; [|discriminate].
      injection H as <- <- <- <- <- <-.
      assert (A1 : s < s1).
      { replace (Z.to_nat (rvecs.n rx - s)) with (S (Z.to_nat (rvecs.n rx - s - 1))) in E1 by lia.
        exact (true_run_adv _ _ _ _ _ E1 Hsn Ex). }
      apply true_run_bounds in E1; [|lia]. apply true_run_bounds in E2; [|lia].
      split; [lia|]. split; [lia|]. split; [lia|]. split.
      * intros _. split; [lia|]. split; [lia|]. exists s. left. split; [lia|exact Ex].
      * split.
        -- intros k [[Hk Hkr]|Hk]; [|lia].
           destruct (Z.lt_ge_cases k s1); [right; lia|left; split; [lia|exact Hkr]].
        -- intros k [[Hk Hkr]|Hk]; [|lia].
           destruct (Z.lt_ge_cases k t1); [right; lia|left; split; [lia|exact Hkr]].
    + apply Z.ltb_ge in Es0.
      destruct (rvecs.true_run rx _ (Z.to_nat (rvecs.n rx - s)) s) as [s1|] eqn:E1; [|discriminate].
      destruct (rvecs.true_run ry _ _ t) as [t1|] eqn:E2; [|discriminate].
      injection H as <- <- <- <- <- <-.
      assert (A1 : s < s1).
      { replace (Z.to_nat (rvecs.n rx - s)) with (S (Z.to_nat (rvecs.n rx - s - 1))) in E1 by lia.
        exact (true_run_adv _ _ _ _ _ E1 Hsn Ex). }
      apply true_run_bounds in E1; [|lia]. apply true_run_bounds in E2; [|lia].
      destruct (Hp Es0) as (P1 & P2 & _).
      split; [lia|]. split; [lia|]. split; [lia|]. split.
      * intros _. split; [lia|]. split; [lia|]. exists s. left. split; [lia|exact Ex].
      * split.
        -- intros k [[Hk Hkr]|Hk].
           ++ destruct (Z.lt_ge_cases k s1); [right; lia|left; split; [lia|exact Hkr]].
           ++ right; lia.
        -- intros k [[Hk Hkr]|Hk].
           ++ destruct (Z.lt_ge_cases k t1); [right; lia|left; split; [lia|exact Hkr]].
           ++ right; lia.
  - destruct (sget ry t) as [bY|] eqn:Ey; [|discriminate].
    destruct bY.
    + (* ry[t] is set *)
      assert (Htm : t < rvecs.m ry).
      { destruct (Z.eq_dec t (rvecs.m ry)) as [Et|]; [|lia].
        rewrite Et, Hsy in Ey. discriminate. }
      destruct (s0 <? 0) eqn:Es0.
      * apply Z.ltb_lt in Es0.
        destruct (rvecs.true_run rx _ _ s) as [s1|] eqn:E1; [|discriminate].
        destruct (rvecs.true_run ry _ (Z.to_nat (rvecs.m ry - t)) t) as [t1|] eqn:E2; [|discriminate].
        injection H as <- <- <- <- <- <-.
        assert (A2 : t < t1).
        { replace (Z.to_nat (rvecs.m ry - t)) with (S (Z.to_nat (rvecs.m ry - t - 1))) in E2 by lia.
          exact (true_run_adv _ _ _ _ _ E2 Htm Ey). }
        apply true_run_bounds in E1; [|lia]. apply true_run_bounds in E2; [|lia].
        split; [lia|]. split; [lia|]. split; [lia|]. split.
        -- intros _. split; [lia|]. split; [lia|]. exists t. right. split; [lia|exact Ey].
        -- split.
           ++ intros k [[Hk Hkr]|Hk]; [|lia].
              destruct (Z.lt_ge_cases k s1); [right; lia|left; split; [lia|exact Hkr]].
           ++ intros k [[Hk Hkr]|Hk]; [|lia].
              destruct (Z.lt_ge_cases k t1); [right; lia|left; split; [lia|exact Hkr]].
      * apply Z.ltb_ge in Es0.
        destruct (rvecs.true_run rx _ _ s) as [s1|] eqn:E1; [|discriminate].
        destruct (rvecs.true_run ry _ (Z.to_nat (rvecs.m ry - t)) t) as [t1|] eqn:E2; [|discriminate].
        injection H as <- <- <- <- <- <-.
        assert (A2 : t < t1).
        { replace (Z.to_nat (rvecs.m ry - t)) with (S (Z.to_nat (rvecs.m ry - t - 1))) in E2 by lia.
          exact (true_run_adv _ _ _ _ _ E2 Htm Ey). }
        apply true_run_bounds in E1; [|lia]. apply true_run_bounds in E2; [|lia].
        destruct (Hp Es0) as (P1 & P2 & _).
        split; [lia|]. split; [lia|]. split; [lia|]. split.
        -- intros _. split; [lia|]. split; [lia|]. exists t. right. split; [lia|exact Ey].
        -- split.
           ++ intros k [[Hk Hkr]|Hk].
              ** destruct (Z.lt_ge_cases k s1); [right; lia|left; split; [lia|exact Hkr]].
              ** right; lia.
           ++ intros k [[Hk Hkr]|Hk].
              ** destruct (Z.lt_ge_cases k t1); [right; lia|left; split; [lia|exact Hkr]].
              ** right; lia.
    + (* neither is set *)
      destruct (rvecs.false_run rx ry _ s t) as [k|] eqn:Ek; [|discriminate].
      injection H as <- <- <- <- <- <-.
      destruct (false_run_spec _ _ _ _ Ek ltac:(lia) ltac:(lia)) as (K0 & K1 & K2 & K3 & K4).
      split; [lia|]. split; [lia|]. split; [lia|]. split.
      * intros H0. destruct (Hp H0) as (P1 & P2 & j & Hj).
        split; [lia|]. split; [lia|]. exists j.
        destruct Hj as [[Hj1 Hj2]|[Hj1 Hj2]]; [left|right]; split; auto; lia.
      * split.
        -- intros j [[Hj Hjr]|Hj]; [|right; lia].
           destruct (Z.lt_ge_cases j (s + k)) as [Hl|Hl]; [|left; split; [lia|exact Hjr]].
           rewrite (K3 j ltac:(lia)) in Hjr. discriminate.
        -- intros j [[Hj Hjr]|Hj]; [|right; lia].
           destruct (Z.lt_ge_cases j (t + k)) as [Hl|Hl]; [|left; split; [lia|exact Hjr]].
           rewrite (K4 j ltac:(lia)) in Hjr. discriminate.
Qed.

Lemma hunks_loop_cover (fuel : nat) : forall s t s0 t0 d run hs,
  rvecs.hunks_loop rx ry c fuel s t s0 t0 d run = Some hs ->
  0 <= s <= rvecs.n rx -> 0 <= t <= rvecs.m ry -> 0 <= run -> pending rx ry s t s0 t0 run ->
  (s = rvecs.n rx -> t = rvecs.m ry -> s0 < 0) ->
  (forall h, h ∈ hs -> hunk_ok rx ry h) /\
  (forall k, todo_x rx s s0 run k -> exists h, h ∈ hs /\ rvecs.S0 h <= k < rvecs.S1 h) /\
  (forall k, todo_y ry t s0 t0 run k -> exists h, h ∈ hs /\ rvecs.T0 h <= k < rvecs.T1 h).
Proof.
  induction fuel as [|fuel IH]; intros s t s0 t0 d run hs H Hs Ht Hr Hp Hend;
    cbn [rvecs.hunks_loop] in H; [discriminate|].
  destruct ((s <? rvecs.n rx) || (t <? rvecs.m ry)) eqn:Ec.
  - destruct (rvecs.hunks_step rx ry c s t s0 t0 d run)
      as [[[[[[s' t'] s0'] t0'] d'] run']|] eqn:Es; [|discriminate].
    destruct (hunks_step_cover _ _ _ _ _ _ _ _ _ _ _ _ Es Hs Ht Hr Hp)
      as (Hs' & Ht' & Hr' & Hp' & Tx & Ty).
    destruct ((0 <=? s0') && ((2 * c <? run') || (s' =? rvecs.n rx) && (t' =? rvecs.m ry)))
      eqn:Eclose.
    + destruct (rvecs.hunks_loop rx ry c fuel s' t' (-1) (-1) d' run') as [rest|] eqn:Er;
        [|discriminate].
      injection H as <-.
      apply andb_true_iff in Eclose. destruct Eclose as [E0 _]. apply Z.leb_le in E0.
      destruct (IH _ _ _ _ _ _ _ Er Hs' Ht' Hr' ltac:(unfold pending; lia) ltac:(lia))
        as (R1 & R2 & R3).
      destruct (Hp' E0) as (P1 & P2 & j & Hj).
      split; [|split].
      * intros h Hh. apply elem_of_cons in Hh. destruct Hh as [->|Hh]; [|auto].
        unfold hunk_ok; simpl. split; [lia|]. split; [lia|]. split; [lia|]. split; [lia|].
        exists j. destruct Hj as [[Hj1 Hj2]|[Hj1 Hj2]]; [left|right]; split; auto; lia.
      * intros k Hk. apply Tx in Hk. destruct Hk as [Hk|Hk].
        -- destruct (R2 k (or_introl Hk)) as (h & Hh & Hkh).
           exists h. split; [apply elem_of_cons; right; exact Hh|exact Hkh].
        -- eexists. split; [apply elem_of_cons; left; reflexivity|]. simpl. lia.
      * intros k Hk. apply Ty in Hk. destruct Hk as [Hk|Hk].
        -- destruct (R3 k (or_introl Hk)) as (h & Hh & Hkh).
           exists h. split; [apply elem_of_cons; right; exact Hh|exact Hkh].
        -- eexists. split; [apply elem_of_cons; left; reflexivity|]. simpl. lia.
    + assert (Hend' : s' = rvecs.n rx -> t' = rvecs.m ry -> s0' < 0).
      { intros -> ->. rewrite !Z.eqb_refl, orb_true_r, andb_true_r in Eclose.
        apply Z.leb_gt in Eclose. exact Eclose. }
      destruct (IH _ _ _ _ _ _ _ H Hs' Ht' Hr' Hp' Hend') as (R1 & R2 & R3).
      split; [exact R1|]. split.
      * intros k Hk. apply R2, Tx, Hk.
      * intros k Hk. apply R3, Ty, Hk.
  - injection H as <-. apply orb_false_iff in Ec. destruct Ec as [E1 E2].
    apply Z.ltb_ge in E1, E2.
    specialize (Hend ltac:(lia) ltac:(lia)).
    split; [intros h Hh; apply elem_of_nil in Hh; contradiction|].
    unfold todo_x, todo_y. split; intros k Hk; lia.
Qed.

End HunkCover.

Lemma last_sget (r : list bool) (b : bool) :
  last r = Some b -> 0 <= zlen r - 1 /\ sget r (zlen r - 1) = Some b.
Proof.
  intros H. rewrite last_lookup in H. destruct r as [|a r]; [discriminate|].
  unfold sget, zlen. simpl length in *.
  assert (E : (0 <=? Z.of_nat (S (length r)) - 1) = true) by (apply Z.leb_le; lia).
  rewrite E. split; [lia|]. replace (Z.to_nat (Z.of_nat (S (length r)) - 1)) with (length r) by lia.
  exact H.
Qed.

Lemma rvecs_Hunks_cover_all (rx ry : list bool) (cfg : Config) (hs : list rvecs.Hunk) :
  0 <= Context cfg -> last rx = Some false -> last ry = Some false ->
  rvecs.Hunks rx ry cfg = Some hs ->
  (forall h, h ∈ hs -> hunk_ok rx ry h) /\
  (forall k, sget rx k = Some true -> exists h, h ∈ hs /\ rvecs.S0 h <= k < rvecs.S1 h) /\
  (forall k, sget ry k = Some true -> exists h, h ∈ hs /\ rvecs.T0 h <= k < rvecs.T1 h).
Proof.
  intros Hc Hx Hy H. apply last_sget in Hx as [Hn Hx]. apply last_sget in Hy as [Hm Hy].
  unfold rvecs.Hunks in H.
  destruct (hunks_loop_cover rx ry _ Hc Hx Hy _ _ _ _ _ _ _ _ H ltac:(unfold rvecs.n; lia)
              ltac:(unfold rvecs.m; lia) ltac:(lia) ltac:(unfold pending; lia) ltac:(lia))
    as (R1 & R2 & R3).
  split; [exact R1|]. split.
  - intros k Hk. apply R2. left. apply sget_Some in Hk as Hb. split; [|exact Hk].
    split; [lia|]. unfold rvecs.n. destruct (Z.eq_dec k (zlen rx - 1)) as [->|]; [|lia].
    rewrite Hx in Hk. discriminate.
  - intros k Hk. apply R3. left. apply sget_Some in Hk as Hb. split; [|exact Hk].
    split; [lia|]. unfold rvecs.m. destruct (Z.eq_dec k (zlen ry - 1)) as [->|]; [|lia].
    rewrite Hy in Hk. discriminate.
Qed.

(** X7: every hunk of [rvecs.Hunks] lies within the vectors and contains at least one change. *)
Theorem rvecs_Hunks_hunk_ok (rx ry : list bool) (cfg : Config) (hs : list rvecs.Hunk)
  (Hc : 0 <= Context cfg) (Hx : last rx = Some false) (Hy : last ry = Some false)
  (H : rvecs.Hunks rx ry cfg = Some hs) :
  forall h, h ∈ hs ->
    0 <= rvecs.S0 h <= rvecs.S1 h /\ rvecs.S1 h <= zlen rx - 1 /\
    0 <= rvecs.T0 h <= rvecs.T1 h /\ rvecs.T1 h <= zlen ry - 1 /\
    exists k, (rvecs.S0 h <= k < rvecs.S1 h /\ sget rx k = Some true) \/
              (rvecs.T0 h <= k < rvecs.T1 h /\ sget ry k = Some true).
Proof. apply (rvecs_Hunks_cover_all rx ry cfg hs Hc Hx Hy H). Qed.

Lemma rvecs_Hunks_hunk_ok_witness :
  exists hs, rvecs.Hunks [true; false; false; false; false; false; false; false; true; false]
               [false; false; false; false; false; false; false; false] config_Default = Some hs /\
  forall h, h ∈ hs ->
    0 <= rvecs.S0 h <= rvecs.S1 h /\
    rvecs.S1 h <= zlen [true; false; false; false; false; false; false; false; true; false] - 1 /\
    0 <= rvecs.T0 h <= rvecs.T1 h /\
    rvecs.T1 h <= zlen [false; false; false; false; false; false; false; false] - 1 /\
    exists k, (rvecs.S0 h <= k < rvecs.S1 h /\
               sget [true; false; false; false; false; false; false; false; true; false] k = Some true) \/
              (rvecs.T0 h <= k < rvecs.T1 h /\
               sget [false; false; false; false; false; false; false; false] k = Some true).
Proof.
  eexists. split; [vm_compute; reflexivity|].
  apply (rvecs_Hunks_hunk_ok _ _ config_Default); [simpl; lia|reflexivity|reflexivity|].
  vm_compute. reflexivity.
Defined.

(** X8: every change of [rx] and of [ry] lies within some hunk of [rvecs.Hunks]. *)
Theorem rvecs_Hunks_cover (rx ry : list bool) (cfg : Config) (hs : list rvecs.Hunk)
  (Hc : 0 <= Context cfg) (Hx : last rx = Some false) (Hy : last ry = Some false)
  (H : rvecs.Hunks rx ry cfg = Some hs) :
  (forall k, sget rx k = Some true -> exists h, h ∈ hs /\ rvecs.S0 h <= k < rvecs.S1 h) /\
  (forall k, sget ry k = Some true -> exists h, h ∈ hs /\ rvecs.T0 h <= k < rvecs.T1 h).
Proof. apply (rvecs_Hunks_cover_all rx ry cfg hs Hc Hx Hy H). Qed.

Lemma rvecs_Hunks_cover_witness :
  exists hs, rvecs.Hunks [true; false; false; false; false; false; false; false; true; false]
               [false; false; false; false; false; false; false; false] config_Default = Some hs /\
  (forall k, sget [true; false; false; false; false; false; false; false; true; false] k = Some true ->
     exists h, h ∈ hs /\ rvecs.S0 h <= k < rvecs.S1 h) /\
  (forall k, sget [false; false; false; false; false; false; false; false] k = Some true ->
     exists h, h ∈ hs /\ rvecs.T0 h <= k < rvecs.T1 h).
Proof.
  eexists. split; [vm_compute; reflexivity|].
  apply (rvecs_Hunks_cover _ _ config_Default); [simpl; lia|reflexivity|reflexivity|].
  vm_compute. reflexivity.
Defined.

Lemma mark_keep (idx : list Z) (N : nat) (n : nat) :
  forall r r' t, mark idx r n t = Some r' ->
  (forall j i, t <= j < t + Z.of_nat n -> sget idx j = Some i -> i <> Z.of_nat N) ->
  r' !! N = r !! N.
Proof.
  induction n as [|n IH]; intros r r' t H Hi; cbn [mark] in H; [injection H as <-; reflexivity|].
  destruct (sget idx t) as [i|] eqn:Et; [|discriminate].
  destruct (sset r i true) as [r1|] eqn:Es; [|discriminate].
  rewrite (IH _ _ _ H) by (intros j i' Hj; apply Hi; lia).
  apply sset_Some in Es as [Hr ->].
  assert (i <> Z.of_nat N) by (apply (Hi t); [lia|exact Et]).
  apply list_lookup_insert_ne. lia.
Qed.

Lemma mark_keep_notin (idx : list Z) (N : nat) (n : nat) r r' t :
  mark idx r n t = Some r' -> Z.of_nat N ∉ idx -> r' !! N = r !! N.
Proof.
  intros H Hn. apply (mark_keep _ _ _ _ _ _ H). intros j i _ Hj ->.
  apply sget_Some in Hj as [_ Hj]. apply Hn. eapply list_elem_of_lookup_2. exact Hj.
Qed.

Lemma compare_keep {T} (eq : T -> T -> bool) (f : nat) :
  forall m m' smin smax tmin tmax opt,
  compare eq f m smin smax tmin tmax opt = Some m' ->
  m_xidx m' = m_xidx m /\ m_yidx m' = m_yidx m /\
  (forall N : nat, Z.of_nat N ∉ m_xidx m -> m_rx m' !! N = m_rx m !! N) /\
  (forall N : nat, Z.of_nat N ∉ m_yidx m -> m_ry m' !! N = m_ry m !! N).
Proof.
  induction f as [|f IH]; intros m m' smin smax tmin tmax opt H; cbn [compare] in H; [discriminate|].
  destruct (smin =? smax).
  - destruct (mark _ _ _ _) as [ry|] eqn:E; [|discriminate]. injection H as <-.
    simpl. split; [reflexivity|]. split; [reflexivity|]. split; [reflexivity|].
    intros N HN. exact (mark_keep_notin _ _ _ _ _ _ E HN).
  - destruct (tmin =? tmax).
    + destruct (mark _ _ _ _) as [rx|] eqn:E; [|discriminate]. injection H as <-.
      simpl. split; [reflexivity|]. split; [reflexivity|]. split; [|reflexivity].
      intros N HN. exact (mark_keep_notin _ _ _ _ _ _ E HN).
    + destruct (split _ _ _ _ _ _ _ _ _ _ _ _ _) as [[[vf vb] r]|]; [|discriminate].
      destruct (compare eq f _ _ _ _ _ _) as [m1|] eqn:E1; [|discriminate].
      apply IH in E1. apply IH in H. simpl in E1.
      destruct E1 as (A1 & B1 & C1 & D1), H as (A2 & B2 & C2 & D2).
      split; [congruence|]. split; [congruence|]. split.
      * intros N HN. rewrite C2 by congruence. apply C1, HN.
      * intros N HN. rewrite D2 by congruence. apply D1, HN.
Qed.

Lemma init_idx {T} (eq : T -> T -> bool) x y xi yi r m b :
  init eq x y (Some xi) (Some yi) (Some r) = Some (m, b) ->
  m_xidx m = xi /\ m_yidx m = yi /\ m_rx m = r.1 /\ m_ry m = r.2.
Proof.
  unfold init. destruct (findChangeBounds eq x y) as [[[[? ?] ?] ?]|]; [|discriminate].
  generalize (cost_loop 64). intros cl. destruct r.
  intros H; injection H as <- _. auto.
Qed.

Lemma default_anchor_loop_keep m x0 y0 smax0 tmax0 anchors :
  forall done m', default_anchor_loop m x0 y0 smax0 tmax0 anchors done = Some m' ->
  m_xidx m' = m_xidx m /\ m_yidx m' = m_yidx m /\
  (forall N : nat, Z.of_nat N ∉ m_xidx m -> m_rx m' !! N = m_rx m !! N) /\
  (forall N : nat, Z.of_nat N ∉ m_yidx m -> m_ry m' !! N = m_ry m !! N).
Proof.
  revert m; induction anchors as [|a anchors IH]; intros m done m' Hl;
    cbn [default_anchor_loop] in Hl.
  - injection Hl as <-. auto.
  - destruct (a.1 <? done.1); [exact (IH _ _ _ Hl)|].
    destruct (bsnake _ _ _ _ _ _ _ _) as [st|]; [|discriminate].
    destruct (fsnake _ _ _ _ _ _ _ _) as [en|]; [|discriminate].
    destruct (compare Z.eqb _ _ _ _ _ _ _) as [m1|] eqn:E; [|discriminate].
    apply compare_keep in E.
    destruct ((smax0 <=? en.1) && (tmax0 <=? en.2)).
    + injection Hl as <-. exact E.
    + apply IH in Hl. destruct E as (A1 & B1 & C1 & D1), Hl as (A2 & B2 & C2 & D2).
      split; [congruence|]. split; [congruence|]. split.
      * intros N HN. rewrite C2 by congruence. apply C1, HN.
      * intros N HN. rewrite D2 by congruence. apply D1, HN.
Qed.

Lemma fast_anchor_loop_keep rx ry x0 y0 xidx yidx smax0 tmax0 anchors :
  forall done rx' ry', fast_anchor_loop rx ry x0 y0 xidx yidx smax0 tmax0 anchors done = Some (rx', ry') ->
  (forall N : nat, Z.of_nat N ∉ xidx -> rx' !! N = rx !! N) /\
  (forall N : nat, Z.of_nat N ∉ yidx -> ry' !! N = ry !! N).
Proof.
  revert rx ry; induction anchors as [|a anchors IH]; intros rx ry done rx' ry' Hl;
    cbn [fast_anchor_loop] in Hl.
  - injection Hl as <- <-. auto.
  - destruct (a.1 <? done.1); [exact (IH _ _ _ _ _ Hl)|].
    destruct (bsnake _ _ _ _ _ _ _ _) as [st|]; [|discriminate].
    destruct (fsnake _ _ _ _ _ _ _ _) as [en|]; [|discriminate].
    destruct (mark xidx rx _ _) as [rx1|] eqn:E1; [|discriminate].
    destruct (mark yidx ry _ _) as [ry1|] eqn:E2; [|discriminate].
    destruct ((smax0 <=? en.1) && (tmax0 <=? en.2)).
    + injection Hl as <- <-. split; intros N HN; eapply mark_keep_notin; eauto.
    + apply IH in Hl. destruct Hl as [A B]. split; intros N HN.
      * rewrite A by exact HN. eapply mark_keep_notin; eauto.
      * rewrite B by exact HN. eapply mark_keep_notin; eauto.
Qed.

Lemma iota_z_sget_eq (K : nat) (j i : Z) : sget (iota_z K) j = Some i -> i = j.
Proof.
  intros H. apply sget_Some in H as [Hj H]. unfold iota_z in H.
  rewrite list_lookup_fmap in H. apply fmap_Some in H as (k & Hk & ->).
  apply lookup_seq in Hk as [-> _]. lia.
Qed.

Lemma handleTrivialBounds_keep rx ry smin smax tmin tmax b rx' ry' (N K : nat) :
  handleTrivialBounds rx ry smin smax tmin tmax = Some (b, rx', ry') ->
  smax <= Z.of_nat N -> tmax <= Z.of_nat K ->
  rx' !! N = rx !! N /\ ry' !! K = ry !! K.
Proof.
  unfold handleTrivialBounds. intros Hh HN HK.
  destruct (negb (smin =? smax) && (tmin =? tmax)).
  { destruct (mark _ rx _ _) as [r|] eqn:E; [|discriminate]. injection Hh as <- <- <-.
    split; [|reflexivity]. apply (mark_keep _ _ _ _ _ _ E).
    intros j i Hj Hs. apply iota_z_sget_eq in Hs. lia. }
  destruct ((smin =? smax) && negb (tmin =? tmax)).
  { destruct (mark _ ry _ _) as [r|] eqn:E; [|discriminate]. injection Hh as <- <- <-.
    split; [reflexivity|]. apply (mark_keep _ _ _ _ _ _ E).
    intros j i Hj Hs. apply iota_z_sget_eq in Hs. lia. }
  destruct ((smin =? smax) && (tmin =? tmax)); injection Hh as <- <- <-; auto.
Qed.

Lemma repeat_lookup_lt {A} (a : A) (n i : nat) : (i < n)%nat -> repeat a n !! i = Some a.
Proof.
  revert i; induction n as [|n IH]; intros i Hi; [lia|].
  destruct i; simpl; [reflexivity|]. apply IH. lia.
Qed.

Lemma pp_step1_length {T} `{Countable T} (xs : list T) :
  forall idx counts x0r idx' counts' x0r',
  pp_step1 xs idx counts x0r = Some (idx', counts', x0r') -> length x0r' = (length xs + length x0r)%nat.
Proof.
  induction xs as [|e xs IH]; intros idx counts x0r idx' counts' x0r' Hs; simpl in Hs.
  - injection Hs; intros; subst; reflexivity.
  - destruct (match idx !! e with Some id => _ | None => _ end) as [id idx1].
    destruct (sget counts id) as [c|]; [|discriminate].
    destruct (if c <? 2 then _ else _) as [cs|]; [|discriminate].
    rewrite (IH _ _ _ _ _ _ Hs). simpl. lia.
Qed.

Lemma pp_step2_keep {T} `{Countable T} (K : nat) (ys : list T) :
  forall t idx counts ry yr y0r counts' ry' yr' y0r',
  pp_step2 ys t idx counts ry yr y0r = Some (counts', ry', yr', y0r') ->
  t + Z.of_nat (length ys) <= Z.of_nat K -> Forall (fun v => v < Z.of_nat K) yr ->
  ry' !! K = ry !! K /\ Forall (fun v => v < Z.of_nat K) yr'.
Proof.
  induction ys as [|e ys IH]; intros t idx counts ry yr y0r counts' ry' yr' y0r' Hs Hl Hf;
    simpl in Hs.
  - injection Hs; intros; subst; auto.
  - simpl length in Hl. destruct (idx !! e) as [id|].
    + destruct (sget counts id) as [c|]; [|discriminate].
      destruct (if c <? 8 then _ else _) as [cs|]; [|discriminate].
      apply (IH _ _ _ _ _ _ _ _ _ _ Hs); [lia|]. constructor; [lia|exact Hf].
    + destruct (sset ry t true) as [ry1|] eqn:E; [|discriminate].
      destruct (IH _ _ _ _ _ _ _ _ _ _ Hs ltac:(lia) Hf) as [A B]. split; [|exact B].
      rewrite A. apply sset_Some in E as [Ht ->]. apply list_lookup_insert_ne. lia.
Qed.

Lemma pp_step3_keep (N : nat) x0 :
  forall s counts rx xr x0r na rx' xr' x0r' na',
  pp_step3 x0 s counts rx xr x0r na = Some (rx', xr', x0r', na') ->
  s + Z.of_nat (length x0) <= Z.of_nat N -> Forall (fun v => v < Z.of_nat N) xr ->
  rx' !! N = rx !! N /\ Forall (fun v => v < Z.of_nat N) xr'.
Proof.
  induction x0 as [|e x0 IH]; intros s counts rx xr x0r na rx' xr' x0r' na' Hs Hl Hf; simpl in Hs.
  - injection Hs; intros; subst; auto.
  - simpl length in Hl. destruct (sget counts e) as [c|]; [|discriminate].
    destruct (4 <? c).
    + apply (IH _ _ _ _ _ _ _ _ _ _ Hs); [lia|]. constructor; [lia|exact Hf].
    + destruct (sset rx s true) as [rx1|] eqn:E; [|discriminate].
      destruct (IH _ _ _ _ _ _ _ _ _ _ Hs ltac:(lia) Hf) as [A B]. split; [|exact B].
      rewrite A. apply sset_Some in E as [Ht ->]. apply list_lookup_insert_ne. lia.
Qed.

Lemma slice_length {A} (l : list A) (lo hi : Z) :
  0 <= lo <= hi -> hi <= zlen l -> length (slice l lo hi) = Z.to_nat (hi - lo).
Proof.
  intros H1 H2. unfold slice, zlen in *. rewrite length_take, length_drop. lia.
Qed.

Lemma preprocess_keep {T} `{Countable T} rx ry smin smax tmin tmax (x y : list T) p :
  preprocess rx ry smin smax tmin tmax x y = Some p ->
  0 <= smin <= smax -> smax <= zlen x -> 0 <= tmin <= tmax -> tmax <= zlen y ->
  p_rx p !! length x = rx !! length x /\ p_ry p !! length y = ry !! length y /\
  (Z.of_nat (length x) ∉ p_xidx p) /\ (Z.of_nat (length y) ∉ p_yidx p).
Proof.
  unfold preprocess. intros Hp Hs Hsx Ht Hty.
  destruct (pp_step1 _ _ _ _) as [[[idx counts] x0r]|] eqn:E1; [|discriminate].
  destruct (pp_step2 _ _ _ _ _ _ _) as [[[[counts' ry'] yr] y0r]|] eqn:E2; [|discriminate].
  destruct (pp_step3 _ _ _ _ _ _ _) as [[[[rx' xr] x0r'] na]|] eqn:E3; [|discriminate].
  injection Hp as <-. simpl.
  apply pp_step1_length in E1. rewrite slice_length in E1 by lia. simpl in E1.
  apply (pp_step2_keep (length y)) in E2;
    [|rewrite slice_length by lia; unfold zlen in *; lia|constructor].
  apply (pp_step3_keep (length x)) in E3;
    [|rewrite length_rev; unfold zlen in *; lia|constructor].
  destruct E2 as [A2 B2], E3 as [A3 B3].
  split; [exact A3|]. split; [exact A2|].
  split; intros Hin; rewrite list_elem_of_In, <- in_rev, <- list_elem_of_In in Hin;
    [rewrite Forall_forall in B3; specialize (B3 _ Hin)|rewrite Forall_forall in B2; specialize (B2 _ Hin)];
    lia.
Qed.

Lemma Diff_sentinels_gen {T} `{Countable T} (x y : list T) cfg rx ry
  (HD : Diff x y cfg = Some (rx, ry)) :
  last rx = Some false /\ last ry = Some false.
Proof.
  destruct (Diff_result_lengths_gen x y cfg rx ry HD) as [Lx Ly].
  rewrite !last_lookup, Lx, Ly. simpl pred.
  unfold Diff, diff_prep, rvecs_make in HD.
  destruct (findChangeBounds_spec_gen teq x y) as (smin & smax & tmin & tmax & Ef & B).
  rewrite Ef in HD.
  destruct (handleTrivialBounds _ _ _ _ _ _) as [[[triv rx1] ry1]|] eqn:Eh; [|discriminate].
  apply (handleTrivialBounds_keep _ _ _ _ _ _ _ _ _ (length x) (length y)) in Eh;
    [|unfold zlen in B; lia|unfold zlen in B; lia].
  rewrite !repeat_lookup_lt in Eh by lia. destruct Eh as [Ex Ey].
  destruct triv.
  { injection HD as <- <-. auto. }
  destruct (preprocess _ _ _ _ _ _ _ _) as [p|] eqn:Ep; [|discriminate].
  apply preprocess_keep in Ep; [|lia..].
  destruct Ep as (Px & Py & Ix & Iy). rewrite Ex in Px. rewrite Ey in Py.
  destruct (CMode cfg).
  - unfold diffDefault in HD.
    destruct (init _ _ _ _ _ _) as [[m [[[s0 s1] t0] t1]]|] eqn:Ei; [|discriminate].
    apply init_idx in Ei. destruct Ei as (Xi & Yi & Er & Es). simpl in Er, Es.
    destruct (_ || _).
    + destruct (segments _ _ _ _ _ _ _ _) as [[|d segs]|]; try discriminate.
      destruct (default_anchor_loop _ _ _ _ _ _ _) as [m'|] eqn:El; [|discriminate].
      injection HD as <- <-. apply default_anchor_loop_keep in El.
      destruct El as (_ & _ & C & D). rewrite C, D by congruence. split; congruence.
    + destruct (compare _ _ _ _ _ _ _ _) as [m'|] eqn:Ec; [|discriminate].
      injection HD as <- <-. apply compare_keep in Ec.
      destruct Ec as (_ & _ & C & D). rewrite C, D by congruence. split; congruence.
  - unfold diffMinimal in HD.
    destruct (init _ _ _ _ _ _) as [[m [[[s0 s1] t0] t1]]|] eqn:Ei; [|discriminate].
    apply init_idx in Ei. destruct Ei as (Xi & Yi & Er & Es). simpl in Er, Es.
    destruct (compare _ _ _ _ _ _ _ _) as [m'|] eqn:Ec; [|discriminate].
    injection HD as <- <-. apply compare_keep in Ec.
    destruct Ec as (_ & _ & C & D). rewrite C, D by congruence. split; congruence.
  - unfold diffFast in HD.
    destruct (findChangeBounds _ _ _) as [[[[s0 s1] t0] t1]|]; [|discriminate].
    destruct (segments _ _ _ _ _ _ _ _) as [[|d segs]|]; try discriminate.
    apply fast_anchor_loop_keep in HD. destruct HD as [C D].
    rewrite C, D by assumption. split; congruence.
Qed.

(** X9: the vectors returned by [Diff] end in a [false] sentinel. *)
Theorem Diff_sentinels {T} `{Countable T} (x y : list T) cfg rx ry
  (HD : Diff x y cfg = Some (rx, ry)) :
  last rx = Some false /\ last ry = Some false.
Proof. eapply Diff_sentinels_gen; eassumption. Qed.

Lemma Diff_sentinels_witness :
  Diff [1;2;3]%nat [2;4]%nat config_Default = Some ([true;false;true;false], [false;true;false]) /\
  last [true;false;true;false] = Some false /\ last [false;true;false] = Some false.
Proof.
  assert (HD : Diff [1;2;3]%nat [2;4]%nat config_Default = Some ([true;false;true;false], [false;true;false]))
    by (vm_compute; reflexivity).
  split; [exact HD|]. exact (Diff_sentinels _ _ _ _ _ HD).
Defined.

Lemma from_options_context (opts : list Option) (allowed : Flag) :
  forall cfg0 cfg, Forall keeps_context opts -> 0 <= Context cfg0 ->
  from_options opts allowed cfg0 = inl cfg -> 0 <= Context cfg.
Proof.
  induction opts as [|o opts IH]; intros cfg0 cfg Hf Hc H; simpl in H.
  - destruct (_ && _); [discriminate|]. injection H as <-. exact Hc.
  - inversion Hf as [|? ? Ho Hf']; subst.
    specialize (Ho cfg0 Hc). destruct (o cfg0) as [c1 fl] eqn:Eo. simpl in Ho.
    destruct (negb _); [destruct (printFlag fl); discriminate|].
    exact (IH _ _ Hf' Ho H).
Qed.

Lemma sget_repeat {A} (a : A) (K : nat) (i : Z) : 0 <= i < Z.of_nat K -> sget (repeat a K) i = Some a.
Proof.
  intros Hi. unfold sget. replace (0 <=? i) with true by (symmetry; apply Z.leb_le; lia).
  apply repeat_lookup_lt. lia.
Qed.

Lemma sget_list {A} (l : list A) (i : Z) : 0 <= i < zlen l -> exists a, sget l i = Some a.
Proof.
  intros Hi. unfold sget, zlen in *. replace (0 <=? i) with true by (symmetry; apply Z.leb_le; lia).
  destruct (l !! Z.to_nat i) as [a|] eqn:E; [eauto|]. apply lookup_ge_None in E. lia.
Qed.

Section Same.
Context {T : Type} (zero : T) (x : list T).
Local Abbreviation rf := (repeat false (S (length x))).
Local Abbreviation n := (Z.of_nat (length x)).

Lemma match_run_same (k : nat) : forall s, Z.of_nat k + s = n -> 0 <= s ->
  match_run x x rf rf n n k s s = Some (n, n, map (fun a => MkEdit Match a a) (slice x s n)).
Proof.
  induction k as [|k IH]; intros s Hk Hs; cbn [match_run].
  - replace s with n by lia. rewrite slice_nil by lia. reflexivity.
  - replace ((s <? n) && (s <? n)) with true by (symmetry; apply andb_true_iff; split; apply Z.ltb_lt; lia).
    rewrite sget_repeat by lia.
    destruct (sget_list x s ltac:(unfold zlen in *; lia)) as [a Ha]. rewrite Ha.
    rewrite IH by lia. rewrite (slice_cons x s n a Ha) by lia. reflexivity.
Qed.

Lemma edits_same : edits zero x x rf rf = Some (map (fun a => MkEdit Match a a) x).
Proof.
  unfold edits. replace (zlen rf - 1) with n by (unfold zlen; rewrite repeat_length; lia).
  destruct (Z.eq_dec n 0) as [Hn|Hn].
  - assert (x = []) as -> by (destruct x; [reflexivity|simpl in Hn; lia]).
    reflexivity.
  - replace (S (Z.to_nat (n + n))) with (S (S (S (Z.to_nat (n + n) - 2)))) by lia.
    cbn [edits_loop].
    replace ((0 <? n) || (0 <? n)) with true by (symmetry; apply orb_true_iff; left; apply Z.ltb_lt; lia).
    replace (Z.to_nat (n - 0)) with (S (Z.to_nat (n - 1))) by lia.
    cbn [del_run ins_run].
    replace (0 <? n) with true by (symmetry; apply Z.ltb_lt; lia).
    rewrite !sget_repeat by lia.
    replace (S (Z.to_nat (n - 1))) with (Z.to_nat n) by lia.
    rewrite match_run_same by lia.
    cbn [edits_loop]. rewrite Z.ltb_irrefl. simpl.
    rewrite app_nil_r. unfold slice. rewrite drop_0, Z.sub_0_r, Nat2Z.id, take_ge by lia.
    reflexivity.
Qed.

Lemma false_run_same (k : nat) : forall s, Z.of_nat k + s = n -> 0 <= s ->
  rvecs.false_run rf rf k s s = Some (Z.of_nat k).
Proof.
  assert (Hn : rvecs.n rf = n) by (unfold rvecs.n, zlen; rewrite repeat_length; lia).
  induction k as [|k IH]; intros s Hk Hs; cbn [rvecs.false_run]; [reflexivity|].
  rewrite Hn. unfold rvecs.m. fold (rvecs.n rf). rewrite Hn.
  replace ((s <? n) && (s <? n)) with true by (symmetry; apply andb_true_iff; split; apply Z.ltb_lt; lia).
  rewrite sget_repeat by lia.
  rewrite IH by lia. f_equal. lia.
Qed.

Lemma rvecs_Hunks_same (cfg : Config) : rvecs.Hunks rf rf cfg = Some [].
Proof.
  assert (Hn : rvecs.n rf = n) by (unfold rvecs.n, zlen; rewrite repeat_length; lia).
  assert (Hm : rvecs.m rf = n) by exact Hn.
  unfold rvecs.Hunks. rewrite Hn, Hm.
  destruct (Z.eq_dec n 0) as [H0|H0].
  - rewrite H0. cbn [rvecs.hunks_loop]. rewrite Hn, Hm, H0. reflexivity.
  - replace (S (Z.to_nat (n + n))) with (S (S (Z.to_nat (n + n) - 1))) by lia.
    cbn [rvecs.hunks_loop]. rewrite Hn, Hm.
    replace ((0 <? n) || (0 <? n)) with true by (symmetry; apply orb_true_iff; left; apply Z.ltb_lt; lia).
    unfold rvecs.hunks_step, rvecs.is_edit. rewrite !sget_repeat by lia.
    rewrite Hn. replace (Z.to_nat (n - 0)) with (Z.to_nat n) by lia.
    rewrite false_run_same by lia. rewrite Z2Nat.id by lia.
    rewrite !Z.add_0_l, !Z.ltb_irrefl. reflexivity.
Qed.

End Same.

Lemma slice_full {A} (l : list A) : slice l 0 (zlen l) = l.
Proof. unfold slice, zlen. rewrite drop_0, Z.sub_0_r, Nat2Z.id, take_ge by lia. reflexivity. Qed.

(** X10: the edits of [diff.Edits] replay [x] on their delete and match side and [y] on their insert and match side. *)
Theorem Edits_elements {T} `{Countable T} (zero : T) (x y : list T) (opts : list Option)
  (es : list (Edit T)) (HE : Edits zero x y opts = Some es) :
  map snd (xside es) = x /\ map snd (yside es) = y.
Proof.
  unfold Edits in HE. destruct (FromOptions opts flag_Minimal) as [cfg|]; [|discriminate].
  destruct (Diff x y cfg) as [[rx ry]|] eqn:HD; [|discriminate].
  destruct (Diff_result_lengths_gen x y cfg rx ry HD) as [Lx Ly].
  destruct (edits_sides_gen zero x y rx ry es HE) as (_ & A & _ & B).
  replace (zlen rx - 1) with (zlen x) in A by (unfold zlen; rewrite Lx; lia).
  replace (zlen ry - 1) with (zlen y) in B by (unfold zlen; rewrite Ly; lia).
  rewrite slice_full in A, B. auto.
Qed.

Lemma Edits_elements_witness :
  exists es, Edits 0 [1; 2; 3] [2; 3; 4] [] = Some es /\
  map snd (xside es) = [1; 2; 3] /\ map snd (yside es) = [2; 3; 4].
Proof.
  eexists. split; [vm_compute; reflexivity|].
  apply (Edits_elements 0 [1; 2; 3] [2; 3; 4] []). vm_compute. reflexivity.
Defined.

(** X11: for [int] elements, where [==] is reflexive, [diff.Edits x x] is
    one match per element of [x], whenever the options are accepted. *)
Theorem Edits_identical (zero : Z) (x : list Z) (opts : list Option)
  (cfg : Config) (Hopts : FromOptions opts flag_Minimal = inl cfg) :
  Edits zero x x opts = Some (map (fun a => MkEdit Match a a) x).
Proof.
  unfold Edits. rewrite Hopts, Diff_identical_gen. apply edits_same.
Qed.

Lemma Edits_identical_witness :
  FromOptions [opt_Optimal] flag_Minimal = inl (set_Mode config_Default ModeMinimal) /\
  Edits 0 [1; 2] [1; 2] [opt_Optimal] = Some [MkEdit Match 1 1; MkEdit Match 2 2].
Proof.
  split; [reflexivity|].
  apply (Edits_identical 0 [1; 2] [opt_Optimal] (set_Mode config_Default ModeMinimal)).
  reflexivity.
Defined.

(** X12: for [int] elements, where [==] is reflexive, [diff.Hunks x x] is
    empty whenever the options are accepted. *)
Theorem Hunks_identical (zero : Z) (x : list Z) (opts : list Option)
  (cfg : Config) (Hopts : FromOptions opts (Z.lor flag_Context flag_Minimal) = inl cfg) :
  Hunks zero x x opts = Some [].
Proof.
  unfold Hunks. rewrite Hopts, Diff_identical_gen. unfold hunks. rewrite rvecs_Hunks_same. reflexivity.
Qed.

Lemma Hunks_identical_witness :
  FromOptions [opt_Context 1] (Z.lor flag_Context flag_Minimal) = inl (set_Context config_Default 1) /\
  Hunks 0 [1; 2] [1; 2] [opt_Context 1] = Some [].
Proof.
  split; [reflexivity|].
  apply (Hunks_identical 0 [1; 2] [opt_Context 1] (set_Context config_Default 1)).
  reflexivity.
Defined.

Lemma slice_lookup {A} (l : list A) (lo hi k : Z) :
  0 <= lo <= k -> k < hi -> slice l lo hi !! Z.to_nat (k - lo) = l !! Z.to_nat k.
Proof.
  intros H1 H2. unfold slice. rewrite lookup_take_lt by lia. rewrite lookup_drop. f_equal. lia.
Qed.

Lemma xside_change {T} (es : list (Edit T)) :
  true ∈ map fst (xside es) -> exists e, e ∈ es /\ op e = Delete.
Proof.
  induction es as [|[o a b] es IH]; simpl; intros Hin; [apply elem_of_nil in Hin; contradiction|].
  destruct o; simpl in Hin.
  - apply elem_of_cons in Hin as [Hin|Hin]; [discriminate|].
    destruct (IH Hin) as (e & He & Ho). exists e. split; [apply elem_of_cons; right; exact He|exact Ho].
  - eexists. split; [apply elem_of_cons; left; reflexivity|reflexivity].
  - destruct (IH Hin) as (e & He & Ho). exists e. split; [apply elem_of_cons; right; exact He|exact Ho].
Qed.

Lemma yside_change {T} (es : list (Edit T)) :
  true ∈ map fst (yside es) -> exists e, e ∈ es /\ op e = Insert.
Proof.
  induction es as [|[o a b] es IH]; simpl; intros Hin; [apply elem_of_nil in Hin; contradiction|].
  destruct o; simpl in Hin.
  - apply elem_of_cons in Hin as [Hin|Hin]; [discriminate|].
    destruct (IH Hin) as (e & He & Ho). exists e. split; [apply elem_of_cons; right; exact He|exact Ho].
  - destruct (IH Hin) as (e & He & Ho). exists e. split; [apply elem_of_cons; right; exact He|exact Ho].
  - eexists. split; [apply elem_of_cons; left; reflexivity|reflexivity].
Qed.

Lemma slice_true_in (r : list bool) (lo hi k : Z) :
  0 <= lo <= k -> k < hi -> sget r k = Some true -> true ∈ slice r lo hi.
Proof.
  intros H1 H2 Hk. apply sget_Some in Hk as [_ Hk].
  apply (list_elem_of_lookup_2 _ (Z.to_nat (k - lo))). rewrite slice_lookup by lia. exact Hk.
Qed.

(** X13: each hunk of [diff.Hunks] describes a window [[PosX, EndX)] of [x] and [[PosY, EndY)] of [y]: its edits replay exactly these elements, and it contains at least one delete or insert. *)
Theorem Hunks_windows {T} `{Countable T} (zero : T) (x y : list T) (opts : list Option)
  (hs : list (Hunk T)) (Hopts : Forall keeps_context opts) (HH : Hunks zero x y opts = Some hs) :
  forall h, h ∈ hs ->
    0 <= PosX h <= EndX h /\ EndX h <= zlen x /\ 0 <= PosY h <= EndY h /\ EndY h <= zlen y /\
    map snd (xside (HEdits h)) = slice x (PosX h) (EndX h) /\
    map snd (yside (HEdits h)) = slice y (PosY h) (EndY h) /\
    exists e, e ∈ HEdits h /\ op e <> Match.
Proof.
  intros h Hh. unfold Hunks in HH.
  destruct (FromOptions opts _) as [cfg|] eqn:Ecfg; [|discriminate].
  assert (Hc : 0 <= Context cfg).
  { apply (from_options_context opts (Z.lor flag_Context flag_Minimal) config_Default cfg Hopts); [unfold config_Default; simpl; lia|exact Ecfg]. }
  destruct (Diff x y cfg) as [[rx ry]|] eqn:HD; [|discriminate].
  destruct (Diff_result_lengths_gen x y cfg rx ry HD) as [Lx Ly].
  destruct (Diff_sentinels_gen x y cfg rx ry HD) as [Sx Sy].
  unfold hunks in HH. destruct (rvecs.Hunks rx ry cfg) as [rhs|] eqn:Er; [|discriminate].
  destruct (rvecs_Hunks_cover_all rx ry cfg rhs Hc Sx Sy Er) as [Ok _].
  destruct (hunks_conv_sides zero x y rx ry rhs hs HH h Hh)
    as (h0 & Hh0 & P1 & P2 & P3 & P4 & Ax & Bx & Ay & By).
  destruct (Ok h0 Hh0) as (B1 & B2 & B3 & B4 & k & Hk).
  unfold rvecs.n, rvecs.m, zlen in *. rewrite Lx in B2. rewrite Ly in B4.
  split; [lia|]. split; [lia|]. split; [lia|]. split; [lia|].
  split; [exact Bx|]. split; [exact By|].
  destruct Hk as [[Hk Hr]|[Hk Hr]].
  - destruct (xside_change (HEdits h)) as (e & He & Ho).
    { rewrite Ax. apply (slice_true_in _ _ _ k); [lia|lia|exact Hr]. }
    exists e. split; [exact He|]. rewrite Ho. discriminate.
  - destruct (yside_change (HEdits h)) as (e & He & Ho).
    { rewrite Ay. apply (slice_true_in _ _ _ k); [lia|lia|exact Hr]. }
    exists e. split; [exact He|]. rewrite Ho. discriminate.
Qed.

Lemma Hunks_windows_witness :
  exists hs, Hunks 0 [1; 2; 3] [1; 3; 4] [opt_Context 0] = Some hs /\
  forall h, h ∈ hs ->
    0 <= PosX h <= EndX h /\ EndX h <= zlen [1; 2; 3] /\ 0 <= PosY h <= EndY h /\ EndY h <= zlen [1; 3; 4] /\
    map snd (xside (HEdits h)) = slice [1; 2; 3] (PosX h) (EndX h) /\
    map snd (yside (HEdits h)) = slice [1; 3; 4] (PosY h) (EndY h) /\
    exists e, e ∈ HEdits h /\ op e <> Match.
Proof.
  eexists. split; [vm_compute; reflexivity|].
  apply (Hunks_windows 0 [1; 2; 3] [1; 3; 4] [opt_Context 0]).
  - constructor; [|constructor]. intros c Hc. simpl. lia.
  - vm_compute. reflexivity.
Defined.

Section IndentProps.
Import indentheuristic.

Lemma getIndent_from_range (l : string) : forall i, 0 <= i < maxIndent ->
  indent_ok (getIndent_from l i) /\
  (getIndent_from l i = -1 -> all_blank l = true).
Proof.
  unfold indent_ok. induction l as [|c l IH]; intros i Hi; simpl; [auto|].
  unfold is_blank.
  destruct (is_ascii c 32) eqn:E32; simpl.
  { destruct (maxIndent <=? i + 1) eqn:Em; [unfold maxIndent in *; split; [lia|discriminate]|].
    apply Z.leb_gt in Em. apply IH. lia. }
  destruct (is_ascii c 9) eqn:E9; simpl.
  { assert (0 <= i mod 8 < 8) by (apply Z.mod_pos_bound; lia).
    destruct (maxIndent <=? i + (8 - i mod 8)) eqn:Em; [unfold maxIndent in *; split; [lia|discriminate]|].
    apply Z.leb_gt in Em. apply IH. lia. }
  destruct (is_ascii c 10 || is_ascii c 11 || is_ascii c 13) eqn:Ews; simpl.
  { destruct (maxIndent <=? i) eqn:Em; [unfold maxIndent in *; split; [lia|discriminate]|].
    destruct (IH i ltac:(lia)) as [A B]. split; [exact A|]. intros Hg. exact (B Hg). }
  split; [lia|]. intros ->. lia.
Qed.

Lemma getIndent_from_spaces (k : nat) (c : ascii) (l : string) : forall i,
  0 <= i < maxIndent -> is_blank c = false ->
  getIndent_from (spaces k ++ String c l)%string i = Z.min (i + Z.of_nat k) maxIndent.
Proof.
  induction k as [|k IH]; intros i Hi Hc; simpl.
  - unfold is_blank in Hc. apply orb_false_iff in Hc as [Hc H13]. apply orb_false_iff in Hc as [Hc H11].
    apply orb_false_iff in Hc as [Hc H10]. apply orb_false_iff in Hc as [H32 H9].
    rewrite H32, H9, H10, H11, H13. simpl. lia.
  - destruct (maxIndent <=? i + 1) eqn:Em.
    + apply Z.leb_le in Em. lia.
    + apply Z.leb_gt in Em. rewrite (IH (i + 1) ltac:(lia) Hc). lia.
Qed.

(** X14: [getIndent] is [-1] or lies in [[0, maxIndent]], and it is [-1] only for a line of blanks. *)
Theorem getIndent_range (l : ByteView) :
  (getIndent l = -1 \/ 0 <= getIndent l <= maxIndent) /\
  (getIndent l = -1 -> all_blank (byteview.data l) = true).
Proof. apply (getIndent_from_range (byteview.data l) 0). unfold maxIndent; lia. Qed.

(** X15: a line of [k] spaces followed by a non-blank byte has indentation [min k maxIndent]. *)
Theorem getIndent_leading_spaces (k : nat) (c : ascii) (rest : string)
  (Hc : is_blank c = false) :
  getIndent (byteview.From (spaces k ++ String c rest)) = Z.min (Z.of_nat k) maxIndent.
Proof. unfold getIndent, byteview.From. cbn [byteview.data]. rewrite getIndent_from_spaces by (unfold maxIndent; lia || exact Hc). lia. Qed.

Lemma getIndent_leading_spaces_witness :
  is_blank "x"%char = false /\ getIndent (byteview.From (spaces 3 ++ String "x" "yz")) = 3.
Proof. split; [reflexivity|]. apply (getIndent_leading_spaces 3 "x"%char "yz"%string). reflexivity. Defined.

Lemma getIndent_ok (l : ByteView) : indent_ok (getIndent l).
Proof. apply (getIndent_from_range (byteview.data l) 0). unfold maxIndent; lia. Qed.

Lemma pre_loop_spec (ls : list ByteView) (f : nat) : forall i pI pB pI' pB',
  pre_loop ls f i pI pB = Some (pI', pB') -> indent_ok pI -> 0 <= pB < maxBlanks ->
  indent_ok pI' /\ 0 <= pB' <= maxBlanks.
Proof.
  induction f as [|f IH]; intros i pI pB pI' pB' H Hi Hb; simpl in H.
  - injection H as <- <-. unfold maxBlanks in *; split; [exact Hi|lia].
  - destruct (0 <=? i); [|injection H as <- <-; unfold maxBlanks in *; split; [exact Hi|lia]].
    destruct (sget ls i) as [l|]; [|discriminate].
    destruct (negb (getIndent l =? -1)).
    { injection H as <- <-. split; [apply getIndent_ok|unfold maxBlanks in *; lia]. }
    destruct (pB + 1 =? maxBlanks) eqn:E.
    { injection H as <- <-. apply Z.eqb_eq in E. unfold indent_ok, maxIndent, maxBlanks in *. lia. }
    apply Z.eqb_neq in E. apply (IH _ _ _ _ _ H); [apply getIndent_ok|unfold maxBlanks in *; lia].
Qed.

Lemma post_loop_spec (ls : list ByteView) (f : nat) : forall i pI pB pI' pB',
  post_loop ls f i pI pB = Some (pI', pB') -> indent_ok pI -> 0 <= pB < maxBlanks ->
  indent_ok pI' /\ 0 <= pB' <= maxBlanks.
Proof.
  induction f as [|f IH]; intros i pI pB pI' pB' H Hi Hb; simpl in H.
  - injection H as <- <-. unfold maxBlanks in *; split; [exact Hi|lia].
  - destruct (i <? zlen ls); [|injection H as <- <-; unfold maxBlanks in *; split; [exact Hi|lia]].
    destruct (sget ls i) as [l|]; [|discriminate].
    destruct (negb (getIndent l =? -1)).
    { injection H as <- <-. split; [apply getIndent_ok|unfold maxBlanks in *; lia]. }
    destruct (pB + 1 =? maxBlanks) eqn:E.
    { injection H as <- <-. apply Z.eqb_eq in E. unfold indent_ok, maxIndent, maxBlanks in *. lia. }
    apply Z.eqb_neq in E. apply (IH _ _ _ _ _ H); [apply getIndent_ok|unfold maxBlanks in *; lia].
Qed.

Lemma pre_loop_some (ls : list ByteView) (f : nat) : forall i pI pB,
  -1 <= i < zlen ls -> exists p, pre_loop ls f i pI pB = Some p.
Proof.
  induction f as [|f IH]; intros i pI pB Hi; simpl; [eauto|].
  destruct (0 <=? i) eqn:E; [|eauto]. apply Z.leb_le in E.
  destruct (sget_list ls i ltac:(lia)) as [l Hl]. rewrite Hl.
  destruct (negb _); [eauto|]. destruct (_ =? _); [eauto|]. apply IH. lia.
Qed.

Lemma post_loop_some (ls : list ByteView) (f : nat) : forall i pI pB,
  0 <= i -> exists p, post_loop ls f i pI pB = Some p.
Proof.
  induction f as [|f IH]; intros i pI pB Hi; simpl; [eauto|].
  destruct (i <? zlen ls) eqn:E; [|eauto]. apply Z.ltb_lt in E.
  destruct (sget_list ls i ltac:(lia)) as [l Hl]. rewrite Hl.
  destruct (negb _); [eauto|]. destruct (_ =? _); [eauto|]. apply IH. lia.
Qed.

(** X16: [measureShift lines shift] succeeds exactly when [0 <= shift <= len(lines)]; outside of that range the Go code indexes out of bounds. *)
Theorem measureShift_defined (ls : list ByteView) (shift : Z) :
  (exists m, measureShift ls shift = Some m) <-> 0 <= shift <= zlen ls.
Proof.
  unfold measureShift. split.
  - intros [m Hm].
    destruct (zlen ls <=? shift) eqn:E.
    + apply Z.leb_le in E. split; [unfold zlen in *; lia|].
      destruct (Z.eq_dec shift (zlen ls)) as [|Hne]; [lia|].
      replace (Z.to_nat shift) with (S (Z.to_nat (shift - 1))) in Hm by (unfold zlen in *; lia).
      cbn [pre_loop] in Hm.
      replace (0 <=? shift - 1) with true in Hm by (symmetry; apply Z.leb_le; unfold zlen in *; lia).
      replace (sget ls (shift - 1)) with (@None ByteView) in Hm; [discriminate|].
      unfold sget. replace (0 <=? shift - 1) with true by (symmetry; apply Z.leb_le; unfold zlen in *; lia).
      symmetry. apply lookup_ge_None. unfold zlen in *. lia.
    + apply Z.leb_gt in E. destruct (sget ls shift) as [l|] eqn:El; [|discriminate].
      apply sget_Some in El. lia.
  - intros Hs.
    destruct (pre_loop_some ls (Z.to_nat shift) (shift - 1) (-1) 0 ltac:(lia)) as [[pI pB] Hp].
    destruct (post_loop_some ls (Z.to_nat (zlen ls - shift)) (shift + 1) (-1) 0 ltac:(lia))
      as [[qI qB] Hq].
    destruct (zlen ls <=? shift) eqn:E.
    + rewrite Hp, Hq. eauto.
    + apply Z.leb_gt in E. destruct (sget_list ls shift ltac:(lia)) as [l Hl]. rewrite Hl, Hp, Hq. eauto.
Qed.

(** X17: a measure of [measureShift] has [endOfFile] exactly when [shift] is past the last line, then indent [-1]; its blank counts lie in [[0, maxBlanks]] and its indentations are [-1] or in [[0, maxIndent]]. *)
Theorem measureShift_spec (ls : list ByteView) (shift : Z) (m : measure)
  (H : measureShift ls shift = Some m) :
  endOfFile m = (zlen ls <=? shift) /\ (endOfFile m = true -> indent m = -1) /\
  0 <= preBlank m <= maxBlanks /\ 0 <= postBlank m <= maxBlanks /\
  indent_ok (indent m) /\ indent_ok (preIndent m) /\ indent_ok (postIndent m).
Proof.
  unfold measureShift in H.
  assert (Hm1 : indent_ok (-1)) by (left; reflexivity).
  assert (Hb0 : 0 <= 0 < maxBlanks) by (unfold maxBlanks; lia).
  destruct (if zlen ls <=? shift then Some (true, -1)
            else let? l := sget ls shift in Some (false, getIndent l)) as [[eof ind]|] eqn:E1;
    [|discriminate].
  destruct (pre_loop ls _ _ _ _) as [[pI pB]|] eqn:Ep; [|discriminate].
  destruct (post_loop ls _ _ _ _) as [[qI qB]|] eqn:Eq; [|discriminate].
  injection H as <-. simpl.
  apply pre_loop_spec in Ep; [|exact Hm1|exact Hb0].
  apply post_loop_spec in Eq; [|exact Hm1|exact Hb0].
  destruct Ep as [Ep1 Ep2], Eq as [Eq1 Eq2].
  destruct (zlen ls <=? shift).
  - injection E1 as <- <-. auto 10.
  - destruct (sget ls shift) as [l|]; [|discriminate]. injection E1 as <- <-.
    split; [reflexivity|]. split; [discriminate|]. auto using getIndent_ok.
Qed.

Lemma measureShift_spec_witness :
  exists m, measureShift (map byteview.From ["a"; ""; "  b"]%string) 1 = Some m /\
  endOfFile m = (zlen (map byteview.From ["a"; ""; "  b"]%string) <=? 1) /\ (endOfFile m = true -> indent m = -1) /\
  0 <= preBlank m <= maxBlanks /\ 0 <= postBlank m <= maxBlanks /\
  indent_ok (indent m) /\ indent_ok (preIndent m) /\ indent_ok (postIndent m).
Proof.
  eexists. split; [vm_compute; reflexivity|].
  apply (measureShift_spec (map byteview.From ["a"; ""; "  b"]%string) 1). vm_compute. reflexivity.
Defined.

(** X18: on a scanner over a maximal group of changes, [prevGroup] undoes a successful [nextGroup] and [nextGroup] undoes a successful [prevGroup]. *)
Theorem nextGroup_prevGroup (s : scanner) (Hs : grp_ok s) (H0 : 0 <= start s) :
  (forall s', nextGroup s = Some (true, s') -> prevGroup s' = Some (true, s)) /\
  (forall s', prevGroup s = Some (true, s') -> nextGroup s' = Some (true, s)).
Proof.
  destruct s as [st en ls r]. unfold grp_ok in Hs; simpl in *.
  destruct Hs as (H1 & H2 & H3 & H4 & H5). split; intros s' H.
  - unfold nextGroup in H; simpl in H.
    destruct (en =? zlen r - 1) eqn:Ee; [discriminate|]. apply Z.eqb_neq in Ee.
    destruct (extend_down r (length r) (en + 1)) as [e|] eqn:Ed; [|discriminate].
    injection H as <-. unfold prevGroup; simpl.
    replace (en + 1 =? 0) with false by (symmetry; apply Z.eqb_neq; lia).
    replace (en + 1 - 1) with en by lia.
    destruct (extend_up r (length r) en) as [st'|] eqn:Eu.
    + apply extend_up_spec in Eu; [|unfold zlen in *; lia].
      destruct Eu as (U1 & U2 & U3 & U4).
      assert (st' = st) as ->; [|reflexivity].
      destruct (Z.lt_trichotomy st' st) as [Hlt|[Heq|Hgt]]; [|exact Heq|].
      * assert (sget r (st - 1) = Some true) by (apply U3; lia).
        assert (0 < st -> False) by (intros Hp; specialize (H3 Hp); congruence).
        lia.
      * assert (sget r (st' - 1) = Some true) by (apply H4; lia).
        specialize (U4 ltac:(lia)). congruence.
    + exfalso. revert Eu. generalize (length r) as f. intros f Eu.
      assert (forall f k, 0 <= k <= en -> extend_up r f k <> None) as Hn; [|exact (Hn f en ltac:(lia) Eu)].
      clear Eu f. intros f. induction f as [|f IH]; intros k Hk; simpl; [discriminate|].
      destruct (0 <? k) eqn:Ek; [|discriminate]. apply Z.ltb_lt in Ek.
      destruct (sget_list r (k - 1) ltac:(unfold zlen in *; lia)) as [b Hb]. rewrite Hb.
      destruct b; [apply IH; lia|discriminate].
  - unfold prevGroup in H; simpl in H.
    destruct (st =? 0) eqn:Es; [discriminate|]. apply Z.eqb_neq in Es.
    destruct (extend_up r (length r) (st - 1)) as [st'|] eqn:Eu; [|discriminate].
    injection H as <-. unfold nextGroup; simpl.
    replace (st - 1 =? zlen r - 1) with false by (symmetry; apply Z.eqb_neq; lia).
    replace (st - 1 + 1) with st by lia.
    destruct (extend_down r (length r) st) as [e|] eqn:Ed.
    + apply extend_down_spec in Ed; [|unfold zlen in *; lia].
      destruct Ed as (D1 & D2 & D3 & D4).
      specialize (D2 ltac:(lia)).
      assert (e = en) as ->; [|reflexivity].
      destruct (Z.lt_trichotomy e en) as [Hlt|[Heq|Hgt]]; [|exact Heq|].
      * assert (sget r e = Some true) by (apply H4; lia).
        specialize (D4 ltac:(lia)). congruence.
      * assert (sget r en = Some true) by (apply D3; lia).
        specialize (H5 ltac:(lia)). congruence.
    + exfalso. revert Ed. generalize (length r) as f. intros f Ed.
      assert (forall f k, st <= k <= zlen r - 1 -> extend_down r f k <> None) as Hn;
        [|exact (Hn f st ltac:(lia) Ed)].
      clear Ed f. intros f. induction f as [|f IH]; intros k Hk; simpl; [discriminate|].
      destruct (k <? zlen r - 1) eqn:Ek; [|discriminate]. apply Z.ltb_lt in Ek.
      destruct (sget_list r k ltac:(lia)) as [b Hb]. rewrite Hb.
      destruct b; [apply IH; lia|discriminate].
Qed.

Lemma nextGroup_prevGroup_witness :
  grp_ok (Scanner 1 3 (map byteview.From ["a"; "b"; "c"; "d"; "e"]%string) [false; true; true; false; true; false]) /\
  0 <= start (Scanner 1 3 (map byteview.From ["a"; "b"; "c"; "d"; "e"]%string) [false; true; true; false; true; false]) /\
  ((forall s', nextGroup (Scanner 1 3 (map byteview.From ["a"; "b"; "c"; "d"; "e"]%string) [false; true; true; false; true; false])
       = Some (true, s') ->
     prevGroup s' = Some (true, Scanner 1 3 (map byteview.From ["a"; "b"; "c"; "d"; "e"]%string) [false; true; true; false; true; false])) /\
   (forall s', prevGroup (Scanner 1 3 (map byteview.From ["a"; "b"; "c"; "d"; "e"]%string) [false; true; true; false; true; false])
       = Some (true, s') ->
     nextGroup s' = Some (true, Scanner 1 3 (map byteview.From ["a"; "b"; "c"; "d"; "e"]%string) [false; true; true; false; true; false]))).
Proof.
  assert (Hg : grp_ok (Scanner 1 3 (map byteview.From ["a"; "b"; "c"; "d"; "e"]%string) [false; true; true; false; true; false])).
  { unfold grp_ok; simpl. split; [lia|]. split; [vm_compute; discriminate|].
    split; [intros _; reflexivity|]. split.
    - intros k Hk. assert (k = 1 \/ k = 2) as [->| ->] by lia; reflexivity.
    - intros _; reflexivity. }
  split; [exact Hg|]. split; [simpl; lia|].
  apply nextGroup_prevGroup; [exact Hg|simpl; lia].
Defined.

End IndentProps.

Lemma numDigits_loop_spec (f : nat) : forall v n,
  0 <= v < 10 ^ Z.of_nat f ->
  (v = 0 -> numDigits_loop f v n = n) /\
  (0 < v -> n < numDigits_loop f v n /\
     10 ^ (numDigits_loop f v n - n - 1) <= v < 10 ^ (numDigits_loop f v n - n)).
Proof.
  induction f as [|f IH]; intros v n Hv.
  - simpl in Hv. split; intros; [reflexivity|lia].
  - rewrite Nat2Z.inj_succ, Z.pow_succ_r in Hv by lia.
    cbn [numDigits_loop]. split; intros Hp.
    + subst v. reflexivity.
    + replace (0 <? v) with true by (symmetry; apply Z.ltb_lt; lia).
      rewrite Z.quot_div_nonneg by lia.
      assert (Hq : 0 <= v / 10 < 10 ^ Z.of_nat f).
      { split; [apply Z.div_pos; lia|]. apply Z.div_lt_upper_bound; lia. }
      destruct (IH (v / 10) (n + 1) Hq) as [IH0 IH1].
      pose proof (Z.div_mod v 10 ltac:(lia)) as Hdm.
      pose proof (Z.mod_pos_bound v 10 ltac:(lia)) as Hmb.
      destruct (Z.eq_dec (v / 10) 0) as [Hz|Hz].
      * rewrite (IH0 Hz). replace (n + 1 - n - 1) with 0 by lia. replace (n + 1 - n) with 1 by lia.
        simpl. lia.
      * destruct (IH1 ltac:(lia)) as (H1 & H2 & H3).
        set (r := numDigits_loop f (v / 10) (n + 1)) in *.
        replace (r - n - 1) with (Z.succ (r - (n + 1) - 1)) by lia.
        replace (r - n) with (Z.succ (r - (n + 1))) by lia.
        rewrite !Z.pow_succ_r by lia. split; [lia|]. nia.
Qed.

(** X19: for [0 <= v < 2^63], [numDigits v] is the number of decimal digits of [v]: [v < 10^d], and [10^(d-1) <= v] when [d >= 2]. *)
Theorem numDigits_spec (v : Z) (Hv : 0 <= v < 2 ^ 63) :
  1 <= numDigits v /\ v < 10 ^ numDigits v /\
  (2 <= numDigits v -> 10 ^ (numDigits v - 1) <= v).
Proof.
  unfold numDigits.
  destruct (v <? 10) eqn:E1; [apply Z.ltb_lt in E1; simpl; lia|apply Z.ltb_ge in E1].
  destruct (v <? 100) eqn:E2; [apply Z.ltb_lt in E2; simpl; lia|apply Z.ltb_ge in E2].
  destruct (v <? 1000) eqn:E3; [apply Z.ltb_lt in E3; simpl; lia|apply Z.ltb_ge in E3].
  destruct (v <? 10000) eqn:E4; [apply Z.ltb_lt in E4; simpl; lia|apply Z.ltb_ge in E4].
  destruct (v <? 100000) eqn:E5; [apply Z.ltb_lt in E5; simpl; lia|apply Z.ltb_ge in E5].
  assert (Hb : 2 ^ 63 < 10 ^ Z.of_nat 64) by (vm_compute; reflexivity).
  destruct (numDigits_loop_spec 64 v 0 ltac:(lia)) as [_ H].
  destruct (H ltac:(lia)) as (H1 & H2 & H3). rewrite !Z.sub_0_r in *.
  split; [lia|]. split; [exact H3|intros _; exact H2].
Qed.

Lemma numDigits_spec_witness :
  (0 <= 1234567 < 2 ^ 63) /\ numDigits 1234567 = 7 /\
  (1 <= numDigits 1234567 /\ 1234567 < 10 ^ numDigits 1234567 /\
   (2 <= numDigits 1234567 -> 10 ^ (numDigits 1234567 - 1) <= 1234567)).
Proof.
  assert (H : 0 <= 1234567 < 2 ^ 63) by (split; [lia|vm_compute; reflexivity]).
  split; [exact H|]. split; [vm_compute; reflexivity|]. apply numDigits_spec. exact H.
Defined.
